(** * convoy/util.py: process launching and waiting

    A shallow embedding of the subprocess helpers of [convoy/util.py]
    ([subprocess_with_output], [subprocess_nowait],
    [subprocess_nowait_pipe_stdout], [subprocess_wait_all],
    [subprocess_wait_any], [subprocess_wait_multi]) together with the part
    of Python's [subprocess.Popen] and file objects they rely on.

    Python objects live in a store indexed by object identity, so that a
    [Popen] object reachable from several list positions is one object.
    Effects (status queries, sleeping, opening and closing files, spawning)
    are threaded through a state-and-exception monad over a [World] that
    also keeps a chronological log of the external calls performed. *)

From Stdlib Require Import ZArith Lia.
From stdpp Require Import base tactics option list numbers functions strings gmap.

(** ** Python values used by the helpers *)

(** Identity of a Python object ([id(obj)]). *)
Definition handle := nat.

(** Exceptions that can reach the caller. *)
Inductive exn :=
| ValueError (msg : string)
| IndexError
| UnboundLocalError
| OSError (errno : nat)
| KeyboardInterrupt.

(** One end of an OS pipe, a file object of the caller, or one of the
    caller's own standard descriptors (0, 1, 2). *)
Inductive endpoint :=
| Inherited (fd : nat)
| PipeR (p : nat)
| PipeW (p : nat)
| FileObj (f : nat).

(** The [stdin]/[stdout]/[stderr] arguments of [subprocess.Popen]:
    [None] (the default, no redirection), [subprocess.PIPE],
    [subprocess.STDOUT], or an open file object. *)
Inductive redirect :=
| NoRedirect
| PIPE
| STDOUT
| ToFile (f : nat).

(** The attributes of a [subprocess.Popen] object that the helpers and
    their callers read. *)
Record Popen := mkPopen {
  pid : nat;
  returncode : option Z;
  stdin : option endpoint;
  stdout : option endpoint;
  stderr : option endpoint
}.

Definition set_returncode (r : option Z) (p : Popen) : Popen :=
  {| pid := pid p; returncode := r;
     stdin := stdin p; stdout := stdout p; stderr := stderr p |}.

(** A Python list of [Popen] objects: the list object has an identity of
    its own, its items are references. *)
Record pylist := PyList {
  list_id : nat;
  items : list handle
}.

(** Keyword arguments of the [subprocess.Popen] constructor. *)
Record popen_args := mkArgs {
  a_cmd : string;
  a_shell : bool;
  a_cwd : option string;
  a_env : option (gmap string string);
  a_stdin : redirect;
  a_stdout : redirect;
  a_stderr : redirect
}.

(** What the operating system knows about a spawned child: where its three
    standard descriptors point. *)
Record Child := mkChild {
  c_pid : nat;
  c_args : popen_args;
  c_in : endpoint;
  c_out : endpoint;
  c_err : endpoint
}.

(** ** The world *)

Inductive syscall := SysOpen | SysSpawn | SysWait | SysClose.

Inductive event :=
| EvPoll (h : handle) (r : option Z)
| EvSleep
| EvOpen (f : nat)
| EvClose (f : nat)
| EvSpawn (p : nat)
| EvWait (h : handle).

(** [host p t] is what [waitpid(p, WNOHANG)] observes at instant [t]:
    [None] while the child runs, [Some c] once it has exited with code [c].
    [fault k t] is the exception, if any, that a call of kind [k] issued at
    instant [t] raises.  [now] counts the external calls made so far. *)
Record World := mkWorld {
  host : nat -> nat -> option Z;
  fault : syscall -> nat -> option exn;
  now : nat;
  objs : handle -> Popen;
  fresh : nat;
  files : list nat;
  children : list Child;
  log : list event
}.

(** ** State and exception monad *)

Inductive outcome (A : Type) :=
| Returns (a : A)
| Raises (e : exn)
| Spins.
Arguments Returns {A} a.
Arguments Raises {A} e.
Arguments Spins {A}.

Definition M (S A : Type) := S -> outcome A * S.

Definition ret {S A} (a : A) : M S A := fun s => (Returns a, s).
Definition raise {S A} (e : exn) : M S A := fun s => (Raises e, s).
Definition spin {S A} : M S A := fun s => (Spins, s).

Definition bind {S A B} (m : M S A) (k : A -> M S B) : M S B :=
  fun s =>
    match m s with
    | (Returns a, s') => k a s'
    | (Raises e, s') => (Raises e, s')
    | (Spins, s') => (Spins, s')
    end.

Notation "'let*' x ':=' m 'in' k" := (bind m (fun x => k))
  (at level 10, x name, m at level 100, k at level 200).
Notation "m '>>' k" := (bind m (fun _ => k))
  (at level 100, k at level 200, right associativity).

(** Python's [try: body finally: fin].  The finaliser runs whether the body
    returned or raised; an exception raised by the finaliser is the one
    that propagates. A body that never finishes never reaches it. *)
Definition try_finally {S A} (body : M S A) (fin : M S unit) : M S A :=
  fun s =>
    match body s with
    | (Spins, s') => (Spins, s')
    | (out, s') =>
        match fin s' with
        | (Returns _, s'') => (out, s'')
        | (Raises e, s'') => (Raises e, s'')
        | (Spins, s'') => (Spins, s'')
        end
    end.

(** ** World primitives *)

Definition tick (ev : event) (w : World) : World :=
  {| host := host w; fault := fault w; now := S (now w); objs := objs w;
     fresh := fresh w; files := files w; children := children w;
     log := log w ++ [ev] |}.

Definition set_obj (h : handle) (p : Popen) (w : World) : World :=
  {| host := host w; fault := fault w; now := now w;
     objs := <[h := p]> (objs w);
     fresh := fresh w; files := files w; children := children w;
     log := log w |}.

(** The status a query of [h] issued at instant [t] yields in store [w]:
    the cached [returncode] when there is one, the kernel's answer
    otherwise. *)
Definition status (w : World) (h : handle) (t : nat) : option Z :=
  match returncode (objs w h) with
  | Some c => Some c
  | None => host w (pid (objs w h)) t
  end.

(** [Popen.poll()]: check whether the child has terminated, set and return
    the [returncode] attribute. *)
Definition polled (h : handle) (w : World) : World :=
  let r := status w h (now w) in
  tick (EvPoll h r) (set_obj h (set_returncode r (objs w h)) w).

Definition poll (h : handle) : M World (option Z) :=
  fun w => (Returns (status w h (now w)), polled h w).

(** Reading the attribute [proc.returncode]. *)
Definition get_returncode (h : handle) : M World (option Z) :=
  fun w => (Returns (returncode (objs w h)), w).

(** [time.sleep(0.03)]. *)
Definition sleep : M World unit :=
  fun w => (Returns tt, tick EvSleep w).

(** Python's [x == 0] for the result of [poll()]. *)
Definition eq0 (r : option Z) : bool :=
  match r with
  | Some c => (c =? 0)%Z
  | None => false
  end.

(** [x is not None]. *)
Definition is_not_None {A} (x : option A) : bool :=
  match x with Some _ => true | None => false end.

(** [procs is None or len(procs) == 0]. *)
Definition invalid (procs : option pylist) : bool :=
  match procs with
  | None => true
  | Some l => length (items l) =? 0
  end.

(** ** subprocess_wait_all *)

(** Body of [for i in range(0, len(procs))] at index [i]. *)
Definition all_step (procs : list handle) (rcodes : list (option Z)) (i : nat)
  : M World (list (option Z)) :=
  match rcodes !! i, procs !! i with
  | Some None, Some h =>
      let* r := poll h in
      if eq0 r then
        let* rc := get_returncode h in
        ret (<[i := rc]> rcodes)
      else ret rcodes
  | Some (Some _), _ => ret rcodes
  | _, _ => raise IndexError
  end.

(** The [for] loop from index [i] with [n] iterations left. *)
Fixpoint all_scan (procs : list handle) (rcodes : list (option Z)) (i n : nat)
  : M World (list (option Z)) :=
  match n with
  | O => ret rcodes
  | S n' =>
      let* rcodes' := all_step procs rcodes i in
      all_scan procs rcodes' (S i) n'
  end.

(** The [while True] loop; [fuel] bounds the number of sweeps. *)
Fixpoint all_loop (procs : list handle) (rcodes : list (option Z)) (fuel : nat)
  : M World (list (option Z)) :=
  match fuel with
  | O => spin
  | S fuel' =>
      let* rcodes' := all_scan procs rcodes 0 (length procs) in
      if forallb is_not_None rcodes' then ret rcodes'
      else sleep >> all_loop procs rcodes' fuel'
  end.

Definition subprocess_wait_all (procs : option pylist) (fuel : nat)
  : M World (list (option Z)) :=
  match procs with
  | None => raise (ValueError "procs is invalid")
  | Some l =>
      if length (items l) =? 0 then raise (ValueError "procs is invalid")
      else all_loop (items l) (replicate (length (items l)) None) fuel
  end.

(** ** subprocess_wait_any *)

(** The [for] loop from index [i] with [n] iterations left; [Some (i, rc)]
    is the [return] inside the loop, [None] falling out of it. *)
Fixpoint any_scan (procs : list handle) (i n : nat)
  : M World (option (nat * option Z)) :=
  match n with
  | O => ret None
  | S n' =>
      match procs !! i with
      | None => raise IndexError
      | Some h =>
          let* r := poll h in
          if eq0 r then
            let* rc := get_returncode h in
            ret (Some (i, rc))
          else any_scan procs (S i) n'
      end
  end.

Fixpoint any_loop (procs : list handle) (fuel : nat)
  : M World (nat * option Z) :=
  match fuel with
  | O => spin
  | S fuel' =>
      let* found := any_scan procs 0 (length procs) in
      match found with
      | Some res => ret res
      | None => sleep >> any_loop procs fuel'
      end
  end.

Definition subprocess_wait_any (procs : option pylist) (fuel : nat)
  : M World (nat * option Z) :=
  match procs with
  | None => raise (ValueError "procs is invalid")
  | Some l =>
      if length (items l) =? 0 then raise (ValueError "procs is invalid")
      else any_loop (items l) fuel
  end.

(** ** subprocess_wait_multi *)

(** [if procs is not None and len(procs) > 0: for i in ...: ...]. *)
Definition multi_scan (procs : option pylist)
  : M World (option (pylist * nat * option Z)) :=
  match procs with
  | None => ret None
  | Some l =>
      if 0 <? length (items l) then
        let* found := any_scan (items l) 0 (length (items l)) in
        match found with
        | Some (i, rc) => ret (Some (l, i, rc))
        | None => ret None
        end
      else ret None
  end.

(** The [while True] loop: the first group is scanned, then the second,
    then the loop sleeps. *)
Fixpoint multi_loop (procs1 procs2 : option pylist) (fuel : nat)
  : M World (pylist * nat * option Z) :=
  match fuel with
  | O => spin
  | S fuel' =>
      let* found1 := multi_scan procs1 in
      match found1 with
      | Some res => ret res
      | None =>
          let* found2 := multi_scan procs2 in
          match found2 with
          | Some res => ret res
          | None => sleep >> multi_loop procs1 procs2 fuel'
          end
      end
  end.

Definition subprocess_wait_multi (procs1 procs2 : option pylist) (fuel : nat)
  : M World (pylist * nat * option Z) :=
  if invalid procs1 && invalid procs2
  then raise (ValueError "both procs1 and procs2 are invalid")
  else multi_loop procs1 procs2 fuel.

(** ** Files and process creation *)

Definition pass (w : World) : World :=
  {| host := host w; fault := fault w; now := S (now w); objs := objs w;
     fresh := fresh w; files := files w; children := children w;
     log := log w |}.

Definition set_files (fs : list nat) (w : World) : World :=
  {| host := host w; fault := fault w; now := now w; objs := objs w;
     fresh := fresh w; files := fs; children := children w;
     log := log w |}.

Definition set_now (t : nat) (w : World) : World :=
  {| host := host w; fault := fault w; now := t; objs := objs w;
     fresh := fresh w; files := files w; children := children w;
     log := log w |}.

Definition add_child (c : Child) (n : nat) (w : World) : World :=
  {| host := host w; fault := fault w; now := now w; objs := objs w;
     fresh := n; files := files w; children := children w ++ [c];
     log := log w |}.

(** [open(os.devnull, 'w')]: a new file object of the caller, unless the
    environment refuses. *)
Definition open_devnull : M World nat :=
  fun w =>
    match fault w SysOpen (now w) with
    | Some e => (Raises e, pass w)
    | None =>
        let f := fresh w in
        (Returns f,
         tick (EvOpen f)
           {| host := host w; fault := fault w; now := now w; objs := objs w;
              fresh := S f; files := f :: files w; children := children w;
              log := log w |})
    end.

(** [f.close()]: the descriptor is released whatever happens; the call may
    still report an error. *)
Definition file_close (f : nat) : M World unit :=
  fun w =>
    let w' :=
      tick (EvClose f)
        (set_files (filter (fun g => negb (g =? f)) (files w)) w) in
    match fault w SysClose (now w) with
    | Some e => (Raises e, w')
    | None => (Returns tt, w')
    end.

(** Where the child's standard descriptors point, as [subprocess.Popen]
    wires them: no redirection inherits the caller's descriptor, [PIPE]
    creates a pipe whose other end becomes an attribute of the [Popen]
    object, [STDOUT] (for [stderr]) shares the child's standard output. *)
Definition child_in (a : popen_args) (p : nat) : endpoint :=
  match a_stdin a with
  | PIPE => PipeR p
  | ToFile f => FileObj f
  | _ => Inherited 0
  end.

Definition child_out (a : popen_args) (p : nat) : endpoint :=
  match a_stdout a with
  | PIPE => PipeW p
  | ToFile f => FileObj f
  | _ => Inherited 1
  end.

Definition child_err (a : popen_args) (pout perr : nat) : endpoint :=
  match a_stderr a with
  | NoRedirect => Inherited 2
  | PIPE => PipeW perr
  | STDOUT => child_out a pout
  | ToFile f => FileObj f
  end.

Definition parent_end (r : redirect) (e : endpoint) : option endpoint :=
  match r with
  | PIPE => Some e
  | _ => None
  end.

(** [subprocess.Popen(cmd, shell=..., cwd=..., env=..., stdin=...,
    stdout=..., stderr=...)].  [STDOUT] is only meaningful for [stderr]. *)
Definition Popen_new (a : popen_args) : M World handle :=
  fun w =>
    match a_stdin a, a_stdout a with
    | STDOUT, _ | _, STDOUT => (Raises (OSError 9), pass w)
    | _, _ =>
        match fault w SysSpawn (now w) with
        | Some e => (Raises e, pass w)
        | None =>
            let h := fresh w in
            let pin := S h in
            let pout := S (S h) in
            let perr := S (S (S h)) in
            let obj :=
              {| pid := h; returncode := None;
                 stdin := parent_end (a_stdin a) (PipeW pin);
                 stdout := parent_end (a_stdout a) (PipeR pout);
                 stderr := parent_end (a_stderr a) (PipeR perr) |} in
            let c :=
              {| c_pid := h; c_args := a;
                 c_in := child_in a pin;
                 c_out := child_out a pout;
                 c_err := child_err a pout perr |} in
            (Returns h,
             tick (EvSpawn h) (add_child c (S perr) (set_obj h obj w)))
        end
    end.

(** First instant from [t] on, within [fuel] instants, at which the status
    is terminal. *)
Fixpoint await (st : nat -> option Z) (t fuel : nat) : option (nat * Z) :=
  match fuel with
  | O => None
  | S fuel' =>
      match st t with
      | Some c => Some (t, c)
      | None => await st (S t) fuel'
      end
  end.

(** [Popen.wait()]: block until the child terminates, set and return
    [returncode]. *)
Definition Popen_wait (h : handle) (fuel : nat) : M World Z :=
  fun w =>
    match fault w SysWait (now w) with
    | Some e => (Raises e, tick (EvWait h) w)
    | None =>
        match await (status w h) (now w) fuel with
        | Some (t, c) =>
            (Returns c,
             tick (EvWait h)
               (set_now t (set_obj h (set_returncode (Some c) (objs w h)) w)))
        | None => (Spins, w)
        end
    end.

(** ** subprocess_with_output *)

(** Local variables of [subprocess_with_output] that are assigned inside
    the [try] block and read after it. *)
Record Frame := mkFrame {
  _devnull : option nat;
  proc : option handle
}.

Definition lift {A} (m : M World A) : M (Frame * World) A :=
  fun s =>
    match m (snd s) with
    | (out, w') => (out, (fst s, w'))
    end.

Definition set_devnull (f : nat) : M (Frame * World) unit :=
  fun s => (Returns tt, ({| _devnull := Some f; proc := proc (fst s) |}, snd s)).

Definition set_proc (h : handle) : M (Frame * World) unit :=
  fun s => (Returns tt, ({| _devnull := _devnull (fst s); proc := Some h |}, snd s)).

Definition get_devnull : M (Frame * World) (option nat) :=
  fun s => (Returns (_devnull (fst s)), s).

(** Reading the local [proc]; unbound if never assigned. *)
Definition get_proc : M (Frame * World) handle :=
  fun s =>
    match proc (fst s) with
    | Some h => (Returns h, s)
    | None => (Raises UnboundLocalError, s)
    end.

(** The frame on entry: [_devnull = None], [proc] not yet bound. *)
Definition empty_frame : Frame := {| _devnull := None; proc := None |}.

Definition with_frame {A} (m : M (Frame * World) A) : M World A :=
  fun w =>
    match m (empty_frame, w) with
    | (out, (_, w')) => (out, w')
    end.

(** The [try] block. *)
Definition with_output_try (cmd : string) (shell : bool) (cwd : option string)
    (suppress_output : bool) (fuel : nat) : M (Frame * World) unit :=
  (if suppress_output then
     let* f := lift open_devnull in
     set_devnull f >>
     let* p := lift (Popen_new
       {| a_cmd := cmd; a_shell := shell; a_cwd := cwd; a_env := None;
          a_stdin := NoRedirect; a_stdout := ToFile f; a_stderr := STDOUT |}) in
     set_proc p
   else
     let* p := lift (Popen_new
       {| a_cmd := cmd; a_shell := shell; a_cwd := cwd; a_env := None;
          a_stdin := NoRedirect; a_stdout := NoRedirect;
          a_stderr := NoRedirect |}) in
     set_proc p) >>
  let* p := get_proc in
  lift (Popen_wait p fuel) >> ret tt.

(** The [finally] block. *)
Definition with_output_finally : M (Frame * World) unit :=
  let* d := get_devnull in
  match d with
  | Some f => lift (file_close f)
  | None => ret tt
  end.

Definition subprocess_with_output (cmd : string) (shell : bool)
    (cwd : option string) (suppress_output : bool) (fuel : nat)
  : M World (option Z) :=
  with_frame
    (try_finally (with_output_try cmd shell cwd suppress_output fuel)
                 with_output_finally >>
     let* p := get_proc in
     lift (get_returncode p)).

(** ** subprocess_nowait, subprocess_nowait_pipe_stdout *)

Definition subprocess_nowait (cmd : string) (shell : bool)
    (cwd : option string) (env : option (gmap string string))
  : M World handle :=
  Popen_new
    {| a_cmd := cmd; a_shell := shell; a_cwd := cwd; a_env := env;
       a_stdin := NoRedirect; a_stdout := NoRedirect; a_stderr := NoRedirect |}.

Definition subprocess_nowait_pipe_stdout (cmd : string) (shell : bool)
    (cwd : option string) (env : option (gmap string string))
  : M World handle :=
  Popen_new
    {| a_cmd := cmd; a_shell := shell; a_cwd := cwd; a_env := env;
       a_stdin := NoRedirect; a_stdout := PIPE; a_stderr := NoRedirect |}.

(** ** Vocabulary for the statements *)

(** During the instants selected by [T], every status of [h] observable in
    store [w] satisfies [Q]. *)
Definition throughout (T : nat -> Prop) (Q : option Z -> Prop)
    (w : World) (h : handle) : Prop :=
  forall t, T t -> Q (status w h t).

(** The instants [lo, lo+1, ..., hi-1]. *)
Definition window (lo hi : nat) : nat -> Prop := fun t => lo <= t < hi.

(** [h] never shows exit code 0: it keeps running, or exits with another
    code. *)
Definition never_zero (w : World) (h : handle) : Prop :=
  throughout (fun _ => True) (fun s => s <> Some 0%Z) w h.

(** [h] runs and then exits with code 0, at instant [T] at the latest. *)
Definition exits_zero (w : World) (h : handle) (T : nat) : Prop :=
  throughout (fun _ => True) (fun s => s = None \/ s = Some 0%Z) w h /\
  throughout (fun t => T <= t) (fun s => s = Some 0%Z) w h.

(** [w'] is a later world than [w]: time has passed, a cached exit code
    stays cached, and a status that differs from the one [w] predicted is
    a terminal status that was observable in between (and has been cached
    since). *)
Definition evolves (w w' : World) : Prop :=
  now w <= now w' /\
  (forall h c, returncode (objs w h) = Some c ->
               returncode (objs w' h) = Some c) /\
  forall h t,
    status w' h t = status w h t \/
    exists t' c, now w <= t' < now w' /\
                 status w h t' = Some c /\ status w' h t = Some c.

(** The log entries of status queries of [hs] answering [rs]. *)
Definition polls (hs : list handle) (rs : list (option Z)) : list event :=
  zip_with EvPoll hs rs.

(** [ev] is a status query of handle [h]. *)
Definition is_poll_of (h : handle) (ev : event) : Prop :=
  exists r, ev = EvPoll h r.

(** In [evs], a status query of a handle that answered 0 is the last query
    of that handle. *)
Definition captured_once (evs : list event) : Prop :=
  forall l1 l2 h,
    evs = l1 ++ EvPoll h (Some 0%Z) :: l2 ->
    Forall (fun ev => ~ is_poll_of h ev) l2.

(** [r] is an answer the store [w] could give for [h] between [w] and the
    later world [w']. *)
Definition observed (w w' : World) (h : handle) (r : option Z) : Prop :=
  exists t, now w <= t < now w' /\ status w h t = r.

(** The log of complete sweeps over [procs] answering [rss], each followed
    by what the loop does before the next sweep ([gap]). *)
Definition sweeps (gap : list event) (procs : list handle)
    (rss : list (list (option Z))) : list event :=
  concat (map (fun rs => polls procs rs ++ gap) rss).

(** All answers differ from 0, one per handle. *)
Definition quiet_answers (procs : list handle) (rs : list (option Z)) : Prop :=
  length rs = length procs /\ Forall (fun r => r <> Some 0%Z) rs.

(** The handles a group contributes to a polling cycle of
    [subprocess_wait_multi]: none when the group is [None] or empty. *)
Definition members (procs : option pylist) : list handle :=
  match procs with
  | Some l => items l
  | None => []
  end.

(** Position [k] of the cycle (group 1 first, then group 2) is position [i]
    of the list object [g]. *)
Definition located (procs1 procs2 : option pylist) (k : nat)
    (g : pylist) (i : nat) : Prop :=
  (procs1 = Some g /\ k < length (members procs1) /\ i = k) \/
  (procs2 = Some g /\ length (members procs1) <= k /\
   i = k - length (members procs1)).

(** ** Sample worlds *)

(** A [Popen] object for process [p] that has not been queried yet and has
    no pipes attached. *)
Definition plain_popen (p : nat) : Popen :=
  {| pid := p; returncode := None;
     stdin := None; stdout := None; stderr := None |}.

Definition no_fault : syscall -> nat -> option exn := fun _ _ => None.

(** A world at instant 0 in which handle [p] is the object of process [p],
    nothing has been logged and no file is open. *)
Definition sample_world (hst : nat -> nat -> option Z)
    (flt : syscall -> nat -> option exn) : World :=
  {| host := hst; fault := flt; now := 0; objs := plain_popen;
     fresh := 100; files := []; children := []; log := [] |}.

(** Process [p] exits with code 0 at instant [2 * p]. *)
Definition staggered : nat -> nat -> option Z :=
  fun p t => if t <? 2 * p then None else Some 0%Z.

(** Processes 2 and 5 have exited with code 0, the others are running. *)
Definition two_and_five : nat -> nat -> option Z :=
  fun p _ => if (p =? 2) || (p =? 5) then Some 0%Z else None.

(** Process 0 has exited with code 3, every other process runs on. *)
Definition zero_failed : nat -> nat -> option Z :=
  fun p _ => if p =? 0 then Some 3%Z else None.

(** Every process has exited with code 1. *)
Definition all_failed : nat -> nat -> option Z :=
  fun _ _ => Some 1%Z.

(** Process 2 has exited with code 0, the others are running. *)
Definition only_two : nat -> nat -> option Z :=
  fun p _ => if p =? 2 then Some 0%Z else None.

(** Every process is still running at instant 0 and has exited with code 0
    from instant 1 on. *)
Definition late_zero : nat -> nat -> option Z :=
  fun _ t => if t <? 1 then None else Some 0%Z.

(** Spawning fails with [ENOENT] and closing a file fails with [EIO]. *)
Definition spawn_and_close_fail : syscall -> nat -> option exn :=
  fun k _ =>
    match k with
    | SysSpawn => Some (OSError 2)
    | SysClose => Some (OSError 5)
    | _ => None
    end.

(** Only spawning fails. *)
Definition spawn_fails : syscall -> nat -> option exn :=
  fun k _ =>
    match k with
    | SysSpawn => Some (OSError 2)
    | _ => None
    end.

(** Processes 2 and 5 run until instant 7 and have exited with code 0 from
    then on; the others keep running. *)
Definition two_and_five_at_7 : nat -> nat -> option Z :=
  fun p t =>
    if ((p =? 2) || (p =? 5)) && (7 <=? t) then Some 0%Z else None.

(** Process 2 runs until instant 4 and has exited with code 0 from then on;
    the others keep running. *)
Definition two_at_4 : nat -> nat -> option Z :=
  fun p t => if (p =? 2) && (4 <=? t) then Some 0%Z else None.

(** ** subprocess_attach_stdin *)

Definition subprocess_attach_stdin (cmd : string) (shell : bool)
  : M World handle :=
  Popen_new
    {| a_cmd := cmd; a_shell := shell; a_cwd := None; a_env := None;
       a_stdin := PIPE; a_stdout := NoRedirect; a_stderr := NoRedirect |}.

(** Every process runs until instant [T] and has exited with code [c] from
    then on. *)
Definition exits_at (T : nat) (c : Z) : nat -> nat -> option Z :=
  fun _ t => if t <? T then None else Some c.

(** ** Configuration values and merge_dict *)

(** The Python values a configuration holds.  Values are immutable terms
    here, so [copy.deepcopy] of a value is the value itself. *)
#[warnings="-register-all"] Inductive pyval :=
| VNone
| VBool (b : bool)
| VInt (z : Z)
| VStr (s : string)
| VList (l : list pyval)
| VDict (kvs : list (string * pyval)).

(** [isinstance(v, dict)]. *)
Definition is_dict (v : pyval) : bool :=
  match v with
  | VDict _ => true
  | _ => false
  end.

(** A [dict] with string keys, as the list of its items in insertion
    order.  [d[k]] and [k in d]: *)
Fixpoint dict_get {A} (k : string) (kvs : list (string * A)) : option A :=
  match kvs with
  | [] => None
  | (k', v) :: rest => if String.eqb k k' then Some v else dict_get k rest
  end.

(** [d[k] = v]: an existing key keeps its place, a new key goes last. *)
Fixpoint dict_set {A} (k : string) (v : A) (kvs : list (string * A))
  : list (string * A) :=
  match kvs with
  | [] => [(k, v)]
  | (k', v') :: rest =>
      if String.eqb k k' then (k, v) :: rest
      else (k', v') :: dict_set k v rest
  end.

(** [list(d.keys())]. *)
Definition dict_keys {A} (kvs : list (string * A)) : list string :=
  map fst kvs.

(** The loop [for k, v in dict2.items(): ...] of [merge_dict] over the
    items still to visit, [merge] being the recursive call. *)
Fixpoint merge_items (merge : pyval -> pyval -> outcome pyval)
    (its result : list (string * pyval)) : outcome (list (string * pyval)) :=
  match its with
  | [] => Returns result
  | (k, v) :: rest =>
      match dict_get k result with
      | Some (VDict sub) =>
          match merge (VDict sub) v with
          | Returns m => merge_items merge rest (dict_set k m result)
          | Raises e => Raises e
          | Spins => Spins
          end
      | _ => merge_items merge rest (dict_set k v result)
      end
  end.

Fixpoint merge_dict (dict1 dict2 : pyval) {struct dict2} : outcome pyval :=
  match dict1, dict2 with
  | VDict kvs1, VDict kvs2 =>
      match merge_items merge_dict kvs2 kvs1 with
      | Returns result => Returns (VDict result)
      | Raises e => Raises e
      | Spins => Spins
      end
  | _, _ => Raises (ValueError "dict1 or dict2 is not a dictionary")
  end.

(** A value is well formed when every dictionary in it, at any depth
    below dictionaries, has pairwise distinct keys. *)
Fixpoint well_formed (v : pyval) : bool :=
  match v with
  | VDict kvs =>
      bool_decide (NoDup (map fst kvs)) &&
      forallb (fun kv => well_formed (snd kv)) kvs
  | _ => true
  end.

(** Sample configurations. *)
Definition sample_config : pyval :=
  VDict [("pool", VDict [("id", VStr "a"); ("size", VInt 2)]);
          ("debug", VBool false)].

Definition sample_override : pyval :=
  VDict [("pool", VDict [("size", VInt 4); ("vm", VStr "d2")]);
          ("tags", VList [VStr "x"])].

(** ** Errors of the remaining helpers *)

(** Exceptions the helpers below can raise, besides those of [exn]. *)
Inductive error :=
| Std (e : exn)
| KeyError (key : string)
| EOFError
| IOError
| CodecError (encoding : string).

(** The result of a call that either returns or raises. *)
Inductive answer (A : Type) :=
| Ok (a : A)
| Fail (e : error).
Arguments Ok {A} a.
Arguments Fail {A} e.

(** ** is_none_or_empty, is_not_empty *)

(** [obj] is [None] or something with a length. *)
Definition is_none_or_empty {A} (obj : option (list A)) : bool :=
  match obj with
  | None => true
  | Some l => if length l =? 0 then true else false
  end.

Definition is_not_empty {A} (obj : option (list A)) : bool :=
  match obj with
  | None => false
  | Some l => if 0 <? length l then true else false
  end.

(** ** get_input, confirm_action *)

(** The terminal: the lines the user is going to type, and the prompts
    written so far. *)
Record Console := mkConsole {
  pending : list string;
  shown : list string
}.

(** [raw_input(prompt)]: writes the prompt and reads a line; raises
    [EOFError] at end of input. *)
Definition get_input (prompt : string) (c : Console)
  : answer string * Console :=
  match pending c with
  | [] => (Fail EOFError, {| pending := []; shown := shown c ++ [prompt] |})
  | line :: rest =>
      (Ok line, {| pending := rest; shown := shown c ++ [prompt] |})
  end.

(** [str.lower()] on text made of ASCII characters: the letters [A]-[Z]
    become [a]-[z], every other character is kept. *)
Definition lower_char (ch : Ascii.ascii) : Ascii.ascii :=
  let n := Ascii.nat_of_ascii ch in
  if (65 <=? n) && (n <=? 90) then Ascii.ascii_of_nat (n + 32) else ch.

Fixpoint lower (s : string) : string :=
  match s with
  | EmptyString => EmptyString
  | String ch rest => String (lower_char ch) (lower rest)
  end.

(** [x in (a, b, ...)] for strings. *)
Definition in_strings (x : string) (l : list string) : bool :=
  existsb (String.eqb x) l.

(** Truth value of a configuration value. *)
Definition truthy (v : pyval) : bool :=
  match v with
  | VNone => false
  | VBool b => b
  | VInt z => negb (z =? 0)%Z
  | VStr s => negb (String.eqb s "")
  | VList l => negb (length l =? 0)
  | VDict kvs => negb (length kvs =? 0)
  end.

(** The loop [while True: user = get_input(...).lower(); if user in (...):
    break]: it ends with the first line that is an answer, or with the
    [EOFError] of [raw_input] when the input runs out. *)
Fixpoint ask (prompt : string) (lines : list string) (out : list string)
  : answer string * Console :=
  match lines with
  | [] => (Fail EOFError, {| pending := []; shown := out ++ [prompt] |})
  | line :: rest =>
      let user := lower line in
      if in_strings user ["y"; "yes"; "n"; "no"]%string
      then (Ok user, {| pending := rest; shown := out ++ [prompt] |})
      else ask prompt rest (out ++ [prompt])
  end.

Definition confirm_prompt (msg : option string) : string :=
  ("Confirm " ++ match msg with Some m => m | None => "action" end
   ++ " [y/n]: ")%string.

Definition confirm_action (config : list (string * pyval))
    (msg : option string) (allow_auto : bool) (c : Console)
  : answer bool * Console :=
  let interactive :=
    match ask (confirm_prompt msg) (pending c) (shown c) with
    | (Ok user, c') => (Ok (in_strings user ["y"; "yes"]%string), c')
    | (Fail e, c') => (Fail e, c')
    end in
  if allow_auto then
    match dict_get "_auto_confirm" config with
    | None => (Fail (KeyError "_auto_confirm"), c)
    | Some v => if truthy v then (Ok true, c) else interactive
    end
  else interactive.

(** ** decode_string, encode_string *)

(** What the two functions are given: a [bytes] object, a [str] object,
    or an object of another type (of which only the type's name
    matters). *)
Inductive pystring :=
| PyBytes (b : list Byte.byte)
| PyStr (s : string)
| PyOther (type_name : string).

Section Codecs.

(** [s.encode(encoding)] and [b.decode(encoding)] of the Python
    library; they fail for an unknown encoding or for data the codec
    does not accept. *)
Variable str_encode : string -> string -> answer (list Byte.byte).
Variable bytes_decode : list Byte.byte -> string -> answer string.

Definition decode_string (s : pystring) (encoding : option string)
  : answer pystring :=
  match s with
  | PyBytes b =>
      let encoding := match encoding with None => "utf8"%string | Some e => e end in
      match bytes_decode b encoding with
      | Ok t => Ok (PyStr t)
      | Fail e => Fail e
      end
  | PyStr t => Ok (PyStr t)
  | PyOther ty =>
      Fail (Std (ValueError ("invalid string type: " ++ ty)))
  end.

Definition encode_string (s : pystring) (encoding : option string)
  : answer pystring :=
  match s with
  | PyBytes b => Ok (PyBytes b)
  | PyStr t =>
      let encoding := match encoding with None => "utf8"%string | Some e => e end in
      match str_encode t encoding with
      | Ok b => Ok (PyBytes b)
      | Fail e => Fail e
      end
  | PyOther ty =>
      Fail (Std (ValueError ("invalid string type: " ++ ty)))
  end.

End Codecs.

(** A codec for witnesses: text is kept byte for byte, under any name. *)
Definition raw_encode (s : string) (_ : string) : answer (list Byte.byte) :=
  Ok (String.list_byte_of_string s).
Definition raw_decode (b : list Byte.byte) (_ : string) : answer string :=
  Ok (String.string_of_list_byte b).

(** ** compute_md5_for_file *)

(** [filedesc.read(n)] on the unread part of a file: everything for a
    negative [n], otherwise at most [n] bytes; the second component is
    what stays unread. *)
Definition file_read (n : Z) (unread : list Byte.byte)
  : list Byte.byte * list Byte.byte :=
  if (n <? 0)%Z then (unread, [])
  else (take (Z.to_nat n) unread, drop (Z.to_nat n) unread).

Section Hashing.

(** The MD5 digest of a byte string, its hexadecimal rendering and
    [base64.b64encode], all of the Python library.  A [hashlib] hasher
    is represented by the bytes it has been fed: [update] appends, and
    the digest is that of the concatenation. *)
Variable md5 : list Byte.byte -> list Byte.byte.
Variable hex : list Byte.byte -> string.
Variable b64encode : list Byte.byte -> list Byte.byte.

(** [base64_encode_string]: the same characters on both Python
    versions. *)
Definition base64_encode_string (py2 : bool) (s : list Byte.byte) : string :=
  if py2 then String.string_of_list_byte (b64encode s)
  else String.string_of_list_byte (b64encode s).

(** The loop [while True: buf = filedesc.read(blocksize); if not buf:
    break; hasher.update(buf)]; [fuel] bounds the number of reads. *)
Fixpoint md5_loop (blocksize : Z) (fuel : nat)
    (unread hasher : list Byte.byte) : outcome (list Byte.byte) :=
  match fuel with
  | O => Spins
  | S fuel' =>
      match file_read blocksize unread with
      | ([], _) => Returns hasher
      | (buf, unread') => md5_loop blocksize fuel' unread' (hasher ++ buf)
      end
  end.

(** [file] is the content of the file, or [None] when it cannot be
    opened. *)
Definition compute_md5_for_file (py2 : bool) (file : option (list Byte.byte))
    (as_base64 : bool) (blocksize : Z) (fuel : nat) : outcome string :=
  match file with
  | None => Raises (OSError 2)
  | Some content =>
      match md5_loop blocksize fuel content [] with
      | Returns fed =>
          if as_base64 then Returns (base64_encode_string py2 (md5 fed))
          else Returns (hex (md5 fed))
      | Raises e => Raises e
      | Spins => Spins
      end
  end.

End Hashing.

(** ** scantree *)

(** A directory tree with symbolic links resolved: a node is a directory
    with named entries, or anything else. *)
#[warnings="-register-all"] Inductive fsnode :=
| FsFile
| FsDir (entries : list (string * fsnode)).

Record DirEntry := mkEntry {
  entry_name : string;
  entry_path : string;
  entry_is_dir : bool
}.

(** [os.path.join(path, name)] for a relative [name]. *)
Definition path_join (path name : string) : string :=
  if String.eqb path "" then name
  else if String.eqb (String.substring (String.length path - 1) 1 path) "/"
       then (path ++ name)%string
       else (path ++ "/" ++ name)%string.

(** What iterating [scantree(path)] gives when [path] is [node]: the
    entries yielded, in order, or the error of [scandir] on something
    that is not a directory (ENOTDIR).  [scandir] lists the entries of a
    directory in the order of the tree; every directory is readable. *)
Fixpoint scantree (path : string) (node : fsnode) : outcome (list DirEntry) :=
  match node with
  | FsFile => Raises (OSError 20)
  | FsDir entries =>
      (fix each (es : list (string * fsnode)) : outcome (list DirEntry) :=
         match es with
         | [] => Returns []
         | (name, child) :: rest =>
             match
               match child with
               | FsDir _ => scantree (path_join path name) child
               | FsFile =>
                   Returns [{| entry_name := name;
                               entry_path := path_join path name;
                               entry_is_dir := false |}]
               end
             with
             | Returns yielded =>
                 match each rest with
                 | Returns more => Returns (yielded ++ more)
                 | Raises e => Raises e
                 | Spins => Spins
                 end
             | Raises e => Raises e
             | Spins => Spins
             end
         end) entries
  end.



(** ** wrap_commands_in_shell *)

(** [sep.join(l)]. *)
Fixpoint str_join (sep : string) (l : list string) : string :=
  match l with
  | [] => ""
  | [x] => x
  | x :: rest => (x ++ sep ++ str_join sep rest)%string
  end.

Definition wrap_commands_in_shell (commands : list string) (wait : bool)
  : string :=
  ("/bin/bash -c 'set -e; set -o pipefail; "
   ++ str_join "; " commands ++ (if wait then "; wait" else "") ++ "'")%string.

(** The number of occurrences of a character in a string. *)
Fixpoint count_char (ch : Ascii.ascii) (s : string) : nat :=
  match s with
  | EmptyString => 0
  | String x rest => (if Ascii.eqb x ch then 1 else 0) + count_char ch rest
  end.

(** The character ['] (code 39). *)
Definition single_quote : Ascii.ascii := Ascii.ascii_of_nat 39.
(** * Properties *)

(** ** The monad *)

Lemma bind_returns {S A B} (m : M S A) (k : A -> M S B) s a s' :
  m s = (Returns a, s') -> bind m k s = k a s'.
Proof. intros H. unfold bind. now rewrite H. Qed.

Lemma bind_inv_returns {S A B} (m : M S A) (k : A -> M S B) s b s2 :
  bind m k s = (Returns b, s2) ->
  exists a s1, m s = (Returns a, s1) /\ k a s1 = (Returns b, s2).
Proof.
  unfold bind. destruct (m s) as [[a|e|] s1]; intros H; try discriminate.
  eauto.
Qed.

(** ** Status queries *)

Lemma now_polled h w : now (polled h w) = S (now w).
Proof. reflexivity. Qed.

Lemma log_polled h w :
  log (polled h w) = log w ++ [EvPoll h (status w h (now w))].
Proof. reflexivity. Qed.

Lemma host_polled h w : host (polled h w) = host w.
Proof. reflexivity. Qed.

Lemma objs_polled_same h w :
  objs (polled h w) h = set_returncode (status w h (now w)) (objs w h).
Proof. unfold polled, tick, set_obj; simpl. apply fn_lookup_insert. Qed.

Lemma objs_polled_other h h' w :
  h <> h' -> objs (polled h w) h' = objs w h'.
Proof. intros Hne. unfold polled, tick, set_obj; simpl. now apply fn_lookup_insert_ne. Qed.

Lemma returncode_polled h w :
  returncode (objs (polled h w) h) = status w h (now w).
Proof. now rewrite objs_polled_same. Qed.

Lemma status_polled_other h h' w t :
  h <> h' -> status (polled h w) h' t = status w h' t.
Proof.
  intros Hne. unfold status. rewrite objs_polled_other by done.
  now rewrite host_polled.
Qed.

Lemma status_polled_same h w t :
  status (polled h w) h t =
  match status w h (now w) with
  | Some c => Some c
  | None => status w h t
  end.
Proof.
  unfold status at 1. rewrite objs_polled_same, host_polled. simpl.
  destruct (status w h (now w)) as [c|] eqn:E; [done|].
  unfold status in *. destruct (returncode (objs w h)); [discriminate|done].
Qed.

(** A cached exit code is what every later query answers. *)
Lemma status_cached w h c t :
  returncode (objs w h) = Some c -> status w h t = Some c.
Proof. intros H. unfold status. now rewrite H. Qed.

(** ** Later worlds *)

Lemma evolves_refl w : evolves w w.
Proof. split_and!; [lia|done|]. intros; now left. Qed.

Lemma evolves_trans w1 w2 w3 : evolves w1 w2 -> evolves w2 w3 -> evolves w1 w3.
Proof.
  intros (Hn1 & Hc1 & H1) (Hn2 & Hc2 & H2). split_and!; [lia|eauto|].
  intros h t.
  destruct (H2 h t) as [E2|(t2 & c & Ht2 & Ec & E2)].
  - rewrite E2. destruct (H1 h t) as [E1|(t1 & c & Ht1 & Ec & E1)]; [now left|].
    right. exists t1, c. split_and!; try lia; done.
  - destruct (H1 h t2) as [E1|(t1 & c1 & Ht1 & Ec1 & E1)].
    + right. exists t2, c. split_and!; try lia; congruence.
    + right. exists t1, c1. split_and!; try lia; congruence.
Qed.

Lemma evolves_polled h w : evolves w (polled h w).
Proof.
  split_and!; [rewrite now_polled; lia| |].
  - intros h' c Hc. destruct (decide (h = h')) as [<-|Hne].
    + rewrite returncode_polled. now apply status_cached.
    + now rewrite objs_polled_other.
  - intros h' t. destruct (decide (h = h')) as [<-|Hne].
    + rewrite status_polled_same.
      destruct (status w h (now w)) as [c|] eqn:E; [|now left].
      right. exists (now w), c. rewrite now_polled. split_and!; try lia; done.
    + left. now apply status_polled_other.
Qed.

Lemma evolves_sleep w : evolves w (tick EvSleep w).
Proof. split_and!; [simpl; lia|done|]. intros; now left. Qed.

Lemma throughout_evolves T Q w w' h :
  evolves w w' ->
  (forall t, now w <= t < now w' -> T t) ->
  throughout T Q w h -> throughout T Q w' h.
Proof.
  intros (_ & _ & Hev) HT H t Ht.
  destruct (Hev h t) as [E|(t' & c & Ht' & Ec & E)].
  - rewrite E. now apply H.
  - rewrite E, <- Ec. apply H. now apply HT.
Qed.

Lemma never_zero_evolves w w' h :
  evolves w w' -> never_zero w h -> never_zero w' h.
Proof. intros Hev. now apply throughout_evolves. Qed.

Lemma exits_zero_evolves w w' h T :
  evolves w w' -> exits_zero w h T -> exits_zero w' h T.
Proof.
  intros Hev [Hall Hlate]. split.
  - now apply (throughout_evolves _ _ w).
  - intros t Ht. destruct Hev as (_ & _ & Hev).
    destruct (Hev h t) as [E|(t' & c & Ht' & Ec & E)].
    + rewrite E. now apply Hlate.
    + rewrite E. destruct (Hall t' I) as [E'|E']; congruence.
Qed.


Lemma eq0_true r : eq0 r = true <-> r = Some 0%Z.
Proof.
  destruct r as [c|]; simpl; [|split; discriminate].
  rewrite Z.eqb_eq. split; congruence.
Qed.

Lemma eq0_false r : eq0 r = false <-> r <> Some 0%Z.
Proof.
  rewrite <- eq0_true. destruct (eq0 r); split; congruence.
Qed.

Lemma observed_polled h w :
  observed w (polled h w) h (status w h (now w)).
Proof. exists (now w). rewrite now_polled. split; [lia|done]. Qed.

Lemma observed_evolves w w1 w' h r :
  evolves w w1 -> now w1 <= now w' ->
  observed w1 w' h r -> observed w w' h r.
Proof.
  intros (Hn & _ & Hev) Hle (t & Ht & E).
  destruct (Hev h t) as [E1|(t' & c & Ht' & Ec & E1)].
  - exists t. split; [lia|congruence].
  - exists t'. split; [lia|congruence].
Qed.

Lemma observed_later w w1 w' h r :
  now w1 <= now w' -> observed w w1 h r -> observed w w' h r.
Proof. intros Hle (t & Ht & E). exists t. split; [lia|done]. Qed.

Lemma observed_throughout T Q w w' h r :
  throughout T Q w h ->
  (forall t, now w <= t < now w' -> T t) ->
  observed w w' h r -> Q r.
Proof. intros H HT (t & Ht & <-). apply H. now apply HT. Qed.

(** ** One sweep of [subprocess_wait_any] *)

Lemma any_scan_S procs i n w h :
  procs !! i = Some h ->
  any_scan procs i (S n) w =
  if eq0 (status w h (now w))
  then (Returns (Some (i, status w h (now w))), polled h w)
  else any_scan procs (S i) n (polled h w).
Proof.
  intros Hh. simpl. rewrite Hh. unfold bind at 1, poll.
  destruct (eq0 (status w h (now w))); [|done].
  unfold bind, get_returncode, ret. now rewrite returncode_polled.
Qed.

(** What a sweep over positions [i, i+n) does: it queries the handles in
    ascending order, and either every answer differs from 0 and the sweep
    falls through, or it stops at the first position answering 0 and
    returns that position with the handle's [returncode], which is 0. *)
Lemma any_scan_spec procs n : forall i w,
  i + n <= length procs ->
  exists w' rs,
    evolves w w' /\
    Forall (fun r => r <> Some 0%Z) rs /\
    Forall2 (observed w w') (take (length rs) (drop i procs)) rs /\
    ((any_scan procs i n w = (Returns None, w') /\
      length rs = n /\ now w' = now w + n /\
      log w' = log w ++ polls (take n (drop i procs)) rs)
     \/
     (exists h,
        any_scan procs i n w = (Returns (Some (i + length rs, Some 0%Z)), w') /\
        length rs < n /\ procs !! (i + length rs) = Some h /\
        observed w w' h (Some 0%Z) /\
        returncode (objs w' h) = Some 0%Z /\
        now w' = now w + length rs + 1 /\
        log w' = log w ++ polls (take (length rs) (drop i procs)) rs
                       ++ [EvPoll h (Some 0%Z)])).
Proof.
  induction n as [|n IH]; intros i w Hlen.
  - exists w, []. split; [apply evolves_refl|]. split; [constructor|].
    split; [constructor|]. left. simpl. unfold ret.
    repeat split; try lia. now rewrite app_nil_r.
  - destruct (lookup_lt_is_Some_2 procs i) as [h Hh]; [lia|].
    rewrite (any_scan_S _ _ _ _ _ Hh).
    destruct (eq0 (status w h (now w))) eqn:E0.
    + apply eq0_true in E0.
      exists (polled h w), []. split; [apply evolves_polled|].
      split; [constructor|]. split; [constructor|]. right. exists h.
      simpl length. rewrite Nat.add_0_r, returncode_polled, E0.
      repeat split; try lia; try done.
      * rewrite <- E0. apply observed_polled.
      * rewrite now_polled. lia.
      * now rewrite log_polled, E0.
    + apply eq0_false in E0.
      destruct (IH (S i) (polled h w)) as (w' & rs & Hev & Hnz & Hobs & Hcase);
        [lia|].
      assert (Hev' : evolves w w')
        by (eapply evolves_trans; [apply evolves_polled|done]).
      assert (Hnow : S (now w) <= now w')
        by (destruct Hev as [Hn _]; now rewrite now_polled in Hn).
      exists w', (status w h (now w) :: rs).
      split; [done|]. split; [now constructor|].
      assert (Hdrop : drop i procs = h :: drop (S i) procs)
        by now apply drop_S.
      split.
      { simpl length. rewrite Hdrop. simpl. constructor.
        - eapply observed_later; [|apply observed_polled].
          now rewrite now_polled.
        - eapply Forall2_impl; [apply Hobs|]. intros h' r' Ho.
          eapply observed_evolves; [apply evolves_polled| |done].
          now rewrite now_polled. }
      destruct Hcase as [(Hrun & Hl & Hn & Hlog)|(h' & Hrun & Hl & Hk & Ho & Hrc & Hn & Hlog)].
      * left. rewrite Hrun. rewrite now_polled in Hn. simpl length.
        repeat split; try lia.
        rewrite Hlog, log_polled, Hdrop. simpl.
        now rewrite <- app_assoc.
      * right. exists h'. simpl length.
        replace (i + S (length rs)) with (S i + length rs) by lia.
        rewrite Hrun. rewrite now_polled in Hn.
        repeat split; try lia; try done.
        -- eapply observed_evolves; [apply evolves_polled| |done].
           now rewrite now_polled.
        -- rewrite Hlog, log_polled, Hdrop. simpl.
           now rewrite <- app_assoc.
Qed.

Lemma throughout_running w w' h :
  evolves w w' ->
  throughout (window (now w) (now w')) (fun s => s = None) w h ->
  forall t, status w' h t = status w h t.
Proof.
  intros (_ & _ & Hev) Hrun t.
  destruct (Hev h t) as [E|(t' & c & Ht' & Ec & E)]; [done|].
  rewrite (Hrun t') in Ec; [discriminate|done].
Qed.

Lemma throughout_same T Q w w' h :
  (forall t, status w' h t = status w h t) ->
  throughout T Q w h -> throughout T Q w' h.
Proof. intros E H t Ht. rewrite E. now apply H. Qed.

Lemma throughout_weaken (T T' : nat -> Prop) (Q Q' : option Z -> Prop) w h :
  (forall t, T' t -> T t) -> (forall s, Q s -> Q' s) ->
  throughout T Q w h -> throughout T' Q' w h.
Proof. intros HT HQ H t Ht. apply HQ, H, HT, Ht. Qed.

(** A sweep over handles none of which shows 0 during the sweep falls
    through after querying every handle once. *)
Lemma any_scan_quiet procs n i w :
  i + n <= length procs ->
  (forall j h, i <= j < i + n -> procs !! j = Some h ->
     throughout (window (now w) (now w + n)) (fun s => s <> Some 0%Z) w h) ->
  exists w' rs,
    any_scan procs i n w = (Returns None, w') /\
    evolves w w' /\ now w' = now w + n /\
    length rs = n /\ Forall (fun r => r <> Some 0%Z) rs /\
    log w' = log w ++ polls (take n (drop i procs)) rs.
Proof.
  intros Hlen Hq.
  destruct (any_scan_spec procs n i w Hlen) as (w' & rs & Hev & Hnz & Hobs & Hcase).
  destruct Hcase as [(Hrun & Hl & Hn & Hlog)|(h & Hrun & Hl & Hk & Ho & Hrc & Hn & Hlog)].
  - exists w', rs. by split_and!.
  - exfalso.
    refine (observed_throughout _ (fun s => s <> Some 0%Z) w w' h _ _ _ Ho eq_refl).
    + apply (Hq (i + length rs)); [lia|done].
    + unfold window. intros t Ht. lia.
Qed.

(** A sweep stops at the first position whose handle shows 0, whatever the
    handles at higher positions show. *)
Lemma any_scan_first procs n i k h w :
  i + n <= length procs -> i <= k < i + n ->
  procs !! k = Some h ->
  throughout (window (now w) (now w + n)) (fun s => s = Some 0%Z) w h ->
  (forall j hj, i <= j < k -> procs !! j = Some hj ->
     throughout (window (now w) (now w + n)) (fun s => s <> Some 0%Z) w hj) ->
  exists w' rs,
    any_scan procs i n w = (Returns (Some (k, Some 0%Z)), w') /\
    evolves w w' /\ now w' = now w + (k - i) + 1 /\
    returncode (objs w' h) = Some 0%Z /\
    length rs = k - i /\ Forall (fun r => r <> Some 0%Z) rs /\
    log w' = log w ++ polls (take (k - i) (drop i procs)) rs
                   ++ [EvPoll h (Some 0%Z)].
Proof.
  intros Hlen Hk Hh Hz Hq.
  destruct (any_scan_spec procs n i w Hlen) as (w' & rs & Hev & Hnz & Hobs & Hcase).
  assert (Hwin : forall t, now w <= t < now w' -> now w' <= now w + n ->
                           window (now w) (now w + n) t)
    by (unfold window; intros; lia).
  (* the answer given for position [k], if it was queried *)
  assert (Hat : k - i < length rs -> False).
  { intros Hlt.
    destruct (lookup_lt_is_Some_2 rs (k - i) Hlt) as [r Hr].
    assert (Hin : take (length rs) (drop i procs) !! (k - i) = Some h).
    { rewrite lookup_take_lt by done. rewrite lookup_drop.
      now replace (i + (k - i)) with k by lia. }
    pose proof (Forall2_lookup_lr _ _ _ _ _ _ Hobs Hin Hr) as Ho.
    assert (r = Some 0%Z).
    { eapply (observed_throughout _ (fun s => s = Some 0%Z) w w' h r); [exact Hz| |exact Ho].
      intros t Ht. apply Hwin; [done|].
      destruct Hcase as [(_ & _ & Hn & _)|(h' & _ & Hl & _ & _ & _ & Hn & _)]; lia. }
    subst r. eapply Forall_lookup_1 in Hnz; [|exact Hr]. done. }
  destruct Hcase as [(Hrun & Hl & Hn & Hlog)|(h' & Hrun & Hl & Hk' & Ho & Hrc & Hn & Hlog)].
  - exfalso. apply Hat. lia.
  - destruct (decide (i + length rs = k)) as [Ek|Hne].
    + assert (h' = h) by congruence. subst h'.
      exists w', rs. rewrite Hrun, Ek.
      replace (k - i) with (length rs) by lia.
      split_and!; try done; lia.
    + destruct (decide (i + length rs < k)) as [Hlt|Hge].
      * exfalso.
        refine (observed_throughout _ (fun s => s <> Some 0%Z) w w' h' _ _ _ Ho eq_refl).
        -- apply (Hq (i + length rs)); [lia|done].
        -- intros t Ht. apply Hwin; [done|lia].
      * exfalso. apply Hat. lia.
Qed.

(** ** The loop of [subprocess_wait_any] *)

Lemma sweeps_cons gap procs rs rss :
  sweeps gap procs (rs :: rss) = polls procs rs ++ gap ++ sweeps gap procs rss.
Proof. unfold sweeps. simpl. now rewrite <- app_assoc. Qed.

Lemma any_loop_S procs fuel w :
  any_loop procs (S fuel) w =
  match any_scan procs 0 (length procs) w with
  | (Returns (Some res), w') => (Returns res, w')
  | (Returns None, w') => any_loop procs fuel (tick EvSleep w')
  | (Raises e, w') => (Raises e, w')
  | (Spins, w') => (Spins, w')
  end.
Proof.
  simpl. unfold bind at 1.
  destruct (any_scan procs 0 (length procs) w) as [[[res|]|e|] w']; done.
Qed.

(** The loop either uses up its fuel on sweeps that found nothing, or
    returns from the first sweep in which some handle answered 0, with the
    lowest such position. It never raises. *)
Lemma any_loop_spec procs fuel : forall w,
  exists w' rss,
    evolves w w' /\ Forall (quiet_answers procs) rss /\
    ((any_loop procs fuel w = (Spins, w') /\ length rss = fuel /\
      log w' = log w ++ sweeps [EvSleep] procs rss)
     \/
     (exists rs h,
        any_loop procs fuel w = (Returns (length rs, Some 0%Z), w') /\
        length rss < fuel /\ procs !! length rs = Some h /\
        Forall (fun r => r <> Some 0%Z) rs /\
        returncode (objs w' h) = Some 0%Z /\
        log w' = log w ++ sweeps [EvSleep] procs rss
                       ++ polls (take (length rs) procs) rs
                       ++ [EvPoll h (Some 0%Z)])).
Proof.
  induction fuel as [|fuel IH]; intros w.
  - exists w, []. split; [apply evolves_refl|]. split; [constructor|].
    left. simpl. unfold spin. split_and!; try done. now rewrite app_nil_r.
  - rewrite any_loop_S.
    destruct (any_scan_spec procs (length procs) 0 w) as (w1 & rs & Hev & Hnz & _ & Hcase);
      [lia|].
    rewrite drop_0 in Hcase.
    destruct Hcase as [(Hrun & Hl & Hn & Hlog)|(h & Hrun & Hl & Hk & Ho & Hrc & Hn & Hlog)].
    + rewrite Hrun.
      destruct (IH (tick EvSleep w1)) as (w' & rss & Hev' & Hq & Hcase).
      assert (Hev2 : evolves w w').
      { eapply evolves_trans; [exact Hev|].
        eapply evolves_trans; [apply evolves_sleep|exact Hev']. }
      exists w', (rs :: rss). split; [done|].
      split; [constructor; [by split|done]|].
      rewrite take_ge in Hlog by lia.
      destruct Hcase as [(Hrun' & Hl' & Hlog')|(rs' & h & Hrun' & Hl' & Hk & Hnz' & Hrc & Hlog')].
      * left. split_and!; [done|simpl; lia|].
        rewrite Hlog'. simpl log. rewrite Hlog, sweeps_cons.
        now rewrite <- !app_assoc.
      * right. exists rs', h. split_and!; try done; [simpl; lia|].
        rewrite Hlog'. simpl log. rewrite Hlog, sweeps_cons.
        now rewrite <- !app_assoc.
    + rewrite Hrun. exists w1, []. split; [done|]. split; [constructor|].
      right. exists rs, h. simpl in *. split_and!; try done. lia.
Qed.

(** After [k] sweeps during which every handle is still running, the sweep
    that starts at instant [now w + k * (n + 1)] returns the lowest position
    whose handle shows 0 during that sweep. *)
Lemma any_loop_first procs k : forall w i h,
  procs !! i = Some h ->
  (forall h', h' ∈ procs ->
     throughout (window (now w) (now w + k * S (length procs)))
                (fun s => s = None) w h') ->
  throughout (window (now w + k * S (length procs))
                     (now w + k * S (length procs) + length procs))
             (fun s => s = Some 0%Z) w h ->
  (forall j hj, j < i -> procs !! j = Some hj ->
     throughout (window (now w + k * S (length procs))
                        (now w + k * S (length procs) + length procs))
                (fun s => s <> Some 0%Z) w hj) ->
  forall fuel, k < fuel ->
  exists w',
    any_loop procs fuel w = (Returns (i, Some 0%Z), w') /\
    evolves w w' /\
    now w' = now w + k * S (length procs) + i + 1 /\
    returncode (objs w' h) = Some 0%Z.
Proof.
  induction k as [|k IH]; intros w i h Hi Hrun Hz Hnz fuel Hfuel;
    (destruct fuel as [|fuel]; [lia|]); rewrite any_loop_S.
  - assert (Hlt : i < length procs) by (eapply lookup_lt_Some; eauto).
    simpl in Hz, Hnz. rewrite Nat.add_0_r in Hz, Hnz.
    destruct (any_scan_first procs (length procs) 0 i h w)
      as (w' & rs & Hscan & Hev & Hn & Hrc & _); try done; try lia.
    { intros j hj Hj. apply Hnz. lia. }
    rewrite Hscan. exists w'. split_and!; try done. simpl. lia.
  - set (n := length procs) in *.
    destruct (any_scan_quiet procs n 0 w) as (w1 & rs & Hscan & Hev & Hn & _);
      [lia| |].
    { intros j hj _ Hj.
      apply (throughout_weaken _ _ _ _ w hj) with (3 := Hrun hj (list_elem_of_lookup_2 _ _ _ Hj)).
      - unfold window. simpl. intros t Ht. lia.
      - simpl. intros s ->. done. }
    rewrite Hscan.
    set (w2 := tick EvSleep w1).
    assert (Hev2 : evolves w w2)
      by (eapply evolves_trans; [exact Hev|apply evolves_sleep]).
    assert (Hn2 : now w2 = now w + S n) by (simpl; lia).
    assert (Hs : now w2 + k * S n = now w + S k * S n) by (simpl; lia).
    assert (Hsame : forall h', h' ∈ procs -> forall t, status w2 h' t = status w h' t).
    { intros h' Hin. apply throughout_running; [done|].
      apply (throughout_weaken _ _ _ _ w h') with (3 := Hrun h' Hin); [|done].
      unfold window. simpl. intros t Ht. lia. }
    destruct (IH w2 i h Hi) with (fuel := fuel) as (w' & Hloop & Hev' & Hn' & Hrc).
    + intros h' Hin. apply (throughout_same _ _ w); [now apply Hsame|].
      apply (throughout_weaken _ _ _ _ w h') with (3 := Hrun h' Hin); [|done].
      unfold window. intros t Ht. lia.
    + rewrite Hs. apply (throughout_same _ _ w); [|done].
      apply Hsame. eapply list_elem_of_lookup_2; eauto.
    + intros j hj Hj Hhj. rewrite Hs. apply (throughout_same _ _ w); [|now apply (Hnz j)].
      apply Hsame. eapply list_elem_of_lookup_2; eauto.
    + lia.
    + exists w'. split_and!; try done.
      * eapply evolves_trans; eauto.
      * lia.
Qed.

(** ** One cycle of [subprocess_wait_multi] *)

Lemma any_scan_app_l A B n : forall i w,
  i + n <= length A -> any_scan (A ++ B) i n w = any_scan A i n w.
Proof.
  induction n as [|n IH]; intros i w Hlen; [done|].
  destruct (lookup_lt_is_Some_2 A i) as [h Hh]; [lia|].
  rewrite (any_scan_S A _ _ _ _ Hh).
  rewrite (any_scan_S (A ++ B) _ _ _ h) by (now apply lookup_app_l_Some).
  destruct (eq0 _); [done|]. apply IH. lia.
Qed.

Lemma any_scan_app_r A B n : forall i w,
  i + n <= length B ->
  any_scan (A ++ B) (length A + i) n w =
  match any_scan B i n w with
  | (Returns (Some (k, rc)), w') => (Returns (Some (length A + k, rc)), w')
  | r => r
  end.
Proof.
  induction n as [|n IH]; intros i w Hlen; [done|].
  destruct (lookup_lt_is_Some_2 B i) as [h Hh]; [lia|].
  rewrite (any_scan_S B _ _ _ _ Hh).
  rewrite (any_scan_S (A ++ B) _ _ _ h).
  2:{ rewrite lookup_app_r by lia. now replace (length A + i - length A) with i by lia. }
  destruct (eq0 _); [done|].
  replace (S (length A + i)) with (length A + S i) by lia. apply IH. lia.
Qed.

Lemma any_scan_split procs a b : forall i w,
  any_scan procs i (a + b) w =
  match any_scan procs i a w with
  | (Returns None, w1) => any_scan procs (i + a) b w1
  | r => r
  end.
Proof.
  induction a as [|a IH]; intros i w.
  - simpl. unfold ret. now rewrite Nat.add_0_r.
  - simpl. destruct (procs !! i) as [h|]; [|done].
    unfold bind at 1 3, poll.
    destruct (eq0 _); [done|].
    rewrite IH. now replace (S i + a) with (i + S a) by lia.
Qed.

(** A sweep over the concatenation of the two groups is a sweep over the
    first followed, if it finds nothing, by a sweep over the second. *)
Lemma any_scan_app A B w :
  any_scan (A ++ B) 0 (length A + length B) w =
  match any_scan A 0 (length A) w with
  | (Returns None, w1) =>
      match any_scan B 0 (length B) w1 with
      | (Returns (Some (k, rc)), w') => (Returns (Some (length A + k, rc)), w')
      | r => r
      end
  | r => r
  end.
Proof.
  rewrite any_scan_split, any_scan_app_l by lia.
  destruct (any_scan A 0 (length A) w) as [[[res|]|e|] w1]; try done.
  simpl. rewrite <- (Nat.add_0_r (length A)) at 1.
  now rewrite any_scan_app_r by lia.
Qed.

Lemma multi_scan_members procs w :
  multi_scan procs w =
  match any_scan (members procs) 0 (length (members procs)) w with
  | (Returns (Some (i, rc)), w') =>
      match procs with
      | Some l => (Returns (Some (l, i, rc)), w')
      | None => (Returns None, w')
      end
  | (Returns None, w') => (Returns None, w')
  | (Raises e, w') => (Raises e, w')
  | (Spins, w') => (Spins, w')
  end.
Proof.
  destruct procs as [l|]; simpl; [|done].
  destruct (items l) as [|h tl] eqn:E; [done|].
  change (0 <? length (h :: tl)) with true. cbv iota.
  unfold bind at 1.
  destruct (any_scan (h :: tl) 0 (length (h :: tl)) w) as [[[[i rc]|]|e|] w']; done.
Qed.

Lemma multi_loop_S procs1 procs2 fuel w :
  multi_loop procs1 procs2 (S fuel) w =
  match multi_scan procs1 w with
  | (Returns (Some res), w1) => (Returns res, w1)
  | (Returns None, w1) =>
      match multi_scan procs2 w1 with
      | (Returns (Some res), w2) => (Returns res, w2)
      | (Returns None, w2) => multi_loop procs1 procs2 fuel (tick EvSleep w2)
      | (Raises e, w2) => (Raises e, w2)
      | (Spins, w2) => (Spins, w2)
      end
  | (Raises e, w1) => (Raises e, w1)
  | (Spins, w1) => (Spins, w1)
  end.
Proof.
  simpl. unfold bind at 1.
  destruct (multi_scan procs1 w) as [[[res|]|e|] w1]; try done.
  unfold bind at 1.
  destruct (multi_scan procs2 w1) as [[[res|]|e|] w2]; done.
Qed.

(** A cycle in which the sweep over group 1 followed by group 2 finds
    nothing sleeps and goes on to the next cycle. *)
Lemma multi_cycle_miss procs1 procs2 fuel w w' :
  any_scan (members procs1 ++ members procs2) 0
           (length (members procs1) + length (members procs2)) w
    = (Returns None, w') ->
  multi_loop procs1 procs2 (S fuel) w
    = multi_loop procs1 procs2 fuel (tick EvSleep w').
Proof.
  rewrite any_scan_app, multi_loop_S, !multi_scan_members.
  destruct (any_scan (members procs1) _ _ w) as [[[[i rc]|]|e|] w1]; try done.
  rewrite multi_scan_members.
  destruct (any_scan (members procs2) _ _ w1) as [[[[i rc]|]|e|] w2]; try done.
  now intros [= ->].
Qed.

(** A cycle in which that sweep stops at position [k] returns the list
    object holding position [k] and the position within it. *)
Lemma multi_cycle_hit procs1 procs2 fuel w w' k rc :
  any_scan (members procs1 ++ members procs2) 0
           (length (members procs1) + length (members procs2)) w
    = (Returns (Some (k, rc)), w') ->
  k < length (members procs1) + length (members procs2) ->
  exists g i,
    multi_loop procs1 procs2 (S fuel) w = (Returns (g, i, rc), w') /\
    located procs1 procs2 k g i.
Proof.
  rewrite any_scan_app, multi_loop_S, !multi_scan_members.
  destruct (any_scan_spec (members procs1) (length (members procs1)) 0 w)
    as (w1 & rs1 & _ & _ & _ & Hcase); [lia|].
  destruct Hcase as [(Hrun & _)|(h & Hrun & Hl & _)]; rewrite Hrun.
  - rewrite multi_scan_members.
    destruct (any_scan_spec (members procs2) (length (members procs2)) 0 w1)
      as (w2 & rs2 & _ & _ & _ & Hcase); [lia|].
    destruct Hcase as [(Hrun2 & _)|(h & Hrun2 & Hl & _)]; rewrite Hrun2; [done|].
    intros [= <- <- <-] Hk. destruct procs2 as [l2|]; [|simpl in Hl; lia].
    exists l2, (0 + length rs2). split; [done|]. right. split_and!; [done|lia|lia].
  - intros [= <- <- <-] Hk. destruct procs1 as [l1|]; [|simpl in Hl; lia].
    exists l1, (0 + length rs1). split; [done|]. left. split_and!; [done|lia|lia].
Qed.

(** ** The loop of [subprocess_wait_multi] *)

(** Every cycle queries group 1 in ascending order, then group 2 in
    ascending order; the loop returns from the first cycle in which a
    handle answers 0, at the first such position of the cycle. *)
Lemma multi_loop_spec procs1 procs2 fuel : forall w,
  exists w' rss,
    evolves w w' /\
    Forall (quiet_answers (members procs1 ++ members procs2)) rss /\
    ((multi_loop procs1 procs2 fuel w = (Spins, w') /\ length rss = fuel /\
      log w' = log w ++ sweeps [EvSleep] (members procs1 ++ members procs2) rss)
     \/
     (exists rs h g i,
        multi_loop procs1 procs2 fuel w = (Returns (g, i, Some 0%Z), w') /\
        length rss < fuel /\
        (members procs1 ++ members procs2) !! length rs = Some h /\
        located procs1 procs2 (length rs) g i /\
        Forall (fun r => r <> Some 0%Z) rs /\
        returncode (objs w' h) = Some 0%Z /\
        log w' = log w ++ sweeps [EvSleep] (members procs1 ++ members procs2) rss
                       ++ polls (take (length rs) (members procs1 ++ members procs2)) rs
                       ++ [EvPoll h (Some 0%Z)])).
Proof.
  set (AB := members procs1 ++ members procs2).
  assert (HAB : length AB = length (members procs1) + length (members procs2))
    by apply length_app.
  induction fuel as [|fuel IH]; intros w.
  - exists w, []. split; [apply evolves_refl|]. split; [constructor|].
    left. simpl. unfold spin. split_and!; try done. now rewrite app_nil_r.
  - destruct (any_scan_spec AB (length AB) 0 w) as (w1 & rs & Hev & Hnz & _ & Hcase);
      [lia|].
    rewrite drop_0 in Hcase.
    destruct Hcase as [(Hrun & Hl & Hn & Hlog)|(h & Hrun & Hl & Hk & Ho & Hrc & Hn & Hlog)];
      rewrite HAB in Hrun.
    + rewrite (multi_cycle_miss _ _ _ _ _ Hrun).
      destruct (IH (tick EvSleep w1)) as (w' & rss & Hev' & Hq & Hcase).
      exists w', (rs :: rss).
      split; [eapply evolves_trans; [exact Hev|];
              eapply evolves_trans; [apply evolves_sleep|exact Hev']|].
      split; [constructor; [by split|done]|].
      rewrite take_ge in Hlog by lia.
      destruct Hcase as [(Hrun' & Hl' & Hlog')|(rs' & h & g & i & Hrun' & Hl' & Hk & Hloc & Hnz' & Hrc & Hlog')].
      * left. split_and!; [done|simpl; lia|].
        rewrite Hlog'. simpl log. rewrite Hlog, sweeps_cons.
        now rewrite <- !app_assoc.
      * right. exists rs', h, g, i. split_and!; try done; [simpl; lia|].
        rewrite Hlog'. simpl log. rewrite Hlog, sweeps_cons.
        now rewrite <- !app_assoc.
    + destruct (multi_cycle_hit procs1 procs2 fuel _ _ _ _ Hrun) as (g & i & Hloop & Hloc);
        [simpl in Hl; lia|].
      exists w1, []. split; [done|]. split; [constructor|].
      right. exists rs, h, g, i. simpl in *. split_and!; try done. lia.
Qed.

(** After [k] cycles during which every handle of both groups is still
    running, the next cycle returns the first position of the cycle (group 1
    before group 2) whose handle shows 0 during that cycle. *)
Lemma multi_loop_first procs1 procs2 k : forall w p h,
  (members procs1 ++ members procs2) !! p = Some h ->
  (forall h', h' ∈ members procs1 ++ members procs2 ->
     throughout
       (window (now w) (now w + k * S (length (members procs1 ++ members procs2))))
       (fun s => s = None) w h') ->
  throughout
    (window (now w + k * S (length (members procs1 ++ members procs2)))
            (now w + k * S (length (members procs1 ++ members procs2))
             + length (members procs1 ++ members procs2)))
    (fun s => s = Some 0%Z) w h ->
  (forall j hj, j < p -> (members procs1 ++ members procs2) !! j = Some hj ->
     throughout
       (window (now w + k * S (length (members procs1 ++ members procs2)))
               (now w + k * S (length (members procs1 ++ members procs2))
             + length (members procs1 ++ members procs2)))
       (fun s => s <> Some 0%Z) w hj) ->
  forall fuel, k < fuel ->
  exists w' g i,
    multi_loop procs1 procs2 fuel w = (Returns (g, i, Some 0%Z), w') /\
    located procs1 procs2 p g i /\
    evolves w w' /\
    returncode (objs w' h) = Some 0%Z.
Proof.
  set (AB := members procs1 ++ members procs2).
  assert (HAB : length AB = length (members procs1) + length (members procs2))
    by apply length_app.
  induction k as [|k IH]; intros w p h Hp Hrun Hz Hnz fuel Hfuel;
    (destruct fuel as [|fuel]; [lia|]).
  - assert (Hlt : p < length AB) by (eapply lookup_lt_Some; eauto).
    simpl in Hz, Hnz. rewrite !Nat.add_0_r in Hz, Hnz.
    destruct (any_scan_first AB (length AB) 0 p h w)
      as (w' & rs & Hscan & Hev & Hn & Hrc & _); try done; try lia.
    { intros j hj Hj. apply Hnz. lia. }
    rewrite HAB in Hscan at 1.
    destruct (multi_cycle_hit procs1 procs2 fuel _ _ _ _ Hscan) as (g & i & Hloop & Hloc);
      [fold AB; lia|].
    exists w', g, i. by split_and!.
  - set (n := length AB) in *.
    destruct (any_scan_quiet AB n 0 w) as (w1 & rs & Hscan & Hev & Hn & _);
      [lia| |].
    { intros j hj _ Hj.
      apply (throughout_weaken _ _ _ _ w hj) with (3 := Hrun hj (list_elem_of_lookup_2 _ _ _ Hj)).
      - unfold window. simpl. intros t Ht. lia.
      - simpl. intros s ->. done. }
    assert (Hscan' : any_scan AB 0 (length (members procs1) + length (members procs2)) w
                     = (Returns None, w1)) by (rewrite <- HAB; exact Hscan).
    rewrite (multi_cycle_miss _ _ _ _ _ Hscan').
    set (w2 := tick EvSleep w1).
    assert (Hev2 : evolves w w2)
      by (eapply evolves_trans; [exact Hev|apply evolves_sleep]).
    assert (Hn2 : now w2 = now w + S n) by (simpl; lia).
    assert (Hs : now w2 + k * S n = now w + S k * S n) by (simpl; lia).
    assert (Hsame : forall h', h' ∈ AB -> forall t, status w2 h' t = status w h' t).
    { intros h' Hin. apply throughout_running; [done|].
      apply (throughout_weaken _ _ _ _ w h') with (3 := Hrun h' Hin); [|done].
      unfold window. simpl. intros t Ht. lia. }
    destruct (IH w2 p h Hp) with (fuel := fuel) as (w' & g & i & Hloop & Hloc & Hev' & Hrc).
    + intros h' Hin. apply (throughout_same _ _ w); [now apply Hsame|].
      apply (throughout_weaken _ _ _ _ w h') with (3 := Hrun h' Hin); [|done].
      unfold window. intros t Ht. lia.
    + rewrite Hs. apply (throughout_same _ _ w); [|done].
      apply Hsame. eapply list_elem_of_lookup_2; eauto.
    + intros j hj Hj Hhj. rewrite Hs.
      apply (throughout_same _ _ w); [|now apply (Hnz j)].
      apply Hsame. eapply list_elem_of_lookup_2; eauto.
    + lia.
    + exists w', g, i. split_and!; try done. eapply evolves_trans; eauto.
Qed.

(** ** One sweep of [subprocess_wait_all] *)

(** The three ways the loop body can go at an index in range: the slot is
    already filled and nothing happens; the handle answers 0 and the slot
    is filled with its [returncode]; or the handle answers something else
    and the slot stays empty. *)
Lemma all_step_spec procs rcodes i w :
  i < length procs -> length rcodes = length procs ->
  (exists c, rcodes !! i = Some (Some c) /\
             all_step procs rcodes i w = (Returns rcodes, w))
  \/
  (exists h, rcodes !! i = Some None /\ procs !! i = Some h /\
             status w h (now w) = Some 0%Z /\
             all_step procs rcodes i w
               = (Returns (<[i := Some 0%Z]> rcodes), polled h w))
  \/
  (exists h, rcodes !! i = Some None /\ procs !! i = Some h /\
             status w h (now w) <> Some 0%Z /\
             all_step procs rcodes i w = (Returns rcodes, polled h w)).
Proof.
  intros Hi Hlen.
  destruct (lookup_lt_is_Some_2 procs i Hi) as [h Hh].
  destruct (lookup_lt_is_Some_2 rcodes i) as [[c|] Hc]; [lia| |].
  - left. exists c. split; [done|]. unfold all_step. now rewrite Hc.
  - right. unfold all_step. rewrite Hc, Hh.
    unfold bind, poll, get_returncode, ret.
    destruct (eq0 (status w h (now w))) eqn:E0.
    + apply eq0_true in E0. left. exists h. split_and!; [done|done|done|].
      rewrite (returncode_polled h w). rewrite E0. reflexivity.
    + apply eq0_false in E0. right. exists h. split_and!; done.
Qed.

(** A filled slot makes the loop body a no-op: no status query, no
    assignment. *)
Lemma all_step_filled procs rcodes i c w :
  rcodes !! i = Some (Some c) ->
  all_step procs rcodes i w = (Returns rcodes, w).
Proof. intros Hc. unfold all_step. now rewrite Hc. Qed.

Lemma all_scan_S procs rcodes i n w rcodes1 w1 :
  all_step procs rcodes i w = (Returns rcodes1, w1) ->
  all_scan procs rcodes i (S n) w = all_scan procs rcodes1 (S i) n w1.
Proof. intros H. simpl. now rewrite (bind_returns _ _ _ _ _ H). Qed.

(** What a sweep of [subprocess_wait_all] over positions [i, i+n) does to
    the slots: it always completes; a slot either keeps its value, or was
    empty and now holds 0 because its handle answered 0; and a slot in
    range that is still empty belongs to a handle that answered something
    other than 0. *)
Lemma all_scan_spec procs n : forall i rcodes w,
  i + n <= length procs -> length rcodes = length procs ->
  exists rcodes' w',
    all_scan procs rcodes i n w = (Returns rcodes', w') /\
    length rcodes' = length procs /\
    evolves w w' /\ now w' <= now w + n /\
    (forall j,
       rcodes' !! j = rcodes !! j \/
       (i <= j < i + n /\ rcodes !! j = Some None /\
        rcodes' !! j = Some (Some 0%Z) /\
        exists h, procs !! j = Some h /\ observed w w' h (Some 0%Z) /\
                  returncode (objs w' h) = Some 0%Z)) /\
    (forall j h, i <= j < i + n -> procs !! j = Some h ->
       rcodes' !! j = Some None ->
       exists r, r <> Some 0%Z /\ observed w w' h r).
Proof.
  induction n as [|n IH]; intros i rcodes w Hlen Hrc.
  - exists rcodes, w. simpl. unfold ret.
    split_and!; try done; [apply evolves_refl|lia|now left|intros; lia].
  - destruct (all_step_spec procs rcodes i w) as
      [(c & Hc & Hstep)|[(h & Hc & Hh & Hst & Hstep)|(h & Hc & Hh & Hst & Hstep)]];
      [lia|done| | |]; rewrite (all_scan_S _ _ _ _ _ _ _ Hstep).
    + (* slot already filled *)
      destruct (IH (S i) rcodes w) as (rcodes' & w' & Hrun & Hl & Hev & Hn & Hslot & Hemp);
        [lia|done|].
      exists rcodes', w'. split_and!; try done; [lia| |].
      * intros j. destruct (Hslot j) as [E|(Hj & Hrest)]; [now left|].
        right. split; [lia|done].
      * intros j hj Hj Hhj Hnone. destruct (decide (j = i)) as [->|Hne].
        -- destruct (Hslot i) as [E|(Hj' & _)]; [congruence|lia].
        -- apply (Hemp j hj); [lia|done|done].
    + (* the handle answers 0: the slot is filled *)
      destruct (IH (S i) (<[i := Some 0%Z]> rcodes) (polled h w))
        as (rcodes' & w' & Hrun & Hl & Hev & Hn & Hslot & Hemp);
        [lia|now rewrite length_insert|].
      assert (Hnow : S (now w) <= now w')
        by (destruct Hev as [Hle _]; now rewrite now_polled in Hle).
      assert (Hev' : evolves w w')
        by (eapply evolves_trans; [apply evolves_polled|done]).
      assert (Hi' : rcodes' !! i = Some (Some 0%Z)).
      { destruct (Hslot i) as [E|(Hj' & _)]; [|lia].
        rewrite E. apply list_lookup_insert_eq. lia. }
      exists rcodes', w'. rewrite now_polled in Hn.
      split_and!; try done; [lia| |].
      * intros j. destruct (decide (j = i)) as [->|Hne].
        -- right. split_and!; [lia|lia|done|done|]. exists h. split_and!; [done| |].
           ++ eapply observed_later; [|rewrite <- Hst; apply observed_polled].
              now rewrite now_polled.
           ++ destruct Hev as (_ & Hcache & _). apply Hcache.
              now rewrite returncode_polled.
        -- destruct (Hslot j) as [E|(Hj & Hjn & Hj0 & hj & Hhj & Ho & Hrcj)].
           ++ left. rewrite E. now apply list_lookup_insert_ne.
           ++ right. rewrite list_lookup_insert_ne in Hjn by done.
              split_and!; [lia|lia|done|done|]. exists hj. split_and!; try done.
              eapply observed_evolves; [apply evolves_polled| |done].
              now rewrite now_polled.
      * intros j hj Hj Hhj Hnone. destruct (decide (j = i)) as [->|Hne]; [congruence|].
        destruct (Hemp j hj) as (r & Hr & Ho); [lia|done|done|].
        exists r. split; [done|].
        eapply observed_evolves; [apply evolves_polled| |done].
        now rewrite now_polled.
    + (* the handle answers something else: the slot stays empty *)
      destruct (IH (S i) rcodes (polled h w))
        as (rcodes' & w' & Hrun & Hl & Hev & Hn & Hslot & Hemp); [lia|done|].
      assert (Hnow : S (now w) <= now w')
        by (destruct Hev as [Hle _]; now rewrite now_polled in Hle).
      assert (Hev' : evolves w w')
        by (eapply evolves_trans; [apply evolves_polled|done]).
      exists rcodes', w'. rewrite now_polled in Hn.
      split_and!; try done; [lia| |].
      * intros j. destruct (Hslot j) as [E|(Hj & Hjn & Hj0 & hj & Hhj & Ho & Hrcj)];
          [now left|].
        right. split_and!; [lia|lia|done|done|]. exists hj. split_and!; try done.
        eapply observed_evolves; [apply evolves_polled| |done].
        now rewrite now_polled.
      * intros j hj Hj Hhj Hnone. destruct (decide (j = i)) as [->|Hne].
        -- assert (hj = h) by congruence. subst hj.
           exists (status w h (now w)). split; [done|].
           eapply observed_later; [|apply observed_polled]. now rewrite now_polled.
        -- destruct (Hemp j hj) as (r & Hr & Ho); [lia|done|done|].
           exists r. split; [done|].
           eapply observed_evolves; [apply evolves_polled| |done].
           now rewrite now_polled.
Qed.

(** ** The loop of [subprocess_wait_all] *)

Lemma all_filled_true (l : list (option Z)) :
  forallb is_not_None l = true <-> Forall (fun x => x <> None) l.
Proof.
  induction l as [|[c|] l IH]; simpl.
  - split; [constructor|done].
  - rewrite IH. split; [now constructor|now inversion 1].
  - split; [done|]. inversion 1; congruence.
Qed.

Lemma all_filled_false (l : list (option Z)) :
  forallb is_not_None l = false <-> exists j, l !! j = Some None.
Proof.
  induction l as [|[c|] l IH]; simpl.
  - split; [done|]. intros [j Hj]. done.
  - rewrite IH. split.
    + intros [j Hj]. now exists (S j).
    + intros [[|j] Hj]; [done|]. now exists j.
  - split; [|done]. intros _. now exists 0.
Qed.

Lemma all_loop_S procs rcodes fuel w rcodes1 w1 :
  all_scan procs rcodes 0 (length procs) w = (Returns rcodes1, w1) ->
  all_loop procs rcodes (S fuel) w =
  if forallb is_not_None rcodes1 then (Returns rcodes1, w1)
  else all_loop procs rcodes1 fuel (tick EvSleep w1).
Proof.
  intros H. simpl. rewrite (bind_returns _ _ _ _ _ H).
  destruct (forallb is_not_None rcodes1); done.
Qed.

(** The loop never raises. When it returns, no slot is empty, and every
    slot either kept the value it had when the loop was entered or was
    empty and now holds 0, the [returncode] of the handle at that
    position. *)
Lemma all_loop_spec procs fuel : forall rcodes w,
  length rcodes = length procs ->
  exists w',
    evolves w w' /\
    (all_loop procs rcodes fuel w = (Spins, w') \/
     exists r,
       all_loop procs rcodes fuel w = (Returns r, w') /\
       length r = length procs /\
       Forall (fun x => x <> None) r /\
       forall j,
         r !! j = rcodes !! j \/
         (rcodes !! j = Some None /\ r !! j = Some (Some 0%Z) /\
          exists h, procs !! j = Some h /\
                    returncode (objs w' h) = Some 0%Z)).
Proof.
  induction fuel as [|fuel IH]; intros rcodes w Hlen.
  - exists w. split; [apply evolves_refl|]. now left.
  - destruct (all_scan_spec procs (length procs) 0 rcodes w)
      as (rcodes1 & w1 & Hscan & Hl1 & Hev1 & _ & Hslot & _); [lia|done|].
    rewrite (all_loop_S _ _ _ _ _ _ Hscan).
    destruct (forallb is_not_None rcodes1) eqn:Hall.
    + exists w1. split; [done|]. right. exists rcodes1.
      split_and!; try done; [now apply all_filled_true|].
      intros j. destruct (Hslot j) as [E|(_ & Hn & H0 & h & Hh & _ & Hrc)];
        [now left|right; eauto].
    + destruct (IH rcodes1 (tick EvSleep w1) Hl1) as (w' & Hev' & Hcase).
      assert (Hev2 : evolves w1 w')
        by (eapply evolves_trans; [apply evolves_sleep|done]).
      exists w'. split; [eapply evolves_trans; eauto|].
      destruct Hcase as [Hspin|(r & Hret & Hl & Hfull & Hslot')]; [now left|].
      right. exists r. split_and!; try done.
      intros j. destruct (Hslot' j) as [E|(Hn & H0 & h & Hh & Hrc)].
      * rewrite E. destruct (Hslot j) as [E1|(_ & Hn1 & H01 & h & Hh & _ & Hrc)];
          [now left|].
        right. split_and!; try done. exists h. split; [done|].
        destruct Hev2 as (_ & Hcache & _). now apply Hcache.
      * right. split_and!; try done; [|eauto].
        destruct (Hslot j) as [E1|(_ & _ & H01 & _)]; congruence.
Qed.

(** A position whose handle never shows 0 keeps its slot empty, so the
    loop never finishes. *)
Lemma all_loop_stuck procs i h fuel : forall rcodes w,
  length rcodes = length procs ->
  procs !! i = Some h -> rcodes !! i = Some None ->
  never_zero w h ->
  exists w', all_loop procs rcodes fuel w = (Spins, w').
Proof.
  induction fuel as [|fuel IH]; intros rcodes w Hlen Hh Hnone Hnz.
  - now exists w.
  - destruct (all_scan_spec procs (length procs) 0 rcodes w)
      as (rcodes1 & w1 & Hscan & Hl1 & Hev1 & _ & Hslot & _); [lia|done|].
    rewrite (all_loop_S _ _ _ _ _ _ Hscan).
    assert (Hnone1 : rcodes1 !! i = Some None).
    { destruct (Hslot i) as [E|(_ & _ & _ & h' & Hh' & Ho & _)]; [congruence|].
      exfalso. assert (h' = h) by congruence. subst h'.
      refine (observed_throughout _ (fun s => s <> Some 0%Z) w w1 h _ Hnz _ Ho eq_refl).
      done. }
    assert (Hall : forallb is_not_None rcodes1 = false)
      by (apply all_filled_false; eauto).
    rewrite Hall. apply IH; try done.
    eapply never_zero_evolves; [|exact Hnz].
    eapply evolves_trans; [exact Hev1|apply evolves_sleep].
Qed.

(** Once every handle shows 0, at instant [T] at the latest, the loop
    returns: each sweep takes time, and a sweep started at [T] or later
    fills every slot that is still empty. *)
Lemma all_loop_done procs T d : forall rcodes w,
  length rcodes = length procs ->
  T <= now w + d ->
  (forall h, h ∈ procs -> exits_zero w h T) ->
  forall fuel, d < fuel ->
  exists r w', all_loop procs rcodes fuel w = (Returns r, w').
Proof.
  induction d as [|d IH]; intros rcodes w Hlen HT Hex fuel Hfuel;
    (destruct fuel as [|fuel]; [lia|]);
    destruct (all_scan_spec procs (length procs) 0 rcodes w)
      as (rcodes1 & w1 & Hscan & Hl1 & Hev1 & _ & _ & Hemp); try lia; try done;
    rewrite (all_loop_S _ _ _ _ _ _ Hscan);
    destruct (forallb is_not_None rcodes1) eqn:Hall; eauto.
  - exfalso. apply all_filled_false in Hall as [j Hj].
    destruct (lookup_lt_is_Some_2 procs j) as [h Hh].
    { rewrite <- Hl1. eapply lookup_lt_Some; eauto. }
    destruct (Hemp j h) as (r & Hr & (t & Ht & Hst)); [|done|done|].
    { split; [lia|]. simpl. eapply lookup_lt_Some; eauto. }
    destruct (Hex h) as [_ Hlate]; [eapply list_elem_of_lookup_2; eauto|].
    apply Hr. rewrite <- Hst. apply Hlate. lia.
  - apply IH; try done; [|intros h Hin|lia].
    + destruct Hev1 as [Hle _]. simpl. lia.
    + eapply exits_zero_evolves; [|apply Hex, Hin].
      eapply evolves_trans; [exact Hev1|apply evolves_sleep].
Qed.

(** ** Status queries issued by [subprocess_wait_all] *)

Lemma captured_once_nil : captured_once [].
Proof. intros [|? ?] l2 h E; discriminate. Qed.

Lemma captured_once_single ev : captured_once [ev].
Proof.
  intros [|x [|? ?]] l2 h E; try discriminate.
  injection E as _ <-. constructor.
Qed.

Lemma captured_once_app a b :
  captured_once a -> captured_once b ->
  (forall h, EvPoll h (Some 0%Z) ∈ a -> Forall (fun ev => ~ is_poll_of h ev) b) ->
  captured_once (a ++ b).
Proof.
  intros Ha Hb Hab l1 l2 h E.
  apply app_eq_app in E as [l [[E1 E2]|[E1 E2]]].
  - destruct l as [|x l].
    + simpl in E2. rewrite app_nil_r in E1. subst.
      apply (Hb [] l2 h). done.
    + injection E2 as <- ->. apply Forall_app. split.
      * apply (Ha l1 l h). done.
      * apply Hab. rewrite E1. apply elem_of_app. right. apply elem_of_cons. now left.
  - apply (Hb l l2 h). done.
Qed.

Lemma not_poll_sleep h : ~ is_poll_of h EvSleep.
Proof. intros [r Hr]. discriminate. Qed.

(** With pairwise distinct handles, a sweep queries only handles whose slot
    is empty, each at most once, and a handle that answers 0 has its slot
    filled by the end of the sweep. *)
Lemma all_scan_events procs n :
  NoDup procs ->
  forall i rcodes w rcodes' w',
    i + n <= length procs -> length rcodes = length procs ->
    all_scan procs rcodes i n w = (Returns rcodes', w') ->
    exists evs,
      log w' = log w ++ evs /\ captured_once evs /\
      (forall h ev, ev ∈ evs -> is_poll_of h ev ->
         exists j, i <= j < i + n /\ procs !! j = Some h /\
                   rcodes !! j = Some None) /\
      (forall h, EvPoll h (Some 0%Z) ∈ evs ->
         exists j, procs !! j = Some h /\ rcodes' !! j = Some (Some 0%Z)).
Proof.
  intros Hnd. induction n as [|n IH]; intros i rcodes w rcodes' w' Hlen Hrc Hrun.
  - simpl in Hrun. injection Hrun as <- <-. exists [].
    rewrite app_nil_r. split_and!; [done|apply captured_once_nil| |];
      intros h; [intros ev|]; intros Hin; inversion Hin.
  - destruct (all_step_spec procs rcodes i w) as
      [(c & Hc & Hstep)|[(h & Hc & Hh & Hst & Hstep)|(h & Hc & Hh & Hst & Hstep)]];
      [lia|done| | |]; rewrite (all_scan_S _ _ _ _ _ _ _ Hstep) in Hrun.
    + destruct (IH (S i) _ _ _ _ ltac:(lia) Hrc Hrun) as (evs & Hlog & Hco & Hp & Hf).
      exists evs. split_and!; try done.
      intros h ev Hin Hpoll. destruct (Hp h ev Hin Hpoll) as (j & Hj & Hrest).
      exists j. split; [lia|done].
    + assert (Hrc' : length (<[i := Some 0%Z]> rcodes) = length procs)
        by now rewrite length_insert.
      destruct (IH (S i) _ _ _ _ ltac:(lia) Hrc' Hrun) as (evs & Hlog & Hco & Hp & Hf).
      assert (Hfree : Forall (fun ev => ~ is_poll_of h ev) evs).
      { apply Forall_forall. intros ev Hin Hpoll.
        destruct (Hp h ev Hin Hpoll) as (j & Hj & Hhj & _).
        pose proof (NoDup_lookup _ _ _ _ Hnd Hh Hhj). lia. }
      exists (EvPoll h (Some 0%Z) :: evs). split_and!.
      * rewrite Hlog, log_polled, Hst. now rewrite <- app_assoc.
      * apply (captured_once_app [_] evs); [apply captured_once_single|done|].
        intros h' Hin. apply list_elem_of_singleton in Hin. now injection Hin as ->.
      * intros h' ev Hin Hpoll. apply elem_of_cons in Hin as [->|Hin].
        -- destruct Hpoll as [r [= -> _]]. exists i. split_and!; [lia|lia|done|done].
        -- destruct (Hp h' ev Hin Hpoll) as (j & Hj & Hhj & Hnone).
           exists j. split_and!; [lia|lia|done|].
           rewrite list_lookup_insert_ne in Hnone by lia. done.
      * intros h' Hin. apply elem_of_cons in Hin as [[= ->]|Hin]; [|now apply Hf].
        exists i. split; [done|].
        destruct (all_scan_spec procs n (S i) (<[i := Some 0%Z]> rcodes) (polled h w))
          as (r2 & w2 & Hrun2 & _ & _ & _ & Hslot & _); [lia|done|].
        rewrite Hrun in Hrun2. injection Hrun2 as <- <-.
        destruct (Hslot i) as [E|(Hj & _)]; [|lia].
        rewrite E. apply list_lookup_insert_eq. lia.
    + destruct (IH (S i) _ _ _ _ ltac:(lia) Hrc Hrun) as (evs & Hlog & Hco & Hp & Hf).
      exists (EvPoll h (status w h (now w)) :: evs). split_and!.
      * rewrite Hlog, log_polled. now rewrite <- app_assoc.
      * apply (captured_once_app [_] evs); [apply captured_once_single|done|].
        intros h' Hin. apply list_elem_of_singleton in Hin.
        injection Hin as -> E. now rewrite <- E in Hst.
      * intros h' ev Hin Hpoll. apply elem_of_cons in Hin as [->|Hin].
        -- destruct Hpoll as [r [= -> _]]. exists i. split_and!; [lia|lia|done|done].
        -- destruct (Hp h' ev Hin Hpoll) as (j & Hj & Hhj & Hnone).
           exists j. split_and!; [lia|lia|done|done].
      * intros h' Hin. apply elem_of_cons in Hin as [[= -> E]|Hin]; [|now apply Hf].
        now rewrite E in Hst.
Qed.

(** With pairwise distinct handles, throughout the loop a status query of a
    handle that answers 0 is the last query of that handle. *)
Lemma all_loop_events procs fuel :
  NoDup procs ->
  forall rcodes w out w',
    length rcodes = length procs ->
    all_loop procs rcodes fuel w = (out, w') ->
    exists evs,
      log w' = log w ++ evs /\ captured_once evs /\
      (forall h ev, ev ∈ evs -> is_poll_of h ev ->
         exists j, procs !! j = Some h /\ rcodes !! j = Some None).
Proof.
  intros Hnd. induction fuel as [|fuel IH]; intros rcodes w out w' Hrc Hrun.
  - simpl in Hrun. injection Hrun as <- <-. exists []. rewrite app_nil_r.
    split_and!; [done|apply captured_once_nil|]. intros h ev Hin. inversion Hin.
  - destruct (all_scan_spec procs (length procs) 0 rcodes w)
      as (rcodes1 & w1 & Hscan & Hl1 & _ & _ & Hslot & _); [lia|done|].
    rewrite (all_loop_S _ _ _ _ _ _ Hscan) in Hrun.
    destruct (all_scan_events procs (length procs) Hnd 0 _ _ _ _ ltac:(lia) Hrc Hscan)
      as (evs1 & Hlog1 & Hco1 & Hp1 & Hf1).
    destruct (forallb is_not_None rcodes1).
    + injection Hrun as <- <-. exists evs1. split_and!; try done.
      intros h ev Hin Hpoll. destruct (Hp1 h ev Hin Hpoll) as (j & _ & Hrest).
      now exists j.
    + destruct (IH _ _ _ _ Hl1 Hrun) as (evs2 & Hlog2 & Hco2 & Hp2).
      exists (evs1 ++ EvSleep :: evs2). split_and!.
      * rewrite Hlog2. simpl log. rewrite Hlog1. now rewrite <- !app_assoc.
      * apply captured_once_app; [done| |].
        -- apply (captured_once_app [_] evs2); [apply captured_once_single|done|].
           intros h Hin. apply list_elem_of_singleton in Hin. discriminate.
        -- intros h Hin. destruct (Hf1 h Hin) as (j & Hj & Hfilled).
           constructor; [apply not_poll_sleep|].
           apply Forall_forall. intros ev Hin2 Hpoll.
           destruct (Hp2 h ev Hin2 Hpoll) as (j' & Hj' & Hnone).
           pose proof (NoDup_lookup _ _ _ _ Hnd Hj Hj'). subst j'. congruence.
      * intros h ev Hin Hpoll. apply elem_of_app in Hin as [Hin|Hin].
        -- destruct (Hp1 h ev Hin Hpoll) as (j & _ & Hrest). now exists j.
        -- apply elem_of_cons in Hin as [->|Hin];
             [now apply not_poll_sleep in Hpoll|].
           destruct (Hp2 h ev Hin Hpoll) as (j & Hj & Hnone).
           exists j. split; [done|].
           destruct (Hslot j) as [E|(_ & _ & H0 & _)]; congruence.
Qed.

(** * The wait operations *)

Lemma status_sample hst flt h t :
  status (sample_world hst flt) h t = hst h t.
Proof. reflexivity. Qed.

Lemma invalid_false_length procs :
  invalid (Some procs) = false <-> 0 < length (items procs).
Proof. simpl. rewrite Nat.eqb_neq. lia. Qed.

Lemma wait_all_valid procs fuel w :
  0 < length (items procs) ->
  subprocess_wait_all (Some procs) fuel w =
  all_loop (items procs) (replicate (length (items procs)) None) fuel w.
Proof.
  intros H. unfold subprocess_wait_all.
  destruct (length (items procs)) eqn:E; [lia|done].
Qed.

Lemma wait_any_valid procs fuel w :
  0 < length (items procs) ->
  subprocess_wait_any (Some procs) fuel w = any_loop (items procs) fuel w.
Proof.
  intros H. unfold subprocess_wait_any.
  destruct (length (items procs)) eqn:E; [lia|done].
Qed.

Lemma wait_multi_valid procs1 procs2 fuel w :
  invalid procs1 && invalid procs2 = false ->
  subprocess_wait_multi procs1 procs2 fuel w = multi_loop procs1 procs2 fuel w.
Proof. intros H. unfold subprocess_wait_multi. now rewrite H. Qed.

(** C3. [subprocess_wait_all] and [subprocess_wait_any] raise [ValueError]
    when [procs] is [None] or empty, and [subprocess_wait_multi] raises
    [ValueError] when both groups are [None] or empty and only then (with
    at least one usable group it never raises). In each case the error is
    raised in the world the call was entered in: no status query has been
    made, nothing has been logged, no object has changed. *)
Theorem invalid_argument_before_polling :
  (forall procs fuel w,
     invalid procs = true ->
     subprocess_wait_all procs fuel w
       = (Raises (ValueError "procs is invalid"), w)) /\
  (forall procs fuel w,
     invalid procs = true ->
     subprocess_wait_any procs fuel w
       = (Raises (ValueError "procs is invalid"), w)) /\
  (forall procs1 procs2 fuel w,
     invalid procs1 = true -> invalid procs2 = true ->
     subprocess_wait_multi procs1 procs2 fuel w
       = (Raises (ValueError "both procs1 and procs2 are invalid"), w)) /\
  (forall procs1 procs2 fuel w e,
     invalid procs1 && invalid procs2 = false ->
     fst (subprocess_wait_multi procs1 procs2 fuel w) <> Raises e).
Proof.
  split_and!.
  - intros [l|] fuel w H; [|done]. simpl in H.
    unfold subprocess_wait_all. now rewrite H.
  - intros [l|] fuel w H; [|done]. simpl in H.
    unfold subprocess_wait_any. now rewrite H.
  - intros procs1 procs2 fuel w H1 H2.
    unfold subprocess_wait_multi. now rewrite H1, H2.
  - intros procs1 procs2 fuel w e H. rewrite wait_multi_valid by done.
    destruct (multi_loop_spec procs1 procs2 fuel w)
      as (w' & rss & _ & _ & [(Hrun & _)|(rs & h & g & i & Hrun & _)]);
      now rewrite Hrun.
Qed.

Lemma invalid_argument_before_polling_witness :
  subprocess_wait_all (Some (PyList 1 [])) 3 (sample_world staggered no_fault)
    = (Raises (ValueError "procs is invalid"), sample_world staggered no_fault) /\
  subprocess_wait_any None 3 (sample_world staggered no_fault)
    = (Raises (ValueError "procs is invalid"), sample_world staggered no_fault) /\
  subprocess_wait_multi None (Some (PyList 2 [])) 3 (sample_world staggered no_fault)
    = (Raises (ValueError "both procs1 and procs2 are invalid"),
       sample_world staggered no_fault) /\
  fst (subprocess_wait_multi (Some (PyList 1 [])) (Some (PyList 2 [1])) 3
         (sample_world staggered no_fault))
    <> Raises (ValueError "both procs1 and procs2 are invalid").
Proof.
  destruct invalid_argument_before_polling as (Hall & Hany & Hboth & Honly).
  split_and!.
  - apply Hall. reflexivity.
  - apply Hany. reflexivity.
  - apply Hboth; reflexivity.
  - apply Honly. reflexivity.
Defined.

(** C9. Whenever a wait operation returns normally, every exit code it
    hands to the caller is 0: [subprocess_wait_all] returns a list of
    zeros, and the exit-code component of the results of
    [subprocess_wait_any] and [subprocess_wait_multi] is 0. *)
Theorem reported_exit_codes_are_zero :
  (forall procs fuel w r w',
     subprocess_wait_all procs fuel w = (Returns r, w') ->
     Forall (fun x => x = Some 0%Z) r) /\
  (forall procs fuel w i rc w',
     subprocess_wait_any procs fuel w = (Returns (i, rc), w') ->
     rc = Some 0%Z) /\
  (forall procs1 procs2 fuel w g i rc w',
     subprocess_wait_multi procs1 procs2 fuel w = (Returns (g, i, rc), w') ->
     rc = Some 0%Z).
Proof.
  split_and!.
  - intros [l|] fuel w r w' Hrun; [|done].
    destruct (decide (0 < length (items l))) as [Hpos|Hz].
    2:{ unfold subprocess_wait_all in Hrun.
        destruct (length (items l)); [done|lia]. }
    rewrite wait_all_valid in Hrun by done.
    destruct (all_loop_spec (items l) fuel (replicate (length (items l)) None) w)
      as (w1 & _ & [Hspin|(r1 & Hret & Hl & Hfull & Hslot)]);
      [apply length_replicate|congruence|].
    rewrite Hrun in Hret. injection Hret as <- <-.
    apply Forall_lookup. intros j x Hx.
    destruct (Hslot j) as [E|(_ & E & _)]; [|congruence].
    rewrite Hx in E. symmetry in E. apply lookup_replicate in E as [-> _].
    eapply Forall_lookup_1 in Hfull; [|exact Hx]. done.
  - intros [l|] fuel w i rc w' Hrun; [|done].
    destruct (decide (0 < length (items l))) as [Hpos|Hz].
    2:{ unfold subprocess_wait_any in Hrun.
        destruct (length (items l)); [done|lia]. }
    rewrite wait_any_valid in Hrun by done.
    destruct (any_loop_spec (items l) fuel w)
      as (w1 & rss & _ & _ & [(Hspin & _)|(rs & h & Hret & _)]); congruence.
  - intros procs1 procs2 fuel w g i rc w' Hrun.
    destruct (invalid procs1 && invalid procs2) eqn:Hinv.
    { unfold subprocess_wait_multi in Hrun. now rewrite Hinv in Hrun. }
    rewrite wait_multi_valid in Hrun by done.
    destruct (multi_loop_spec procs1 procs2 fuel w)
      as (w1 & rss & _ & _ & [(Hspin & _)|(rs & h & g' & i' & Hret & _)]);
      congruence.
Qed.

Lemma reported_exit_codes_are_zero_witness :
  Forall (fun x => x = Some 0%Z) [Some 0%Z; Some 0%Z; Some 0%Z] /\
  Some 0%Z = Some 0%Z /\ Some 0%Z = Some 0%Z.
Proof.
  destruct reported_exit_codes_are_zero as (Hall & Hany & Hmulti).
  split_and!.
  - apply (Hall (Some (PyList 1 [0; 1; 2])) 5 (sample_world staggered no_fault)
             [Some 0%Z; Some 0%Z; Some 0%Z]
             (snd (subprocess_wait_all (Some (PyList 1 [0; 1; 2])) 5
                     (sample_world staggered no_fault)))).
    vm_compute. reflexivity.
  - apply (Hany (Some (PyList 1 [0; 1; 2; 3; 4; 5])) 3
             (sample_world two_and_five no_fault) 2 (Some 0%Z)
             (snd (subprocess_wait_any (Some (PyList 1 [0; 1; 2; 3; 4; 5])) 3
                     (sample_world two_and_five no_fault)))).
    vm_compute. reflexivity.
  - apply (Hmulti (Some (PyList 1 [0; 1])) (Some (PyList 2 [2])) 3
             (sample_world only_two no_fault) (PyList 2 [2]) 0 (Some 0%Z)
             (snd (subprocess_wait_multi (Some (PyList 1 [0; 1]))
                     (Some (PyList 2 [2])) 3
                     (sample_world only_two no_fault)))).
    vm_compute. reflexivity.
Defined.

Lemma never_zero_not_cached w h :
  never_zero w h -> returncode (objs w h) <> Some 0%Z.
Proof.
  intros Hnz Hc. apply (Hnz 0 I). now apply status_cached.
Qed.

(** C1. A handle that never shows exit code 0 (it runs on, or its status
    query reports a nonzero exit code) is never taken for terminated.
    In [subprocess_wait_all] a sweep leaves the slot of such a handle
    empty, and the call never completes, whatever the other handles do;
    [subprocess_wait_any] and [subprocess_wait_multi] never return when no
    candidate handle ever shows 0. *)
Theorem nonzero_exit_never_detected :
  (forall procs rcodes i h k n w rcodes' w',
     procs !! i = Some h -> rcodes !! i = Some None -> never_zero w h ->
     all_scan procs rcodes k n w = (Returns rcodes', w') ->
     rcodes' !! i = Some None /\ never_zero w' h) /\
  (forall procs i h fuel w,
     items procs !! i = Some h -> never_zero w h ->
     exists w', subprocess_wait_all (Some procs) fuel w = (Spins, w')) /\
  (forall procs fuel w,
     invalid (Some procs) = false ->
     (forall h, h ∈ items procs -> never_zero w h) ->
     exists w', subprocess_wait_any (Some procs) fuel w = (Spins, w')) /\
  (forall procs1 procs2 fuel w,
     invalid procs1 && invalid procs2 = false ->
     (forall h, h ∈ members procs1 ++ members procs2 -> never_zero w h) ->
     exists w', subprocess_wait_multi procs1 procs2 fuel w = (Spins, w')).
Proof.
  split_and!.
  - intros procs rcodes i h k n. revert rcodes k.
    induction n as [|n IH]; intros rcodes k w rcodes' w' Hh Hnone Hnz Hrun.
    + simpl in Hrun. now injection Hrun as <- <-.
    + simpl in Hrun. apply bind_inv_returns in Hrun as (r1 & w1 & Hstep & Hrun).
      unfold all_step in Hstep.
      destruct (rcodes !! k) as [[c|]|] eqn:Hk; [| |done].
      * injection Hstep as <- <-. exact (IH _ _ _ _ _ Hh Hnone Hnz Hrun).
      * destruct (procs !! k) as [hk|] eqn:Hhk; [|done].
        unfold bind, poll, get_returncode, ret in Hstep.
        assert (Hnz1 : never_zero (polled hk w) h)
          by (eapply never_zero_evolves; [apply evolves_polled|done]).
        destruct (eq0 (status w hk (now w))) eqn:E0.
        -- injection Hstep as <- <-. apply eq0_true in E0.
           destruct (decide (k = i)) as [->|Hne].
           ++ exfalso. assert (hk = h) by congruence. subst hk.
              now apply (Hnz (now w) I).
           ++ refine (IH _ _ _ _ _ Hh _ Hnz1 Hrun).
              now rewrite list_lookup_insert_ne.
        -- injection Hstep as <- <-. exact (IH _ _ _ _ _ Hh Hnone Hnz1 Hrun).
  - intros procs i h fuel w Hh Hnz.
    assert (Hpos : 0 < length (items procs))
      by (apply lookup_lt_Some in Hh; lia).
    rewrite wait_all_valid by done.
    apply (all_loop_stuck (items procs) i h); try done.
    + apply length_replicate.
    + apply lookup_replicate_2. now apply lookup_lt_Some in Hh.
  - intros procs fuel w Hval Hnz.
    apply invalid_false_length in Hval. rewrite wait_any_valid by done.
    destruct (any_loop_spec (items procs) fuel w)
      as (w' & rss & Hev & _ & [(Hspin & _)|(rs & h & Hret & _ & Hh & _ & Hrc & _)]);
      [eauto|].
    exfalso. apply (never_zero_not_cached w' h); [|done].
    eapply never_zero_evolves; [exact Hev|].
    apply Hnz. eapply list_elem_of_lookup_2; eauto.
  - intros procs1 procs2 fuel w Hval Hnz. rewrite wait_multi_valid by done.
    destruct (multi_loop_spec procs1 procs2 fuel w)
      as (w' & rss & Hev & _ &
          [(Hspin & _)|(rs & h & g & i & Hret & _ & Hh & _ & _ & Hrc & _)]);
      [eauto|].
    exfalso. apply (never_zero_not_cached w' h); [|done].
    eapply never_zero_evolves; [exact Hev|].
    apply Hnz. eapply list_elem_of_lookup_2; eauto.
Qed.

Lemma nonzero_exit_never_detected_witness :
  (exists w', subprocess_wait_all (Some (PyList 1 [1; 0; 2])) 4
                (sample_world zero_failed no_fault) = (Spins, w')) /\
  (exists w', subprocess_wait_any (Some (PyList 1 [0; 1])) 4
                (sample_world all_failed no_fault) = (Spins, w')) /\
  (exists w', subprocess_wait_multi (Some (PyList 1 [0])) (Some (PyList 2 [1; 2])) 4
                (sample_world all_failed no_fault) = (Spins, w')).
Proof.
  destruct nonzero_exit_never_detected as (_ & Hall & Hany & Hmulti).
  split_and!.
  - apply (Hall (PyList 1 [1; 0; 2]) 1 0); [reflexivity|].
    intros t _. vm_compute. discriminate.
  - apply Hany; [reflexivity|].
    intros h _ t _. vm_compute. discriminate.
  - apply Hmulti; [reflexivity|].
    intros h _ t _. vm_compute. discriminate.
Defined.

Lemma exits_zero_later w h T T' :
  T <= T' -> exits_zero w h T -> exits_zero w h T'.
Proof.
  intros Hle [Hall Hlate]. split; [done|].
  intros t Ht. apply Hlate. lia.
Qed.

Lemma exits_zero_common w (l : list handle) :
  (forall h, h ∈ l -> exists T, exits_zero w h T) ->
  exists T, forall h, h ∈ l -> exits_zero w h T.
Proof.
  induction l as [|h0 l IH]; intros H.
  - exists 0. intros h Hin. inversion Hin.
  - destruct IH as [T1 HT1].
    { intros h Hin. apply H. apply elem_of_cons. now right. }
    destruct (H h0) as [T0 HT0]; [apply elem_of_cons; now left|].
    exists (T0 `max` T1). intros h Hin. apply elem_of_cons in Hin as [->|Hin].
    + eapply exits_zero_later; [|exact HT0]. lia.
    + eapply exits_zero_later; [|apply HT1, Hin]. lia.
Qed.

(** C2. For a non-empty list of [N] handles each of which runs and then
    exits with code 0, at whatever instant and in whatever order,
    [subprocess_wait_all] returns once it is given enough sweeps, and what
    it returns is the list of [N] zeros, position [i] of the result being
    the [returncode] of the handle at position [i] of the input. *)
Theorem wait_all_returns_zeros :
  forall procs w,
    invalid (Some procs) = false ->
    (forall h, h ∈ items procs -> exists T, exits_zero w h T) ->
    exists fuel0, forall fuel, fuel0 <= fuel ->
      exists r w',
        subprocess_wait_all (Some procs) fuel w = (Returns r, w') /\
        r = replicate (length (items procs)) (Some 0%Z) /\
        forall i h, items procs !! i = Some h ->
                    r !! i = Some (returncode (objs w' h)).
Proof.
  intros procs w Hval Hex. apply invalid_false_length in Hval.
  destruct (exits_zero_common w (items procs) Hex) as [T HT].
  exists (S (T - now w)). intros fuel Hfuel.
  rewrite wait_all_valid by done.
  set (n := length (items procs)) in *.
  destruct (all_loop_done (items procs) T (T - now w) (replicate n None) w)
    with (fuel := fuel) as (r & w' & Hrun);
    [apply length_replicate|lia|done|lia|].
  destruct (all_loop_spec (items procs) fuel (replicate n None) w)
    as (w1 & _ & [Hspin|(r1 & Hret & Hl & Hfull & Hslot)]);
    [apply length_replicate|congruence|].
  rewrite Hrun in Hret. injection Hret as <- <-.
  assert (Hzero : forall j, j < n ->
            r !! j = Some (Some 0%Z) /\
            exists h, items procs !! j = Some h /\
                      returncode (objs w' h) = Some 0%Z).
  { intros j Hj. destruct (Hslot j) as [E|(_ & E & Hh)]; [|done].
    exfalso. rewrite lookup_replicate_2 in E by done.
    eapply Forall_lookup_1 in Hfull; [|exact E]. done. }
  exists r, w'. split_and!; [done| |].
  - apply list_eq. intros j. destruct (decide (j < n)) as [Hj|Hj].
    + rewrite lookup_replicate_2 by done. now apply Hzero.
    + rewrite (proj1 (lookup_replicate_None _ _ _)) by lia.
      apply lookup_ge_None. lia.
  - intros i h Hh. destruct (Hzero i) as (E & h' & Hh' & Hrc).
    { eapply lookup_lt_Some; eauto. }
    assert (h' = h) by congruence. subst h'. now rewrite E, Hrc.
Qed.

Lemma wait_all_returns_zeros_witness :
  exists fuel0, forall fuel, fuel0 <= fuel ->
    exists r w',
      subprocess_wait_all (Some (PyList 1 [2; 0; 1])) fuel
        (sample_world staggered no_fault) = (Returns r, w') /\
      r = [Some 0%Z; Some 0%Z; Some 0%Z] /\
      forall i h, [2; 0; 1] !! i = Some h ->
                  r !! i = Some (returncode (objs w' h)).
Proof.
  apply (wait_all_returns_zeros (PyList 1 [2; 0; 1])
           (sample_world staggered no_fault)); [reflexivity|].
  intros h _. exists (2 * h). split.
  - intros t _. unfold status, staggered. simpl.
    destruct (t <? h + (h + 0)); [now left|now right].
  - intros t Ht. unfold status, staggered. simpl.
    destruct (Nat.ltb_spec t (h + (h + 0))); [lia|done].
Defined.

(** C5. [subprocess_wait_any] returns the lowest position whose handle
    answers 0 in the sweep that ends the wait, together with that handle's
    [returncode], which is 0.  First, whenever the call returns [(i, rc)],
    every earlier sweep queried all handles without seeing 0, and the last
    sweep queried positions [0 .. i] in ascending order, saw no 0 below
    [i] and 0 at [i].  Second, if after [k] sweeps with every handle still
    running the handle at position [i] shows 0 during the next sweep and
    no handle below [i] does, the call returns [(i, 0)] whatever the
    handles above [i] show.  In particular, with six handles of which
    those at positions 2 and 5 show 0 during that sweep and the other four
    are still running, the call returns position 2. *)
Theorem wait_any_lowest_index :
  (forall procs fuel w i rc w',
     subprocess_wait_any (Some procs) fuel w = (Returns (i, rc), w') ->
     exists rss rs h,
       items procs !! i = Some h /\ rc = Some 0%Z /\
       returncode (objs w' h) = Some 0%Z /\
       length rs = i /\ Forall (fun r => r <> Some 0%Z) rs /\
       Forall (quiet_answers (items procs)) rss /\
       log w' = log w ++ sweeps [EvSleep] (items procs) rss
                      ++ polls (take i (items procs)) rs
                      ++ [EvPoll h (Some 0%Z)]) /\
  (forall procs k w i h,
     items procs !! i = Some h ->
     (forall h', h' ∈ items procs ->
        throughout (window (now w) (now w + k * S (length (items procs))))
                   (fun s => s = None) w h') ->
     throughout (window (now w + k * S (length (items procs)))
                        (now w + k * S (length (items procs)) + length (items procs)))
                (fun s => s = Some 0%Z) w h ->
     (forall j hj, j < i -> items procs !! j = Some hj ->
        throughout (window (now w + k * S (length (items procs)))
                           (now w + k * S (length (items procs)) + length (items procs)))
                   (fun s => s <> Some 0%Z) w hj) ->
     forall fuel, k < fuel ->
     exists w', subprocess_wait_any (Some procs) fuel w
                = (Returns (i, Some 0%Z), w')) /\
  (forall procs h0 h1 h2 h3 h4 h5 k w,
     items procs = [h0; h1; h2; h3; h4; h5] ->
     (forall h', h' ∈ items procs ->
        throughout (window (now w) (now w + k * 7)) (fun s => s = None) w h') ->
     (forall h', h' ∈ [h2; h5] ->
        throughout (window (now w + k * 7) (now w + k * 7 + 6))
                   (fun s => s = Some 0%Z) w h') ->
     (forall h', h' ∈ [h0; h1; h3; h4] ->
        throughout (window (now w + k * 7) (now w + k * 7 + 6))
                   (fun s => s = None) w h') ->
     forall fuel, k < fuel ->
     exists w', subprocess_wait_any (Some procs) fuel w
                = (Returns (2, Some 0%Z), w')).
Proof.
  assert (Hsuff : forall procs k w i h,
     items procs !! i = Some h ->
     (forall h', h' ∈ items procs ->
        throughout (window (now w) (now w + k * S (length (items procs))))
                   (fun s => s = None) w h') ->
     throughout (window (now w + k * S (length (items procs)))
                        (now w + k * S (length (items procs)) + length (items procs)))
                (fun s => s = Some 0%Z) w h ->
     (forall j hj, j < i -> items procs !! j = Some hj ->
        throughout (window (now w + k * S (length (items procs)))
                           (now w + k * S (length (items procs)) + length (items procs)))
                   (fun s => s <> Some 0%Z) w hj) ->
     forall fuel, k < fuel ->
     exists w', subprocess_wait_any (Some procs) fuel w
                = (Returns (i, Some 0%Z), w')).
  { intros procs k w i h Hh Hrun Hz Hnz fuel Hfuel.
    rewrite wait_any_valid by (apply lookup_lt_Some in Hh; lia).
    destruct (any_loop_first (items procs) k w i h Hh Hrun Hz Hnz fuel Hfuel)
      as (w' & Hloop & _). eauto. }
  split_and!; [|exact Hsuff|].
  - intros procs fuel w i rc w' Hrun.
    destruct (decide (0 < length (items procs))) as [Hpos|Hz].
    2:{ unfold subprocess_wait_any in Hrun.
        destruct (length (items procs)); [done|lia]. }
    rewrite wait_any_valid in Hrun by done.
    destruct (any_loop_spec (items procs) fuel w)
      as (w1 & rss & _ & Hq &
          [(Hspin & _)|(rs & h & Hret & _ & Hh & Hnz & Hrc & Hlog)]);
      [congruence|].
    rewrite Hrun in Hret. injection Hret as -> -> ->.
    exists rss, rs, h. by split_and!.
  - intros procs h0 h1 h2 h3 h4 h5 k w Hitems Hrun Hz Hnz fuel Hfuel.
    apply (Hsuff procs k w 2 h2); rewrite ?Hitems; simpl length; try done.
    + rewrite Hitems in Hrun. exact Hrun.
    + apply Hz. set_solver.
    + intros j hj Hj Hhj.
      apply (throughout_weaken _ _ _ _ w hj) with (3 := Hnz hj
        ltac:(destruct j as [|[|j]]; [injection Hhj as <-; set_solver
                                      |injection Hhj as <-; set_solver|lia]));
        [done|]. simpl. intros s ->. done.
Qed.

Lemma wait_any_lowest_index_witness :
  exists w', subprocess_wait_any (Some (PyList 1 [0; 1; 2; 3; 4; 5])) 2
               (sample_world two_and_five_at_7 no_fault)
             = (Returns (2, Some 0%Z), w').
Proof.
  destruct wait_any_lowest_index as (_ & _ & Hsix).
  apply (Hsix (PyList 1 [0; 1; 2; 3; 4; 5]) 0 1 2 3 4 5 1); [reflexivity| | | |lia].
  - intros h _ t [_ Ht]. rewrite status_sample. unfold two_and_five_at_7.
    destruct (Nat.leb_spec 7 t); [simpl in Ht; lia|]. now rewrite andb_false_r.
  - intros h Hin t [Ht _]. rewrite status_sample. unfold two_and_five_at_7.
    destruct (Nat.leb_spec 7 t); [|simpl in Ht; lia].
    apply elem_of_cons in Hin as [->|Hin]; [done|].
    apply list_elem_of_singleton in Hin as ->. done.
  - intros h Hin t _. rewrite status_sample. unfold two_and_five_at_7.
    repeat (apply elem_of_cons in Hin as [->|Hin]; [done|]). inversion Hin.
Defined.

Lemma located_lookup procs1 procs2 k g i h :
  located procs1 procs2 k g i ->
  (members procs1 ++ members procs2) !! k = Some h ->
  items g !! i = Some h.
Proof.
  intros [(-> & Hk & ->)|(-> & Hk & ->)] Hh; simpl in *.
  - now rewrite lookup_app_l in Hh.
  - now rewrite lookup_app_r in Hh.
Qed.

(** C6. In every polling cycle [subprocess_wait_multi] queries all of
    group 1 in ascending order and then all of group 2 in ascending order,
    and it returns the list object, the position within that list and the
    [returncode] (which is 0) of the first handle of a cycle that answers
    0.  First, whenever the call returns [(g, i, rc)], every earlier cycle
    queried group 1 then group 2 completely without seeing 0 and then
    slept, and the last cycle queried the first [k] positions of group 1
    followed by group 2 without seeing 0 and then saw 0 at position [k],
    which is position [i] of [g].  Second, if after [k] cycles with every
    handle still running the handle at position [p] of the cycle shows 0
    during the next cycle and no handle before it does, the call returns
    the group and position of [p].  In particular, with two running handles
    in group 1 and one handle in group 2 that shows 0, the call returns
    group 2, position 0, code 0. *)
Theorem wait_multi_scans_first_group_first :
  (forall procs1 procs2 fuel w g i rc w',
     subprocess_wait_multi procs1 procs2 fuel w = (Returns (g, i, rc), w') ->
     exists rss rs h,
       (members procs1 ++ members procs2) !! length rs = Some h /\
       located procs1 procs2 (length rs) g i /\
       items g !! i = Some h /\
       rc = Some 0%Z /\ returncode (objs w' h) = Some 0%Z /\
       Forall (fun r => r <> Some 0%Z) rs /\
       Forall (quiet_answers (members procs1 ++ members procs2)) rss /\
       log w' = log w ++ sweeps [EvSleep] (members procs1 ++ members procs2) rss
                      ++ polls (take (length rs) (members procs1 ++ members procs2)) rs
                      ++ [EvPoll h (Some 0%Z)]) /\
  (forall procs1 procs2 k w p h,
     (members procs1 ++ members procs2) !! p = Some h ->
     (forall h', h' ∈ members procs1 ++ members procs2 ->
        throughout
          (window (now w) (now w + k * S (length (members procs1 ++ members procs2))))
          (fun s => s = None) w h') ->
     throughout
       (window (now w + k * S (length (members procs1 ++ members procs2)))
               (now w + k * S (length (members procs1 ++ members procs2))
                + length (members procs1 ++ members procs2)))
       (fun s => s = Some 0%Z) w h ->
     (forall j hj, j < p -> (members procs1 ++ members procs2) !! j = Some hj ->
        throughout
          (window (now w + k * S (length (members procs1 ++ members procs2)))
                  (now w + k * S (length (members procs1 ++ members procs2))
                + length (members procs1 ++ members procs2)))
          (fun s => s <> Some 0%Z) w hj) ->
     forall fuel, k < fuel ->
     exists w' g i,
       subprocess_wait_multi procs1 procs2 fuel w = (Returns (g, i, Some 0%Z), w') /\
       located procs1 procs2 p g i) /\
  (forall groupA groupB a0 a1 b0 k w,
     items groupA = [a0; a1] -> items groupB = [b0] ->
     (forall h', h' ∈ [a0; a1; b0] ->
        throughout (window (now w) (now w + k * 4)) (fun s => s = None) w h') ->
     (forall h', h' ∈ [a0; a1] ->
        throughout (window (now w + k * 4) (now w + k * 4 + 3))
                   (fun s => s = None) w h') ->
     throughout (window (now w + k * 4) (now w + k * 4 + 3))
                (fun s => s = Some 0%Z) w b0 ->
     forall fuel, k < fuel ->
     exists w', subprocess_wait_multi (Some groupA) (Some groupB) fuel w
                = (Returns (groupB, 0, Some 0%Z), w')).
Proof.
  assert (Hvalid : forall procs1 procs2 p h,
            (members procs1 ++ members procs2) !! p = Some h ->
            invalid procs1 && invalid procs2 = false).
  { intros [l1|] [l2|] p h Hp; simpl in *; try done.
    - apply lookup_lt_Some in Hp. rewrite length_app in Hp.
      destruct (length (items l1)), (length (items l2)); simpl; try done. lia.
    - rewrite app_nil_r in Hp. apply lookup_lt_Some in Hp.
      destruct (length (items l1)); simpl; try done. lia.
    - apply lookup_lt_Some in Hp. destruct (length (items l2)); simpl; try done. lia. }
  assert (Hsuff : forall procs1 procs2 k w p h,
     (members procs1 ++ members procs2) !! p = Some h ->
     (forall h', h' ∈ members procs1 ++ members procs2 ->
        throughout
          (window (now w) (now w + k * S (length (members procs1 ++ members procs2))))
          (fun s => s = None) w h') ->
     throughout
       (window (now w + k * S (length (members procs1 ++ members procs2)))
               (now w + k * S (length (members procs1 ++ members procs2))
                + length (members procs1 ++ members procs2)))
       (fun s => s = Some 0%Z) w h ->
     (forall j hj, j < p -> (members procs1 ++ members procs2) !! j = Some hj ->
        throughout
          (window (now w + k * S (length (members procs1 ++ members procs2)))
                  (now w + k * S (length (members procs1 ++ members procs2))
                + length (members procs1 ++ members procs2)))
          (fun s => s <> Some 0%Z) w hj) ->
     forall fuel, k < fuel ->
     exists w' g i,
       subprocess_wait_multi procs1 procs2 fuel w = (Returns (g, i, Some 0%Z), w') /\
       located procs1 procs2 p g i).
  { intros procs1 procs2 k w p h Hp Hrun Hz Hnz fuel Hfuel.
    rewrite wait_multi_valid by (eapply Hvalid; eauto).
    destruct (multi_loop_first procs1 procs2 k w p h Hp Hrun Hz Hnz fuel Hfuel)
      as (w' & g & i & Hloop & Hloc & _). eauto. }
  split_and!; [|exact Hsuff|].
  - intros procs1 procs2 fuel w g i rc w' Hrun.
    destruct (invalid procs1 && invalid procs2) eqn:Hinv.
    { unfold subprocess_wait_multi in Hrun. now rewrite Hinv in Hrun. }
    rewrite wait_multi_valid in Hrun by done.
    destruct (multi_loop_spec procs1 procs2 fuel w)
      as (w1 & rss & _ & Hq &
          [(Hspin & _)|(rs & h & g' & i' & Hret & _ & Hh & Hloc & Hnz & Hrc & Hlog)]);
      [congruence|].
    rewrite Hrun in Hret. injection Hret as -> -> -> ->.
    exists rss, rs, h. split_and!; try done.
    eapply located_lookup; eauto.
  - intros groupA groupB a0 a1 b0 k w HA HB Hrun HrunA Hz fuel Hfuel.
    destruct (Hsuff (Some groupA) (Some groupB) k w 2 b0)
      with (fuel := fuel) as (w' & g & i & Hret & Hloc);
      simpl members; rewrite ?HA, ?HB; simpl length; try done.
    + intros j hj Hj Hhj.
      apply (throughout_weaken _ _ _ _ w hj) with (3 := HrunA hj
        ltac:(destruct j as [|[|j]]; [injection Hhj as <-; set_solver
                                      |injection Hhj as <-; set_solver|lia]));
        [done|]. simpl. intros s ->. done.
    + exists w'. rewrite Hret.
      destruct Hloc as [(_ & Hk & _)|(Hg & _ & ->)].
      * simpl in Hk. rewrite HA in Hk. simpl in Hk. lia.
      * injection Hg as <-. simpl. now rewrite HA.
Qed.

Lemma wait_multi_scans_first_group_first_witness :
  exists w', subprocess_wait_multi (Some (PyList 1 [0; 1])) (Some (PyList 2 [2])) 2
               (sample_world two_at_4 no_fault)
             = (Returns (PyList 2 [2], 0, Some 0%Z), w').
Proof.
  destruct wait_multi_scans_first_group_first as (_ & _ & Hex).
  apply (Hex (PyList 1 [0; 1]) (PyList 2 [2]) 0 1 2 1); try reflexivity; [| | |lia].
  - intros h _ t [_ Ht]. rewrite status_sample. unfold two_at_4.
    destruct (Nat.leb_spec 4 t); [simpl in Ht; lia|]. now rewrite andb_false_r.
  - intros h Hin t _. rewrite status_sample. unfold two_at_4.
    repeat (apply elem_of_cons in Hin as [->|Hin]; [done|]). inversion Hin.
  - intros t [Ht _]. rewrite status_sample. unfold two_at_4.
    destruct (Nat.leb_spec 4 t); [done|simpl in Ht; lia].
Defined.

(** C10. The first component of the result of [subprocess_wait_multi] is
    the list object that was passed in, not a tag: when the handle that
    ended the wait was found while scanning group 1 the result carries the
    very object given as [procs1], with the position of the handle in it,
    and when it was found while scanning group 2 it carries the object
    given as [procs2]. *)
Theorem wait_multi_returns_list_object :
  forall procs1 procs2 fuel w g i rc w',
    subprocess_wait_multi procs1 procs2 fuel w = (Returns (g, i, rc), w') ->
    exists k h evs,
      log w' = log w ++ evs ++ [EvPoll h (Some 0%Z)] /\
      (members procs1 ++ members procs2) !! k = Some h /\
      items g !! i = Some h /\
      ((k < length (members procs1) /\ procs1 = Some g /\ i = k) \/
       (length (members procs1) <= k /\ procs2 = Some g /\
        i = k - length (members procs1))).
Proof.
  intros procs1 procs2 fuel w g i rc w' Hrun.
  destruct (invalid procs1 && invalid procs2) eqn:Hinv.
  { unfold subprocess_wait_multi in Hrun. now rewrite Hinv in Hrun. }
  rewrite wait_multi_valid in Hrun by done.
  destruct (multi_loop_spec procs1 procs2 fuel w)
    as (w1 & rss & _ & Hq &
        [(Hspin & _)|(rs & h & g' & i' & Hret & _ & Hh & Hloc & Hnz & Hrc & Hlog)]);
    [congruence|].
  rewrite Hrun in Hret. injection Hret as -> -> -> ->.
  exists (length rs), h,
    (sweeps [EvSleep] (members procs1 ++ members procs2) rss
       ++ polls (take (length rs) (members procs1 ++ members procs2)) rs).
  split_and!; [now rewrite <- app_assoc|done|eapply located_lookup; eauto|].
  destruct Hloc as [(? & ? & ?)|(? & ? & ?)]; [left|right]; done.
Qed.

Lemma wait_multi_returns_list_object_witness :
  exists k h evs,
    log (snd (subprocess_wait_multi (Some (PyList 1 [0; 2])) (Some (PyList 2 [0; 2])) 2
                (sample_world only_two no_fault)))
      = log (sample_world only_two no_fault) ++ evs ++ [EvPoll h (Some 0%Z)] /\
    (members (Some (PyList 1 [0; 2])) ++ members (Some (PyList 2 [0; 2]))) !! k
      = Some h /\
    items (PyList 1 [0; 2]) !! 1 = Some h /\
    ((k < length (members (Some (PyList 1 [0; 2]))) /\
      Some (PyList 1 [0; 2]) = Some (PyList 1 [0; 2]) /\ 1 = k) \/
     (length (members (Some (PyList 1 [0; 2]))) <= k /\
      Some (PyList 2 [0; 2]) = Some (PyList 1 [0; 2]) /\
      1 = k - length (members (Some (PyList 1 [0; 2]))))).
Proof.
  apply (wait_multi_returns_list_object
           (Some (PyList 1 [0; 2])) (Some (PyList 2 [0; 2])) 2
           (sample_world only_two no_fault) (PyList 1 [0; 2]) 1 (Some 0%Z)).
  vm_compute. reflexivity.
Defined.

(** C4 (as amended). Capture is at most once per position of the list: at
    a position whose slot is filled the loop body performs no status query
    and no assignment; a filled slot keeps its value through every sweep
    and through the rest of the loop; and when the handles of the list are
    pairwise distinct, a status query of a handle that answers 0 (the one
    whose result is recorded) is the last status query of that handle in
    the whole call, however long the call runs. *)
Theorem capture_once_per_position :
  (forall procs rcodes i c w,
     rcodes !! i = Some (Some c) ->
     all_step procs rcodes i w = (Returns rcodes, w)) /\
  (forall procs rcodes k n w rcodes' w' j c,
     k + n <= length procs -> length rcodes = length procs ->
     all_scan procs rcodes k n w = (Returns rcodes', w') ->
     rcodes !! j = Some (Some c) -> rcodes' !! j = Some (Some c)) /\
  (forall procs rcodes fuel w r w' j c,
     length rcodes = length procs ->
     all_loop procs rcodes fuel w = (Returns r, w') ->
     rcodes !! j = Some (Some c) -> r !! j = Some (Some c)) /\
  (forall procs fuel w out w',
     NoDup (items procs) ->
     subprocess_wait_all (Some procs) fuel w = (out, w') ->
     exists evs, log w' = log w ++ evs /\ captured_once evs).
Proof.
  split_and!.
  - intros procs rcodes i c w Hc. now apply (all_step_filled _ _ _ c).
  - intros procs rcodes k n w rcodes' w' j c Hlen Hrc Hrun Hj.
    destruct (all_scan_spec procs n k rcodes w Hlen Hrc)
      as (r1 & w1 & Hrun1 & _ & _ & _ & Hslot & _).
    rewrite Hrun in Hrun1. injection Hrun1 as <- <-.
    destruct (Hslot j) as [E|(_ & E & _)]; congruence.
  - intros procs rcodes fuel w r w' j c Hrc Hrun Hj.
    destruct (all_loop_spec procs fuel rcodes w Hrc)
      as (w1 & _ & [Hspin|(r1 & Hret & _ & _ & Hslot)]); [congruence|].
    rewrite Hrun in Hret. injection Hret as <- <-.
    destruct (Hslot j) as [E|(E & _)]; congruence.
  - intros procs fuel w out w' Hnd Hrun.
    destruct (decide (0 < length (items procs))) as [Hpos|Hz].
    + rewrite wait_all_valid in Hrun by done.
      destruct (all_loop_events (items procs) fuel Hnd _ _ _ _
                  (length_replicate _ _) Hrun) as (evs & Hlog & Hco & _).
      eauto.
    + unfold subprocess_wait_all in Hrun.
      destruct (length (items procs)); [|lia].
      injection Hrun as <- <-. exists []. rewrite app_nil_r.
      split; [done|apply captured_once_nil].
Qed.

Lemma capture_once_per_position_witness :
  exists evs,
    log (snd (subprocess_wait_all (Some (PyList 1 [2; 0; 1])) 5
                (sample_world staggered no_fault)))
      = log (sample_world staggered no_fault) ++ evs /\
    captured_once evs.
Proof.
  destruct capture_once_per_position as (_ & _ & _ & Hlog).
  apply (Hlog (PyList 1 [2; 0; 1]) 5 (sample_world staggered no_fault)
           (fst (subprocess_wait_all (Some (PyList 1 [2; 0; 1])) 5
                   (sample_world staggered no_fault)))).
  - apply (bool_decide_unpack _). vm_compute. exact I.
  - vm_compute. reflexivity.
Defined.

(** A handle that occupies two positions of the list is queried again
    after its exit code has been recorded: with the list [[7; 7]] and a
    process that exits between the two queries of the first sweep, the
    first sweep records the code in slot 1 and the second sweep queries
    the handle once more to fill slot 0. *)
Lemma repeated_handle_is_queried_again :
  ~ (forall procs fuel w out w',
       subprocess_wait_all (Some procs) fuel w = (out, w') ->
       exists evs, log w' = log w ++ evs /\ captured_once evs).
Proof.
  intros H.
  destruct (H (PyList 1 [7; 7]) 3 (sample_world late_zero no_fault) _ _ eq_refl)
    as (evs & Hlog & Hco).
  vm_compute in Hlog. subst evs.
  specialize (Hco [EvPoll 7 None] [EvSleep; EvPoll 7 (Some 0%Z)] 7 eq_refl).
  apply Forall_cons in Hco as [_ Hco]. apply Forall_cons in Hco as [Hco _].
  apply Hco. now exists (Some 0%Z).
Qed.

(** * The launchers *)

Lemma swo_unfold cmd shell cwd so fuel w :
  subprocess_with_output cmd shell cwd so fuel w =
  match try_finally (with_output_try cmd shell cwd so fuel) with_output_finally
          (empty_frame, w) with
  | (Returns _, (fr, w')) =>
      match proc fr with
      | Some p => (Returns (returncode (objs w' p)), w')
      | None => (Raises UnboundLocalError, w')
      end
  | (Raises e, (_, w')) => (Raises e, w')
  | (Spins, (_, w')) => (Spins, w')
  end.
Proof.
  unfold subprocess_with_output, with_frame, bind at 1.
  destruct (try_finally _ _ _) as [[[]|e|] [fr w']]; try done.
  unfold bind, get_proc, lift, get_returncode. simpl.
  destruct (proc fr); done.
Qed.

Lemma closed_file_gone f g (fs : list nat) :
  g ∈ filter (fun x => negb (x =? f)) (f :: fs) -> g ∈ fs /\ g <> f.
Proof.
  intros Hin. apply list_elem_of_filter in Hin as [Hne Hin].
  apply negb_prop_elim in Hne.
  assert (g <> f) by (intros ->; apply Hne; now rewrite Nat.eqb_refl).
  split; [|done]. apply elem_of_cons in Hin as [->|Hin]; done.
Qed.

(** Case analysis on the next undecided answer of the environment. *)
Ltac split_scrutinee H :=
  match type of H with
  | context [match ?x with _ => _ end] =>
      lazymatch x with
      | context [match _ with _ => _ end] => fail
      | _ => destruct x eqn:?
      end
  end.

(** How each exit path of [subprocess_with_output] is settled once the
    answers of the environment are known. *)
Ltac settle_exit_path :=
  simpl; split_and!;
  try (intros g Hg; apply closed_file_gone in Hg as [Hg _]; exact Hg);
  try (intros Hc;
       match goal with
       | H : fault _ SysClose _ = Some _ |- _ => rewrite Hc in H; discriminate
       end);
  try (intros e' _ _ Hc;
       match goal with
       | H : fault _ SysClose _ = Some _ |- _ =>
           rewrite Hc in H; now injection H as ->
       | H : fault _ SysClose _ = None |- _ => rewrite Hc in H; discriminate
       end);
  try (intros; assumption);
  try (intros; reflexivity);
  try (intros; discriminate);
  try (intros _; eexists; rewrite fn_lookup_insert; reflexivity);
  try (exists []; split;
       [now rewrite app_nil_r|intros f Hf; inversion Hf]);
  try (eexists; split; [rewrite <- ?app_assoc; simpl; reflexivity|];
       intros f Hf;
       repeat (apply elem_of_cons in Hf as [Hf|Hf];
               [try discriminate; try (injection Hf as ->)|]);
       first
         [ now inversion Hf
         | split; [reflexivity|];
           intros Hin; apply closed_file_gone in Hin as [_ Hne]; done ]).

(** C7 (as amended). Whenever [subprocess_with_output] completes, by
    returning or by raising, no file object opened by the call is left
    open: if the discard sink was opened, closing it is the last thing the
    call did.  If the close itself does not raise, what the call delivers
    is the outcome of the [try] block: the error raised by the spawn or by
    the wait, or else the exit code.  If the sink was opened and the close
    raises, the exception of the close is what the call raises. *)
Theorem devnull_closed_on_every_exit :
  forall cmd shell cwd suppress_output fuel w out w',
    subprocess_with_output cmd shell cwd suppress_output fuel w = (out, w') ->
    out <> Spins ->
    (forall f, f ∈ files w' -> f ∈ files w) /\
    (exists evs,
       log w' = log w ++ evs /\
       forall f, EvOpen f ∈ evs ->
                 last evs = Some (EvClose f) /\ f ∉ files w') /\
    ((forall t, fault w SysClose t = None) ->
     match fst (with_output_try cmd shell cwd suppress_output fuel
                  (empty_frame, w)) with
     | Raises e => out = Raises e
     | Returns _ => exists c, out = Returns (Some c)
     | Spins => False
     end) /\
    (forall e', suppress_output = true ->
       fault w SysOpen (now w) = None ->
       (forall t, fault w SysClose t = Some e') ->
       out = Raises e').
Proof.
  intros cmd shell cwd so fuel w out w' Hrun Hout.
  rewrite swo_unfold in Hrun.
  unfold try_finally, with_output_try, with_output_finally, bind, lift,
    open_devnull, set_devnull, get_devnull, get_proc, set_proc,
    Popen_new, Popen_wait, file_close, ret in *.
  destruct so; simpl in *.
  - repeat (split_scrutinee Hrun; simpl in * ).
    all: try (injection Hrun as <- <-).
    all: try done.
    all: settle_exit_path.
  - repeat (split_scrutinee Hrun; simpl in * ).
    all: try (injection Hrun as <- <-).
    all: try done.
    all: settle_exit_path.
Qed.

Lemma devnull_closed_on_every_exit_witness :
  (forall f,
     f ∈ files (snd (subprocess_with_output "ls" false None true 5
                       (sample_world all_failed spawn_fails))) ->
     f ∈ files (sample_world all_failed spawn_fails)) /\
  fst (subprocess_with_output "ls" false None true 5
         (sample_world all_failed spawn_fails)) = Raises (OSError 2).
Proof.
  destruct (devnull_closed_on_every_exit "ls" false None true 5
              (sample_world all_failed spawn_fails)
              (fst (subprocess_with_output "ls" false None true 5
                      (sample_world all_failed spawn_fails)))
              (snd (subprocess_with_output "ls" false None true 5
                      (sample_world all_failed spawn_fails))))
    as (Hfiles & _ & Hout & _).
  - apply surjective_pairing.
  - vm_compute. discriminate.
  - split; [exact Hfiles|]. apply Hout. reflexivity.
Defined.

(** A close that fails hides the failure of the spawn: with an environment
    in which spawning raises [OSError 2] and closing raises [OSError 5],
    the [try] block raises [OSError 2] and the call raises [OSError 5]. *)
Lemma close_failure_replaces_spawn_failure :
  ~ (forall cmd shell cwd suppress_output fuel w out w' e,
       subprocess_with_output cmd shell cwd suppress_output fuel w = (out, w') ->
       fst (with_output_try cmd shell cwd suppress_output fuel (empty_frame, w))
         = Raises e ->
       out = Raises e).
Proof.
  intros H.
  specialize (H "ls"%string false None true 5
                (sample_world all_failed spawn_and_close_fail)
                _ _ (OSError 2) eq_refl eq_refl).
  vm_compute in H. discriminate.
Qed.

(** C8. When the spawn succeeds, [subprocess_nowait_pipe_stdout] returns
    a [Popen] object whose [stdout] attribute is the read end of a pipe
    whose write end is the standard output of the child it describes,
    while the child's standard error is the caller's descriptor 2 and the
    object has no [stderr] stream, exactly as for the child and the object
    [subprocess_nowait] creates from the same arguments; the latter's
    standard output is the caller's descriptor 1 and it has no [stdout]
    stream.  When the spawn fails, both raise the same error. *)
Theorem pipe_stdout_leaves_stderr_inherited :
  forall cmd shell cwd env w,
    (fault w SysSpawn (now w) = None ->
     exists h w1 w2 c1 c2 p,
       subprocess_nowait_pipe_stdout cmd shell cwd env w = (Returns h, w1) /\
       subprocess_nowait cmd shell cwd env w = (Returns h, w2) /\
       children w1 = children w ++ [c1] /\
       children w2 = children w ++ [c2] /\
       c_pid c1 = pid (objs w1 h) /\ c_pid c2 = pid (objs w2 h) /\
       returncode (objs w1 h) = None /\
       stdout (objs w1 h) = Some (PipeR p) /\ c_out c1 = PipeW p /\
       stdout (objs w2 h) = None /\ c_out c2 = Inherited 1 /\
       c_err c1 = Inherited 2 /\ c_err c2 = Inherited 2 /\
       stderr (objs w1 h) = None /\ stderr (objs w2 h) = None /\
       c_in c1 = Inherited 0 /\ c_in c2 = Inherited 0 /\
       stdin (objs w1 h) = None /\ stdin (objs w2 h) = None) /\
    (forall e, fault w SysSpawn (now w) = Some e ->
       subprocess_nowait_pipe_stdout cmd shell cwd env w = (Raises e, pass w) /\
       subprocess_nowait cmd shell cwd env w = (Raises e, pass w)).
Proof.
  intros cmd shell cwd env w.
  unfold subprocess_nowait_pipe_stdout, subprocess_nowait, Popen_new. simpl.
  split.
  - intros ->. do 6 eexists. split; [reflexivity|]. split; [reflexivity|].
    simpl. rewrite !fn_lookup_insert. simpl. by split_and!.
  - intros e ->. done.
Qed.

Lemma pipe_stdout_leaves_stderr_inherited_witness :
  exists h w1 c1 p,
    subprocess_nowait_pipe_stdout "ls" false None None
      (sample_world staggered no_fault) = (Returns h, w1) /\
    children w1 = [c1] /\
    stdout (objs w1 h) = Some (PipeR p) /\ c_out c1 = PipeW p /\
    c_err c1 = Inherited 2 /\ stderr (objs w1 h) = None.
Proof.
  destruct (proj1 (pipe_stdout_leaves_stderr_inherited "ls" false None None
                     (sample_world staggered no_fault)) eq_refl)
    as (h & w1 & w2 & c1 & c2 & p & H1 & _ & Hc1 & _ & _ & _ & _ &
        Hout & Hcout & _ & _ & Herr & _ & Hserr & _).
  exists h, w1, c1, p. by split_and!.
Defined.

(** * Further properties of the launchers *)

(** [subprocess_attach_stdin]: when the spawn succeeds, the returned
    [Popen] object has as [stdin] the write end of a pipe whose read end
    is the standard input of the child; the child's standard output and
    error are the caller's descriptors 1 and 2 and the object has no
    [stdout] or [stderr] stream.  The call only spawns: it does not wait,
    and the object's [returncode] is still [None]. *)
Theorem attach_stdin_pipes_only_stdin :
  forall cmd shell w,
    fault w SysSpawn (now w) = None ->
    exists h w1 c p,
      subprocess_attach_stdin cmd shell w = (Returns h, w1) /\
      children w1 = children w ++ [c] /\
      c_pid c = pid (objs w1 h) /\
      stdin (objs w1 h) = Some (PipeW p) /\ c_in c = PipeR p /\
      c_out c = Inherited 1 /\ c_err c = Inherited 2 /\
      stdout (objs w1 h) = None /\ stderr (objs w1 h) = None /\
      a_cwd (c_args c) = None /\ a_env (c_args c) = None /\
      returncode (objs w1 h) = None /\
      log w1 = log w ++ [EvSpawn h] /\ files w1 = files w.
Proof.
  intros cmd shell w Hf.
  unfold subprocess_attach_stdin, Popen_new. simpl. rewrite Hf.
  do 4 eexists. split; [reflexivity|].
  simpl. rewrite !fn_lookup_insert. simpl. by split_and!.
Qed.

Lemma attach_stdin_pipes_only_stdin_witness :
  exists h w1 c p,
    subprocess_attach_stdin "cat" false (sample_world staggered no_fault)
      = (Returns h, w1) /\
    children w1 = [c] /\
    stdin (objs w1 h) = Some (PipeW p) /\ c_in c = PipeR p /\
    c_out c = Inherited 1 /\ c_err c = Inherited 2.
Proof.
  destruct (attach_stdin_pipes_only_stdin "cat" false
              (sample_world staggered no_fault) eq_refl)
    as (h & w1 & c & p & H1 & Hc & _ & Hin & Hcin & Hout & Herr & _).
  exists h, w1, c, p. by split_and!.
Defined.

Lemma await_spec st fuel : forall t0 t c,
  await st t0 fuel = Some (t, c) ->
  st t = Some c /\ t0 <= t < t0 + fuel /\
  forall t', t0 <= t' < t -> st t' = None.
Proof.
  induction fuel as [|fuel IH]; intros t0 t c H; [done|].
  simpl in H. destruct (st t0) as [c0|] eqn:E.
  - injection H as <- <-. split_and!; [done|lia|lia|intros; lia].
  - apply IH in H as (Hst & Ht & Hnone). split_and!; [done|lia|lia|].
    intros t' Ht'. destruct (decide (t' = t0)) as [->|Hne]; [done|].
    apply Hnone. lia.
Qed.

Lemma await_found st fuel : forall t0 t c,
  st t = Some c -> (forall t', t0 <= t' < t -> st t' = None) ->
  t0 <= t < t0 + fuel ->
  await st t0 fuel = Some (t, c).
Proof.
  induction fuel as [|fuel IH]; intros t0 t c Hst Hnone Ht; [lia|].
  simpl. destruct (decide (t = t0)) as [->|Hne].
  - now rewrite Hst.
  - rewrite Hnone by lia. apply IH; [done| |lia].
    intros t' Ht'. apply Hnone. lia.
Qed.

(** [subprocess_with_output]: the statement [return proc.returncode] after
    the [try] never finds [proc] unbound, and what it returns is an exit
    code: the first terminal status its child shows from the moment the
    wait starts, which is also what the child's [Popen] object has cached.
    At most one child is spawned. *)
Theorem with_output_returns_child_exit_code :
  forall cmd shell cwd suppress_output fuel w out w',
    (forall k t, fault w k t <> Some UnboundLocalError) ->
    subprocess_with_output cmd shell cwd suppress_output fuel w = (out, w') ->
    out <> Raises UnboundLocalError /\
    (forall r, out = Returns r ->
       exists child c t,
         r = Some c /\
         children w' = children w ++ [child] /\
         returncode (objs w' (c_pid child)) = Some c /\
         host w (c_pid child) t = Some c /\
         now w <= t < now w' /\
         forall t', now w + (if suppress_output then 2 else 1) <= t' < t ->
                    host w (c_pid child) t' = None).
Proof.
  intros cmd shell cwd so fuel w out w' Hnf Hrun.
  rewrite swo_unfold in Hrun.
  unfold try_finally, with_output_try, with_output_finally, bind, lift,
    open_devnull, set_devnull, get_devnull, get_proc, set_proc,
    Popen_new, Popen_wait, file_close, ret in *.
  destruct so; simpl in *.
  - repeat (split_scrutinee Hrun; simpl in * ).
    all: try (injection Hrun as <- <-).
    all: try done.
    all: split; [try done; intros [= ->]; eapply Hnf; eauto|]; try done.
    intros r Hr. injection Hr as <-.
    match goal with H : await _ _ _ = Some _ |- _ =>
      apply await_spec in H as (Hst & Ht & Hnone) end.
    unfold status in Hst, Hnone. simpl in Hst, Hnone.
    rewrite fn_lookup_insert in Hst, Hnone. simpl in Hst, Hnone.
    do 3 eexists. simpl. rewrite !fn_lookup_insert. simpl.
    split_and!;
      (simpl; rewrite ?fn_lookup_insert; simpl;
       try first [reflexivity|exact Hst|lia|intros t' Ht'; apply Hnone; lia]).
    simpl. rewrite fn_lookup_insert. reflexivity.
  - repeat (split_scrutinee Hrun; simpl in * ).
    all: try (injection Hrun as <- <-).
    all: try done.
    all: split; [try done; intros [= ->]; eapply Hnf; eauto|]; try done.
    intros r Hr. injection Hr as <-.
    match goal with H : await _ _ _ = Some _ |- _ =>
      apply await_spec in H as (Hst & Ht & Hnone) end.
    unfold status in Hst, Hnone. simpl in Hst, Hnone.
    rewrite fn_lookup_insert in Hst, Hnone. simpl in Hst, Hnone.
    do 3 eexists. simpl. rewrite !fn_lookup_insert. simpl.
    split_and!;
      (simpl; rewrite ?fn_lookup_insert; simpl;
       try first [reflexivity|exact Hst|lia|intros t' Ht'; apply Hnone; lia]).
    simpl. rewrite fn_lookup_insert. reflexivity.
Qed.

Lemma with_output_returns_child_exit_code_witness :
  fst (subprocess_with_output "ls" false None true 9
         (sample_world (exits_at 5 3) no_fault)) <> Raises UnboundLocalError /\
  exists child c t,
    Some 3%Z = Some c /\
    children (snd (subprocess_with_output "ls" false None true 9
                     (sample_world (exits_at 5 3) no_fault)))
      = children (sample_world (exits_at 5 3) no_fault) ++ [child] /\
    exits_at 5 3 (c_pid child) t = Some c.
Proof.
  destruct (with_output_returns_child_exit_code "ls" false None true 9
              (sample_world (exits_at 5 3) no_fault)
              (fst (subprocess_with_output "ls" false None true 9
                      (sample_world (exits_at 5 3) no_fault)))
              (snd (subprocess_with_output "ls" false None true 9
                      (sample_world (exits_at 5 3) no_fault))))
    as (Hnot & Hret).
  - intros k t. discriminate.
  - apply surjective_pairing.
  - split; [exact Hnot|].
    destruct (Hret (Some 3%Z)) as (child & c & t & Hc & Hch & _ & Hhost & _).
    + vm_compute. reflexivity.
    + exists child, c, t. by split_and!.
Defined.

Lemma await_exits_at (st : nat -> option Z) T c t0 fuel :
  (forall t, st t = if t <? T then None else Some c) ->
  0 < fuel -> T < t0 + fuel ->
  await st t0 fuel = Some (t0 `max` T, c).
Proof.
  intros Hst Hfuel HT. apply await_found.
  - rewrite Hst. destruct (Nat.ltb_spec (t0 `max` T) T); [lia|done].
  - intros t' Ht'. rewrite Hst. destruct (Nat.ltb_spec t' T); [done|lia].
  - lia.
Qed.

(** [subprocess_with_output]: suppressing the output does not change what
    is returned.  When the environment raises nothing and the child runs
    until instant [T] and then exits with code [c], the call returns [c]
    with and without [suppress_output], provided the wait is given the
    time to see the exit. *)
Theorem suppress_output_keeps_exit_code :
  forall cmd shell cwd suppress_output fuel w T c,
    (forall k t, fault w k t = None) ->
    (forall p t, host w p t = if t <? T then None else Some c) ->
    0 < fuel -> T < now w + fuel ->
    exists w',
      subprocess_with_output cmd shell cwd suppress_output fuel w
        = (Returns (Some c), w').
Proof.
  intros cmd shell cwd so fuel w T c Hf Hh Hfuel HT.
  destruct so; eexists; rewrite swo_unfold;
    unfold try_finally, with_output_try, with_output_finally, bind, lift,
      open_devnull, set_devnull, get_devnull, get_proc, set_proc,
      Popen_new, Popen_wait, file_close, ret;
    simpl; rewrite ?Hf; simpl; rewrite ?Hf; simpl.
  - rewrite (await_exits_at _ T c); [| |done|lia].
    2:{ intros t. unfold status. simpl. rewrite fn_lookup_insert. simpl. apply Hh. }
    repeat (progress (simpl; rewrite ?Hf)).
    simpl. rewrite !fn_lookup_insert. simpl. reflexivity.
  - rewrite (await_exits_at _ T c); [| |done|lia].
    2:{ intros t. unfold status. simpl. rewrite fn_lookup_insert. simpl. apply Hh. }
    repeat (progress (simpl; rewrite ?Hf)).
    simpl. rewrite !fn_lookup_insert. simpl. reflexivity.
Qed.

Lemma suppress_output_keeps_exit_code_witness :
  (exists w', subprocess_with_output "ls" false None true 9
                (sample_world (exits_at 5 3) no_fault) = (Returns (Some 3%Z), w')) /\
  (exists w', subprocess_with_output "ls" false None false 9
                (sample_world (exits_at 5 3) no_fault) = (Returns (Some 3%Z), w')).
Proof.
  split; apply (suppress_output_keeps_exit_code _ _ _ _ 9 _ 5 3);
    try reflexivity; simpl; lia.
Defined.

(** Membership and non-membership in an explicit list of events. *)
Ltac event_in := repeat first [apply list_elem_of_here|apply list_elem_of_further].
Ltac event_not_in :=
  let Hin := fresh "Hin" in
  intros Hin;
  repeat (apply elem_of_cons in Hin as [Hin|Hin]; [discriminate|]);
  inversion Hin.

(** [subprocess_with_output]: where the child's output goes.  The call
    spawns at most one child.  With [suppress_output] the child's standard
    output and standard error both point to the file object the call
    opened, and its standard input is the caller's; without it all three
    are the caller's descriptors, no file is opened or closed and the set
    of open files is untouched. *)
Theorem with_output_child_streams :
  forall cmd shell cwd suppress_output fuel w out w',
    subprocess_with_output cmd shell cwd suppress_output fuel w = (out, w') ->
    exists evs,
      log w' = log w ++ evs /\
      (children w' = children w \/
       exists child,
         children w' = children w ++ [child] /\
         EvSpawn (c_pid child) ∈ evs /\
         c_in child = Inherited 0 /\
         if suppress_output
         then exists f, EvOpen f ∈ evs /\
                        c_out child = FileObj f /\ c_err child = FileObj f
         else c_out child = Inherited 1 /\ c_err child = Inherited 2) /\
      (suppress_output = false ->
       files w' = files w /\
       forall f, (EvOpen f ∉ evs) /\ (EvClose f ∉ evs)).
Proof.
  intros cmd shell cwd so fuel w out w' Hrun.
  rewrite swo_unfold in Hrun.
  unfold try_finally, with_output_try, with_output_finally, bind, lift,
    open_devnull, set_devnull, get_devnull, get_proc, set_proc,
    Popen_new, Popen_wait, file_close, ret in *.
  destruct so; simpl in *.
  - repeat (split_scrutinee Hrun; simpl in * ).
    all: injection Hrun as <- <-.
    all: simpl.
    all: first
      [ exists []; split; [now rewrite app_nil_r|]; split; [now left|done]
      | eexists; split; [rewrite <- ?app_assoc; simpl; reflexivity|];
        split; [|done];
        first
          [ now left
          | right; eexists; split; [reflexivity|];
            split; [event_in|]; split; [reflexivity|];
            eexists; split; [|split; reflexivity]; event_in ] ].
  - repeat (split_scrutinee Hrun; simpl in * ).
    all: injection Hrun as <- <-.
    all: simpl.
    all: first
      [ exists []; split; [now rewrite app_nil_r|]; split; [now left|];
        intros _; split; [reflexivity|]; intros f; split; event_not_in
      | eexists; split; [rewrite <- ?app_assoc; simpl; reflexivity|];
        split;
        [ right; eexists; split; [reflexivity|];
          split; [event_in|]; by split_and!
        | intros _; split; [reflexivity|]; intros f; split; event_not_in ] ].
Qed.

Lemma with_output_child_streams_witness :
  exists evs,
    log (snd (subprocess_with_output "ls" false None false 9
                (sample_world (exits_at 5 3) no_fault)))
      = log (sample_world (exits_at 5 3) no_fault) ++ evs /\
    files (snd (subprocess_with_output "ls" false None false 9
                  (sample_world (exits_at 5 3) no_fault)))
      = files (sample_world (exits_at 5 3) no_fault).
Proof.
  destruct (with_output_child_streams "ls" false None false 9
              (sample_world (exits_at 5 3) no_fault) _ _
              (surjective_pairing _))
    as (evs & Hlog & _ & Hfiles).
  exists evs. split; [exact Hlog|]. now apply Hfiles.
Defined.

(** * Further properties of the wait operations *)

Lemma multi_scan_invalid procs w :
  invalid procs = true -> multi_scan procs w = (Returns None, w).
Proof.
  destruct procs as [l|]; simpl; [|done].
  intros H. apply Nat.eqb_eq in H. now rewrite H.
Qed.

Lemma multi_loop_second_only procs l fuel : forall w,
  invalid procs = true ->
  multi_loop procs (Some l) fuel w =
  (match fst (any_loop (items l) fuel w) with
   | Returns (i, rc) => Returns (l, i, rc)
   | Raises e => Raises e
   | Spins => Spins
   end, snd (any_loop (items l) fuel w)).
Proof.
  induction fuel as [|fuel IH]; intros w Hinv; [done|].
  rewrite multi_loop_S, any_loop_S, multi_scan_invalid by done.
  rewrite multi_scan_members. simpl members.
  destruct (any_scan (items l) 0 (length (items l)) w) as [[[[i rc]|]|e|] w1];
    try done.
  now apply IH.
Qed.

Lemma multi_loop_first_only procs l fuel : forall w,
  invalid procs = true ->
  multi_loop (Some l) procs fuel w =
  (match fst (any_loop (items l) fuel w) with
   | Returns (i, rc) => Returns (l, i, rc)
   | Raises e => Raises e
   | Spins => Spins
   end, snd (any_loop (items l) fuel w)).
Proof.
  induction fuel as [|fuel IH]; intros w Hinv; [done|].
  rewrite multi_loop_S, any_loop_S.
  rewrite multi_scan_members. simpl members.
  destruct (any_scan (items l) 0 (length (items l)) w) as [[[[i rc]|]|e|] w1];
    try done.
  rewrite multi_scan_invalid by done. now apply IH.
Qed.

(** [subprocess_wait_multi] with one group [None] or empty behaves as
    [subprocess_wait_any] on the other group: same status queries, same
    sleeps, same final world, and the same position and exit code, to
    which the list object of the other group is added.  This holds
    whichever of the two arguments is the unusable one. *)
Theorem wait_multi_with_one_group_is_wait_any :
  forall procs l fuel w,
    invalid procs = true -> invalid (Some l) = false ->
    subprocess_wait_multi procs (Some l) fuel w =
      (match fst (subprocess_wait_any (Some l) fuel w) with
       | Returns (i, rc) => Returns (l, i, rc)
       | Raises e => Raises e
       | Spins => Spins
       end, snd (subprocess_wait_any (Some l) fuel w)) /\
    subprocess_wait_multi (Some l) procs fuel w =
      subprocess_wait_multi procs (Some l) fuel w.
Proof.
  intros procs l fuel w Hinv Hval.
  assert (Hpos := proj1 (invalid_false_length l) Hval).
  rewrite !wait_multi_valid by (rewrite Hval; destruct (invalid procs); done).
  rewrite wait_any_valid by done.
  rewrite multi_loop_first_only, multi_loop_second_only by done. done.
Qed.

Lemma wait_multi_with_one_group_is_wait_any_witness :
  subprocess_wait_multi None (Some (PyList 2 [0; 2])) 3
    (sample_world only_two no_fault)
  = (Returns (PyList 2 [0; 2], 1, Some 0%Z),
     snd (subprocess_wait_any (Some (PyList 2 [0; 2])) 3
            (sample_world only_two no_fault))).
Proof.
  exact (proj1 (wait_multi_with_one_group_is_wait_any None (PyList 2 [0; 2]) 3
                  (sample_world only_two no_fault) eq_refl eq_refl)).
Defined.

(** The only exception [subprocess_wait_all] and [subprocess_wait_any]
    raise is the [ValueError] for a [None] or empty list: on a usable list
    the indices the loops use are always in range. *)
Theorem wait_all_and_any_raise_only_on_invalid_input :
  (forall procs fuel w e,
     fst (subprocess_wait_all procs fuel w) = Raises e ->
     invalid procs = true /\ e = ValueError "procs is invalid") /\
  (forall procs fuel w e,
     fst (subprocess_wait_any procs fuel w) = Raises e ->
     invalid procs = true /\ e = ValueError "procs is invalid").
Proof.
  split.
  - intros [l|] fuel w e Hrun; [|simpl in Hrun; now injection Hrun as <-].
    destruct (decide (0 < length (items l))) as [Hpos|Hz].
    + exfalso. rewrite wait_all_valid in Hrun by done.
      destruct (all_loop_spec (items l) fuel (replicate (length (items l)) None) w)
        as (w1 & _ & [Hspin|(r1 & Hret & _)]);
        [apply length_replicate| |]; rewrite ?Hspin, ?Hret in Hrun; done.
    + unfold subprocess_wait_all, invalid in *.
      destruct (length (items l)); [|lia]. simpl in Hrun.
      now injection Hrun as <-.
  - intros [l|] fuel w e Hrun; [|simpl in Hrun; now injection Hrun as <-].
    destruct (decide (0 < length (items l))) as [Hpos|Hz].
    + exfalso. rewrite wait_any_valid in Hrun by done.
      destruct (any_loop_spec (items l) fuel w)
        as (w1 & rss & _ & _ & [(Hspin & _)|(rs & h & Hret & _)]);
        rewrite ?Hspin, ?Hret in Hrun; done.
    + unfold subprocess_wait_any, invalid in *.
      destruct (length (items l)); [|lia]. simpl in Hrun.
      now injection Hrun as <-.
Qed.

Lemma wait_all_and_any_raise_only_on_invalid_input_witness :
  invalid (Some (PyList 1 [])) = true /\
  ValueError "procs is invalid" = ValueError "procs is invalid".
Proof.
  exact (proj1 wait_all_and_any_raise_only_on_invalid_input
           (Some (PyList 1 [])) 3 (sample_world staggered no_fault) _ eq_refl).
Defined.

Lemma all_scan_all_zero procs n : forall i rcodes w,
  i + n <= length procs -> length rcodes = length procs ->
  (forall j, i <= j < i + n -> rcodes !! j = Some None) ->
  (forall j h, i <= j < i + n -> procs !! j = Some h ->
     throughout (window (now w) (now w + n)) (fun s => s = Some 0%Z) w h) ->
  exists rcodes' w',
    all_scan procs rcodes i n w = (Returns rcodes', w') /\
    length rcodes' = length procs /\
    now w' = now w + n /\
    log w' = log w ++ polls (take n (drop i procs)) (replicate n (Some 0%Z)) /\
    forall j, rcodes' !! j =
              if decide (i <= j < i + n) then Some (Some 0%Z) else rcodes !! j.
Proof.
  induction n as [|n IH]; intros i rcodes w Hlen Hrc Hnone Hz.
  - exists rcodes, w. simpl. unfold ret.
    split_and!; [done|done|lia|simpl; now rewrite app_nil_r|].
    intros j. destruct (decide _); [lia|done].
  - destruct (all_step_spec procs rcodes i w) as
      [(c & Hc & Hstep)|[(h & Hc & Hh & Hst & Hstep)|(h & Hc & Hh & Hst & Hstep)]];
      [lia|done| | |].
    + rewrite Hnone in Hc by lia. done.
    + rewrite (all_scan_S _ _ _ _ _ _ _ Hstep).
      destruct (IH (S i) (<[i := Some 0%Z]> rcodes) (polled h w))
        as (rcodes' & w' & Hrun & Hl & Hn & Hlog & Hslot);
        [lia|now rewrite length_insert| | |].
      * intros j Hj. rewrite list_lookup_insert_ne by lia. apply Hnone. lia.
      * intros j hj Hj Hhj.
        apply (throughout_weaken (window (now w) (now w + S n)) _
                 (fun s => s = Some 0%Z) _ (polled h w) hj); [|done|].
        -- unfold window. rewrite now_polled. intros t Ht. lia.
        -- eapply throughout_evolves; [apply evolves_polled| |apply (Hz j); [lia|done]].
           unfold window. rewrite now_polled. intros t Ht. lia.
      * exists rcodes', w'. rewrite now_polled in Hn.
        split_and!; [done|done|lia| |].
        -- rewrite Hlog, log_polled, Hst, (drop_S _ _ _ Hh). simpl.
           now rewrite <- app_assoc.
        -- intros j. rewrite Hslot.
           destruct (decide (S i <= j < S i + n)), (decide (i <= j < i + S n));
             try lia; [done| |].
           ++ assert (j = i) as -> by lia. apply list_lookup_insert_eq. lia.
           ++ apply list_lookup_insert_ne. lia.
    + exfalso. apply Hst. apply (Hz i h); [lia|done|]. unfold window. lia.
Qed.

(** [subprocess_wait_all] on handles that have all exited with code 0
    already returns from its first sweep: it queries every handle exactly
    once, in list order, never sleeps, and returns the list of zeros. *)
Theorem wait_all_returns_without_sleeping :
  forall procs w fuel,
    invalid (Some procs) = false ->
    (forall h, h ∈ items procs ->
       throughout (window (now w) (now w + length (items procs)))
                  (fun s => s = Some 0%Z) w h) ->
    0 < fuel ->
    exists w',
      subprocess_wait_all (Some procs) fuel w
        = (Returns (replicate (length (items procs)) (Some 0%Z)), w') /\
      log w' = log w ++ polls (items procs)
                          (replicate (length (items procs)) (Some 0%Z)) /\
      now w' = now w + length (items procs).
Proof.
  intros procs w fuel Hval Hz Hfuel.
  apply invalid_false_length in Hval. rewrite wait_all_valid by done.
  set (n := length (items procs)) in *.
  destruct (all_scan_all_zero (items procs) n 0 (replicate n None) w)
    as (rcodes' & w' & Hscan & Hl & Hn & Hlog & Hslot);
    [lia|apply length_replicate| | |].
  { intros j Hj. apply lookup_replicate_2. lia. }
  { intros j h Hj Hh. apply Hz. eapply list_elem_of_lookup_2; eauto. }
  assert (Hr : rcodes' = replicate n (Some 0%Z)).
  { apply list_eq. intros j. rewrite Hslot.
    destruct (decide (0 <= j < 0 + n)) as [Hj|Hj].
    - now rewrite lookup_replicate_2 by lia.
    - rewrite !(proj1 (lookup_replicate_None _ _ _)) by lia. done. }
  subst rcodes'. destruct fuel as [|fuel]; [lia|].
  rewrite (all_loop_S _ _ _ _ _ _ Hscan).
  assert (Hall : forallb is_not_None (replicate n (Some 0%Z)) = true).
  { apply all_filled_true. apply Forall_replicate. done. }
  rewrite Hall. exists w'. split_and!; [done| |done].
  rewrite Hlog, drop_0, take_ge by (unfold n; lia). done.
Qed.

Lemma wait_all_returns_without_sleeping_witness :
  exists w',
    subprocess_wait_all (Some (PyList 1 [3; 4])) 1
      (sample_world (exits_at 0 0) no_fault)
      = (Returns [Some 0%Z; Some 0%Z], w') /\
    log w' = [EvPoll 3 (Some 0%Z); EvPoll 4 (Some 0%Z)] /\
    now w' = 2.
Proof.
  apply (wait_all_returns_without_sleeping (PyList 1 [3; 4])
           (sample_world (exits_at 0 0) no_fault) 1); [reflexivity| |lia].
  intros h _ t _. reflexivity.
Defined.

(** * merge_dict *)

(** Induction on values that reaches the values stored in dictionaries. *)
Lemma pyval_dict_ind (P : pyval -> Prop) :
  (forall v, is_dict v = false -> P v) ->
  (forall kvs, Forall (fun kv => P (snd kv)) kvs -> P (VDict kvs)) ->
  forall v, P v.
Proof.
  intros Hatom Hdict. fix IH 1. intros [| | | | |kvs]; try (now apply Hatom).
  apply Hdict. induction kvs as [|[k v] kvs IHkvs]; constructor; [apply IH|done].
Qed.

Lemma dict_get_set_eq {A} k (v : A) kvs :
  dict_get k (dict_set k v kvs) = Some v.
Proof.
  induction kvs as [|[k' v'] kvs IH]; simpl.
  - now rewrite String.eqb_refl.
  - destruct (String.eqb k k') eqn:E; simpl; [now rewrite String.eqb_refl|].
    now rewrite E.
Qed.

Lemma dict_get_set_ne {A} k k0 (v : A) kvs :
  k <> k0 -> dict_get k (dict_set k0 v kvs) = dict_get k kvs.
Proof.
  intros Hne. induction kvs as [|[k' v'] kvs IH]; simpl.
  - destruct (String.eqb_spec k k0); done.
  - destruct (String.eqb_spec k0 k') as [->|Hne']; simpl.
    + destruct (String.eqb_spec k k'); done.
    + destruct (String.eqb_spec k k'); done.
Qed.

Lemma dict_get_None {A} k (kvs : list (string * A)) :
  dict_get k kvs = None <-> k ∉ dict_keys kvs.
Proof.
  induction kvs as [|[k' v'] kvs IH]; simpl.
  - split; [intros _; apply not_elem_of_nil|done].
  - rewrite not_elem_of_cons. destruct (String.eqb_spec k k') as [->|Hne].
    + split; [done|]. intros [? _]. done.
    + rewrite IH. tauto.
Qed.

Lemma dict_get_Some_in {A} k (v : A) kvs :
  dict_get k kvs = Some v -> (k, v) ∈ kvs.
Proof.
  induction kvs as [|[k' v'] kvs IH]; simpl; [done|].
  destruct (String.eqb_spec k k') as [->|Hne].
  - intros [= ->]. apply list_elem_of_here.
  - intros H. apply list_elem_of_further. auto.
Qed.

Lemma dict_get_in {A} k (v : A) kvs :
  NoDup (dict_keys kvs) -> (k, v) ∈ kvs -> dict_get k kvs = Some v.
Proof.
  induction kvs as [|[k' v'] kvs IH]; simpl; intros Hnd Hin.
  - inversion Hin.
  - apply NoDup_cons in Hnd as [Hk' Hnd].
    apply elem_of_cons in Hin as [[= -> ->]|Hin].
    + now rewrite String.eqb_refl.
    + destruct (String.eqb_spec k k') as [->|Hne]; [|auto].
      exfalso. apply Hk'. apply (list_elem_of_fmap_2 fst _ (k', v)). done.
Qed.

Lemma dict_set_same {A} k (v : A) kvs :
  dict_get k kvs = Some v -> dict_set k v kvs = kvs.
Proof.
  induction kvs as [|[k' v'] kvs IH]; simpl; [done|].
  destruct (String.eqb_spec k k') as [->|Hne].
  - now intros [= ->].
  - intros H. now rewrite IH.
Qed.

Lemma dict_set_new {A} k (v : A) kvs :
  dict_get k kvs = None -> dict_set k v kvs = kvs ++ [(k, v)].
Proof.
  induction kvs as [|[k' v'] kvs IH]; simpl; [done|].
  destruct (String.eqb_spec k k') as [->|Hne]; [done|].
  intros H. now rewrite IH.
Qed.

Lemma dict_keys_set {A} k (v : A) kvs :
  dict_keys (dict_set k v kvs) =
  match dict_get k kvs with
  | Some _ => dict_keys kvs
  | None => dict_keys kvs ++ [k]
  end.
Proof.
  induction kvs as [|[k' v'] kvs IH]; simpl; [done|].
  destruct (String.eqb_spec k k') as [->|Hne]; simpl; [done|].
  rewrite IH. destruct (dict_get k kvs); done.
Qed.

Lemma merge_dict_dicts kvs1 kvs2 :
  merge_dict (VDict kvs1) (VDict kvs2) =
  match merge_items merge_dict kvs2 kvs1 with
  | Returns result => Returns (VDict result)
  | Raises e => Raises e
  | Spins => Spins
  end.
Proof. destruct kvs2; reflexivity. Qed.

Lemma merge_dict_not_dict d1 d2 :
  is_dict d1 && is_dict d2 = false ->
  merge_dict d1 d2 = Raises (ValueError "dict1 or dict2 is not a dictionary").
Proof. destruct d1, d2; simpl; done. Qed.

(** The only way [merge_dict] fails is the [ValueError] of its first
    line, possibly raised by a recursive call. *)
Lemma merge_dict_fails_only_with_ValueError d2 : forall d1,
  (exists m, merge_dict d1 d2 = Returns m /\ is_dict m = true) \/
  merge_dict d1 d2 = Raises (ValueError "dict1 or dict2 is not a dictionary").
Proof.
  induction d2 as [d2 Hd2|kvs2 IH] using pyval_dict_ind; intros d1.
  - right. apply merge_dict_not_dict. rewrite Hd2. apply andb_false_r.
  - destruct d1 as [| | | | |kvs1]; try (now right).
    rewrite merge_dict_dicts.
    assert (Hitems : forall result,
              (exists r, merge_items merge_dict kvs2 result = Returns r) \/
              merge_items merge_dict kvs2 result
                = Raises (ValueError "dict1 or dict2 is not a dictionary")).
    { induction IH as [|[k v] rest Hv _ IHrest]; intros result; simpl; [eauto|].
      destruct (dict_get k result) as [[| | | | |sub]|]; try apply IHrest.
      simpl in Hv.
      destruct (Hv (VDict sub)) as [(m & Hm & _)|Hm]; rewrite Hm;
        [apply IHrest|now right]. }
    destruct (Hitems kvs1) as [[r Hr]|Hr]; rewrite Hr; [left; eauto|now right].
Qed.

Lemma merge_items_conflict k sub v its : forall result,
  dict_get k result = Some (VDict sub) ->
  dict_get k its = Some v -> is_dict v = false ->
  merge_items merge_dict its result
    = Raises (ValueError "dict1 or dict2 is not a dictionary").
Proof.
  induction its as [|[k0 v0] rest IH]; intros result Hres Hits Hv; [done|].
  simpl in *. destruct (String.eqb_spec k k0) as [<-|Hne].
  - injection Hits as ->. rewrite Hres.
    rewrite merge_dict_not_dict by (rewrite Hv; apply andb_false_r). done.
  - assert (Hkeep : forall x, dict_get k (dict_set k0 x result) = Some (VDict sub))
      by (intros x; now rewrite dict_get_set_ne).
    destruct (dict_get k0 result) as [[| | | | |sub0]|]; try (now apply IH).
    destruct (merge_dict_fails_only_with_ValueError v0 (VDict sub0))
      as [(m & Hm & _)|Hm]; rewrite Hm; [now apply IH|done].
Qed.

Lemma merge_items_flat its : forall result,
  NoDup (dict_keys its) ->
  (forall k sub, k ∈ dict_keys its -> dict_get k result <> Some (VDict sub)) ->
  exists r, merge_items merge_dict its result = Returns r.
Proof.
  induction its as [|[k0 v0] rest IH]; intros result Hnd Hflat; simpl; [eauto|].
  apply NoDup_cons in Hnd as [Hk0 Hnd].
  assert (Hnext : exists r, merge_items merge_dict rest (dict_set k0 v0 result)
                            = Returns r).
  { apply IH; [done|]. intros k sub Hk.
    rewrite dict_get_set_ne by (intros ->; done).
    apply Hflat. now apply list_elem_of_further. }
  destruct (dict_get k0 result) as [[| | | | |sub]|] eqn:E; try done.
  exfalso. apply (Hflat k0 sub); [apply list_elem_of_here|done].
Qed.

(** [merge_dict]: when it fails.  It raises [ValueError] when an argument
    is not a dictionary; it also raises it when a key holds a dictionary in
    [dict1] and a value that is not a dictionary in [dict2], because the
    recursive call then sees a non-dictionary.  It raises nothing else.
    When no value of [dict1] is a dictionary (and the keys of [dict2] are
    distinct) it cannot fail. *)
Theorem merge_dict_failures :
  (forall d1 d2,
     is_dict d1 && is_dict d2 = false ->
     merge_dict d1 d2
       = Raises (ValueError "dict1 or dict2 is not a dictionary")) /\
  (forall kvs1 kvs2 k sub v,
     dict_get k kvs1 = Some (VDict sub) ->
     dict_get k kvs2 = Some v -> is_dict v = false ->
     merge_dict (VDict kvs1) (VDict kvs2)
       = Raises (ValueError "dict1 or dict2 is not a dictionary")) /\
  (forall d1 d2 e,
     merge_dict d1 d2 = Raises e ->
     e = ValueError "dict1 or dict2 is not a dictionary") /\
  (forall kvs1 kvs2,
     NoDup (dict_keys kvs2) ->
     (forall k sub, dict_get k kvs1 <> Some (VDict sub)) ->
     exists r, merge_dict (VDict kvs1) (VDict kvs2) = Returns (VDict r)).
Proof.
  split_and!.
  - apply merge_dict_not_dict.
  - intros kvs1 kvs2 k sub v H1 H2 Hv. rewrite merge_dict_dicts.
    now rewrite (merge_items_conflict k sub v).
  - intros d1 d2 e He.
    destruct (merge_dict_fails_only_with_ValueError d2 d1) as [(m & Hm & _)|Hm];
      congruence.
  - intros kvs1 kvs2 Hnd Hflat. rewrite merge_dict_dicts.
    destruct (merge_items_flat kvs2 kvs1 Hnd) as [r Hr]; [auto|].
    rewrite Hr. eauto.
Qed.

Lemma merge_dict_failures_witness :
  merge_dict sample_config (VDict [("pool", VInt 3)])
    = Raises (ValueError "dict1 or dict2 is not a dictionary") /\
  merge_dict sample_config (VInt 3)
    = Raises (ValueError "dict1 or dict2 is not a dictionary").
Proof.
  destruct merge_dict_failures as (Htype & Hconflict & _ & _).
  split.
  - apply (Hconflict _ _ "pool"%string
             [("id"%string, VStr "a"); ("size"%string, VInt 2)] (VInt 3));
      reflexivity.
  - apply Htype. reflexivity.
Defined.

Lemma merge_items_lookup its : forall result r,
  NoDup (dict_keys its) ->
  merge_items merge_dict its result = Returns r ->
  forall k,
    match dict_get k its with
    | None => dict_get k r = dict_get k result
    | Some v =>
        match dict_get k result with
        | Some (VDict sub) =>
            exists m, merge_dict (VDict sub) v = Returns m /\
                      dict_get k r = Some m
        | _ => dict_get k r = Some v
        end
    end.
Proof.
  induction its as [|[k0 v0] rest IH]; intros result r Hnd Hrun k.
  - simpl in *. now injection Hrun as <-.
  - apply NoDup_cons in Hnd as [Hk0 Hnd]. simpl in Hrun |- *.
    destruct (String.eqb_spec k k0) as [->|Hne].
    + assert (Hfin : forall x,
                merge_items merge_dict rest (dict_set k0 x result) = Returns r ->
                dict_get k0 r = Some x).
      { intros x Hx. specialize (IH _ _ Hnd Hx k0).
        rewrite (proj2 (dict_get_None k0 rest)) in IH by done.
        now rewrite dict_get_set_eq in IH. }
      destruct (dict_get k0 result) as [[| | | | |sub]|];
        try (now apply Hfin).
      destruct (merge_dict (VDict sub) v0) as [m| |] eqn:Em; try done.
      exists m. split; [done|now apply Hfin].
    + assert (Hfin : forall x,
                merge_items merge_dict rest (dict_set k0 x result) = Returns r ->
                match dict_get k rest with
                | None => dict_get k r = dict_get k result
                | Some v =>
                    match dict_get k result with
                    | Some (VDict sub) =>
                        exists m, merge_dict (VDict sub) v = Returns m /\
                                  dict_get k r = Some m
                    | _ => dict_get k r = Some v
                    end
                end).
      { intros x Hx. specialize (IH _ _ Hnd Hx k).
        now rewrite dict_get_set_ne in IH. }
      destruct (dict_get k0 result) as [[| | | | |sub]|];
        try (now apply (Hfin v0)).
      destruct (merge_dict (VDict sub) v0) as [m| |] eqn:Em; try done.
      now apply (Hfin m).
Qed.

(** [merge_dict]: what the result holds under each key, for a [dict2] with
    distinct keys.  A key that [dict2] lacks keeps the value of [dict1];
    a key of [dict2] whose value in [dict1] is a dictionary holds the
    recursive merge of the two values; any other key of [dict2] holds the
    value of [dict2]. *)
Theorem merge_dict_lookup :
  forall kvs1 kvs2 r k,
    NoDup (dict_keys kvs2) ->
    merge_dict (VDict kvs1) (VDict kvs2) = Returns (VDict r) ->
    match dict_get k kvs2 with
    | None => dict_get k r = dict_get k kvs1
    | Some v =>
        match dict_get k kvs1 with
        | Some (VDict sub) =>
            exists m, merge_dict (VDict sub) v = Returns m /\
                      dict_get k r = Some m
        | _ => dict_get k r = Some v
        end
    end.
Proof.
  intros kvs1 kvs2 r k Hnd Hrun. rewrite merge_dict_dicts in Hrun.
  destruct (merge_items merge_dict kvs2 kvs1) as [r'| |] eqn:E; try done.
  injection Hrun as ->. now apply merge_items_lookup.
Qed.

Lemma merge_dict_lookup_witness :
  exists m,
    merge_dict (VDict [("id", VStr "a"); ("size", VInt 2)])
               (VDict [("size", VInt 4); ("vm", VStr "d2")]) = Returns m /\
    dict_get "pool"
      [("pool", VDict [("id", VStr "a"); ("size", VInt 4); ("vm", VStr "d2")]);
       ("debug", VBool false); ("tags", VList [VStr "x"])] = Some m.
Proof.
  apply (merge_dict_lookup
           [("pool"%string, VDict [("id"%string, VStr "a"); ("size"%string, VInt 2)]);
            ("debug"%string, VBool false)]
           [("pool"%string, VDict [("size"%string, VInt 4); ("vm"%string, VStr "d2")]);
            ("tags"%string, VList [VStr "x"])]
           _ "pool"%string).
  - apply (bool_decide_unpack _). vm_compute. exact I.
  - reflexivity.
Defined.

Lemma filter_ext_in {A} (P Q : A -> Prop)
    `{!forall x, Decision (P x)} `{!forall x, Decision (Q x)} (l : list A) :
  (forall x, x ∈ l -> P x <-> Q x) -> filter P l = filter Q l.
Proof.
  induction l as [|x l IH]; intros Hext; [done|].
  assert (Hl : filter P l = filter Q l).
  { apply IH. intros y Hy. apply Hext. now apply list_elem_of_further. }
  pose proof (Hext x (list_elem_of_here _ _)) as Hx.
  destruct (decide (P x)) as [HP|HP].
  - rewrite !filter_cons_True by tauto. now rewrite Hl.
  - rewrite !filter_cons_False by tauto. done.
Qed.

Lemma merge_items_keys its : forall result r,
  NoDup (dict_keys its) ->
  merge_items merge_dict its result = Returns r ->
  dict_keys r = dict_keys result
                ++ filter (fun k => k ∉ dict_keys result) (dict_keys its).
Proof.
  induction its as [|[k0 v0] rest IH]; intros result r Hnd Hrun.
  - simpl in *. injection Hrun as <-. now rewrite app_nil_r.
  - apply NoDup_cons in Hnd as [Hk0 Hnd]. simpl in Hrun, Hk0.
    change (dict_keys ((k0, v0) :: rest)) with (k0 :: dict_keys rest).
    assert (Hfin : forall x,
              merge_items merge_dict rest (dict_set k0 x result) = Returns r ->
              dict_keys r = dict_keys result
                ++ filter (fun k => k ∉ dict_keys result) (k0 :: dict_keys rest)).
    { intros x Hx. rewrite (IH _ _ Hnd Hx), dict_keys_set.
      destruct (dict_get k0 result) as [y|] eqn:E.
      - rewrite filter_cons_False; [done|].
        intros Hn. apply dict_get_None in Hn. congruence.
      - apply dict_get_None in E. rewrite filter_cons_True by done.
        rewrite <- app_assoc. simpl. do 2 f_equal.
        apply filter_ext_in. intros k Hk. rewrite not_elem_of_app.
        rewrite list_elem_of_singleton.
        split; [tauto|]. intros Hr. split; [done|]. intros ->. done. }
    destruct (dict_get k0 result) as [[| | | | |sub]|];
      try (now apply (Hfin v0)).
    destruct (merge_dict (VDict sub) v0) as [m| |] eqn:Em; try done.
    now apply (Hfin m).
Qed.

(** [merge_dict]: the order of the keys.  For a [dict2] with distinct
    keys, the result lists the keys of [dict1] in their order, followed by
    the keys of [dict2] that [dict1] lacks, in the order of [dict2]; in
    particular its keys are distinct when those of [dict1] are. *)
Theorem merge_dict_key_order :
  forall kvs1 kvs2 r,
    NoDup (dict_keys kvs2) ->
    merge_dict (VDict kvs1) (VDict kvs2) = Returns (VDict r) ->
    dict_keys r = dict_keys kvs1
                  ++ filter (fun k => k ∉ dict_keys kvs1) (dict_keys kvs2) /\
    (NoDup (dict_keys kvs1) -> NoDup (dict_keys r)).
Proof.
  intros kvs1 kvs2 r Hnd Hrun. rewrite merge_dict_dicts in Hrun.
  destruct (merge_items merge_dict kvs2 kvs1) as [r'| |] eqn:E; try done.
  injection Hrun as ->.
  pose proof (merge_items_keys _ _ _ Hnd E) as Hkeys.
  split; [done|]. intros Hnd1. rewrite Hkeys. apply NoDup_app. split_and!.
  - done.
  - intros k Hk Hin. apply list_elem_of_filter in Hin as [Hn _]. done.
  - now apply NoDup_filter.
Qed.

Lemma merge_dict_key_order_witness :
  dict_keys [("pool", VDict [("id", VStr "a"); ("size", VInt 4); ("vm", VStr "d2")]);
             ("debug", VBool false); ("tags", VList [VStr "x"])]
  = ["pool"; "debug"; "tags"]%string.
Proof.
  destruct (merge_dict_key_order
              [("pool"%string, VDict [("id"%string, VStr "a"); ("size"%string, VInt 2)]);
               ("debug"%string, VBool false)]
              [("pool"%string, VDict [("size"%string, VInt 4); ("vm"%string, VStr "d2")]);
               ("tags"%string, VList [VStr "x"])]
              [("pool"%string, VDict [("id"%string, VStr "a"); ("size"%string, VInt 4);
                                      ("vm"%string, VStr "d2")]);
               ("debug"%string, VBool false); ("tags"%string, VList [VStr "x"])])
    as [Hkeys _].
  - apply (bool_decide_unpack _). vm_compute. exact I.
  - reflexivity.
  - rewrite Hkeys. reflexivity.
Defined.

Lemma merge_items_disjoint its : forall result,
  NoDup (dict_keys result ++ dict_keys its) ->
  merge_items merge_dict its result = Returns (result ++ its).
Proof.
  induction its as [|[k0 v0] rest IH]; intros result Hnd; simpl.
  - now rewrite app_nil_r.
  - change (dict_keys ((k0, v0) :: rest)) with (k0 :: dict_keys rest) in Hnd.
    assert (Hfresh : dict_get k0 result = None).
    { apply dict_get_None. apply NoDup_app in Hnd as (_ & Hdis & _).
      intros Hin. apply (Hdis k0 Hin). apply list_elem_of_here. }
    rewrite Hfresh, (dict_set_new _ _ _ Hfresh), IH.
    + now rewrite <- app_assoc.
    + unfold dict_keys in *. rewrite map_app. simpl. now rewrite <- app_assoc.
Qed.

(** [merge_dict]: dictionaries that share no key.  Merging the empty
    dictionary onto a dictionary gives that dictionary back; merging two
    dictionaries without a common key puts the items of [dict2] after
    those of [dict1], unchanged; so merging onto the empty dictionary
    gives [dict2] back. *)
Theorem merge_dict_without_common_keys :
  (forall kvs1, merge_dict (VDict kvs1) (VDict []) = Returns (VDict kvs1)) /\
  (forall kvs1 kvs2,
     NoDup (dict_keys kvs1 ++ dict_keys kvs2) ->
     merge_dict (VDict kvs1) (VDict kvs2) = Returns (VDict (kvs1 ++ kvs2))) /\
  (forall kvs2,
     NoDup (dict_keys kvs2) ->
     merge_dict (VDict []) (VDict kvs2) = Returns (VDict kvs2)).
Proof.
  split_and!.
  - reflexivity.
  - intros kvs1 kvs2 Hnd. rewrite merge_dict_dicts.
    now rewrite merge_items_disjoint.
  - intros kvs2 Hnd. rewrite merge_dict_dicts.
    now rewrite merge_items_disjoint.
Qed.

Lemma merge_dict_without_common_keys_witness :
  merge_dict (VDict [("a", VInt 1)]) (VDict [("b", VDict []); ("c", VNone)])
  = Returns (VDict ([("a", VInt 1)] ++ [("b", VDict []); ("c", VNone)])).
Proof.
  apply (proj1 (proj2 merge_dict_without_common_keys)).
  apply (bool_decide_unpack _). vm_compute. exact I.
Defined.

Lemma well_formed_dict kvs :
  well_formed (VDict kvs) = true <->
  NoDup (dict_keys kvs) /\ Forall (fun kv => well_formed (snd kv) = true) kvs.
Proof.
  simpl. rewrite andb_true_iff, bool_decide_eq_true, forallb_forall.
  rewrite Forall_forall. unfold dict_keys.
  split; intros [H1 H2]; (split; [done|]); intros kv Hkv; apply H2;
    now apply list_elem_of_In.
Qed.

Lemma merge_items_same its : forall result,
  (forall k v, (k, v) ∈ its ->
     dict_get k result = Some v /\
     (is_dict v = true -> merge_dict v v = Returns v)) ->
  merge_items merge_dict its result = Returns result.
Proof.
  induction its as [|[k0 v0] rest IH]; intros result H; [done|].
  destruct (H k0 v0 (list_elem_of_here _ _)) as [Hget Hself].
  assert (Hrest : merge_items merge_dict rest result = Returns result).
  { apply IH. intros k v Hin. apply H. now apply list_elem_of_further. }
  simpl. rewrite Hget. destruct v0 as [| | | | |sub];
    rewrite ?Hself by done; rewrite (dict_set_same _ _ _ Hget); exact Hrest.
Qed.

(** [merge_dict] is idempotent: merging a well-formed dictionary with
    itself gives it back, at every depth of nesting. *)
Theorem merge_dict_idempotent :
  forall d,
    is_dict d = true -> well_formed d = true ->
    merge_dict d d = Returns d.
Proof.
  induction d as [d Hd|kvs IH] using pyval_dict_ind; intros Hdict Hwf;
    [congruence|].
  apply well_formed_dict in Hwf as [Hnd Hwf].
  rewrite merge_dict_dicts, merge_items_same; [done|].
  intros k v Hin. split; [now apply dict_get_in|].
  intros Hv.
  rewrite Forall_forall in IH, Hwf.
  apply (IH (k, v) Hin Hv). apply (Hwf (k, v) Hin).
Qed.

Lemma merge_dict_idempotent_witness :
  merge_dict sample_config sample_config = Returns sample_config.
Proof.
  apply merge_dict_idempotent; reflexivity.
Defined.

(** * is_none_or_empty, is_not_empty *)

(** [is_not_empty] is the negation of [is_none_or_empty] on every input,
    and the guard of the wait operations is [is_none_or_empty] of the list
    of handles. *)
Theorem is_not_empty_negates_is_none_or_empty :
  (forall A (obj : option (list A)),
     is_not_empty obj = negb (is_none_or_empty obj)) /\
  (forall procs, invalid procs = is_none_or_empty (items <$> procs)).
Proof.
  split.
  - intros A [l|]; simpl; [|done]. destruct (length l); done.
  - intros [l|]; simpl; [|done]. destruct (length (items l)); done.
Qed.

(** * confirm_action *)

Arguments in_strings : simpl never.

(** One turn of the loop is one call of [get_input]. *)
Lemma ask_get_input prompt lines out :
  ask prompt lines out =
  match get_input prompt {| pending := lines; shown := out |} with
  | (Fail e, c') => (Fail e, c')
  | (Ok line, c') =>
      if in_strings (lower line) ["y"; "yes"; "n"; "no"]%string
      then (Ok (lower line), c')
      else ask prompt (pending c') (shown c')
  end.
Proof. destruct lines; reflexivity. Qed.

Lemma ask_first_answer prompt pre a post : forall out,
  Forall (fun x => in_strings (lower x) ["y"; "yes"; "n"; "no"]%string = false) pre ->
  in_strings (lower a) ["y"; "yes"; "n"; "no"]%string = true ->
  ask prompt (pre ++ a :: post) out =
  (Ok (lower a),
   {| pending := post; shown := out ++ replicate (S (length pre)) prompt |}).
Proof.
  induction pre as [|x pre IH]; intros out Hpre Ha; simpl.
  - now rewrite Ha.
  - apply Forall_cons in Hpre as [Hx Hpre]. rewrite Hx, IH by done.
    now rewrite <- app_assoc.
Qed.

Lemma ask_no_answer prompt lines : forall out,
  Forall (fun x => in_strings (lower x) ["y"; "yes"; "n"; "no"]%string = false) lines ->
  ask prompt lines out =
  (Fail EOFError,
   {| pending := []; shown := out ++ replicate (S (length lines)) prompt |}).
Proof.
  induction lines as [|x lines IH]; intros out Hall; simpl; [done|].
  apply Forall_cons in Hall as [Hx Hall]. rewrite Hx, IH by done.
  now rewrite <- app_assoc.
Qed.

(** [confirm_action] without a prompt.  With [allow_auto], a configuration
    whose ["_auto_confirm"] is true confirms at once, and a configuration
    without that key raises [KeyError]; in both cases nothing is written
    and nothing is read.  Without [allow_auto] the configuration is not
    consulted at all. *)
Theorem confirm_action_auto :
  (forall config msg c v,
     dict_get "_auto_confirm" config = Some v -> truthy v = true ->
     confirm_action config msg true c = (Ok true, c)) /\
  (forall config msg c,
     dict_get "_auto_confirm" config = None ->
     confirm_action config msg true c = (Fail (KeyError "_auto_confirm"), c)) /\
  (forall config config' msg c,
     confirm_action config msg false c = confirm_action config' msg false c).
Proof.
  split_and!.
  - intros config msg c v Hv Ht. unfold confirm_action. now rewrite Hv, Ht.
  - intros config msg c Hv. unfold confirm_action. now rewrite Hv.
  - reflexivity.
Qed.

Lemma confirm_action_auto_witness :
  confirm_action [("_auto_confirm", VBool true)] None true
    {| pending := ["n"]; shown := [] |}
  = (Ok true, {| pending := ["n"]; shown := [] |}) /\
  confirm_action [("verbose", VBool true)] None true
    {| pending := ["y"]; shown := [] |}
  = (Fail (KeyError "_auto_confirm"), {| pending := ["y"]; shown := [] |}).
Proof.
  destruct confirm_action_auto as (Hauto & Hkey & _). split.
  - apply (Hauto _ _ _ (VBool true)); reflexivity.
  - apply Hkey. reflexivity.
Defined.

(** [confirm_action] when it asks (no [allow_auto], or an
    ["_auto_confirm"] that is false).  The user is prompted once per line
    read; lines that are not [y], [yes], [n] or [no] (in any letter case)
    are skipped; the first line that is one of them decides, [y] and [yes]
    meaning confirmation, and the lines after it are left unread.  If the
    input ends before such a line, the [EOFError] of the read is raised,
    after one more prompt. *)
Theorem confirm_action_first_answer_decides :
  forall config msg allow_auto c,
    (allow_auto = false \/
     exists v, dict_get "_auto_confirm" config = Some v /\ truthy v = false) ->
    (forall pre a post,
       pending c = pre ++ a :: post ->
       Forall (fun x => in_strings (lower x) ["y"; "yes"; "n"; "no"]%string = false)
              pre ->
       in_strings (lower a) ["y"; "yes"; "n"; "no"]%string = true ->
       confirm_action config msg allow_auto c =
       (Ok (in_strings (lower a) ["y"; "yes"]%string),
        {| pending := post;
           shown := shown c ++ replicate (S (length pre)) (confirm_prompt msg) |})) /\
    (Forall (fun x => in_strings (lower x) ["y"; "yes"; "n"; "no"]%string = false)
            (pending c) ->
     confirm_action config msg allow_auto c =
     (Fail EOFError,
      {| pending := [];
         shown := shown c ++ replicate (S (length (pending c))) (confirm_prompt msg) |})).
Proof.
  intros config msg allow c Hask.
  assert (Hconf : confirm_action config msg allow c =
            match ask (confirm_prompt msg) (pending c) (shown c) with
            | (Ok user, c') => (Ok (in_strings user ["y"; "yes"]%string), c')
            | (Fail e, c') => (Fail e, c')
            end).
  { unfold confirm_action. destruct Hask as [->|(v & Hv & Ht)]; [done|].
    rewrite Hv, Ht. now destruct allow. }
  split.
  - intros pre a post Hp Hpre Ha. rewrite Hconf, Hp.
    now rewrite ask_first_answer.
  - intros Hall. rewrite Hconf. now rewrite ask_no_answer.
Qed.

Lemma confirm_action_first_answer_decides_witness :
  confirm_action [("_auto_confirm", VBool false)] (Some "delete pool") true
    {| pending := ["maybe"; "YES"; "n"]; shown := [] |}
  = (Ok true,
     {| pending := ["n"];
        shown := ["Confirm delete pool [y/n]: "; "Confirm delete pool [y/n]: "] |}).
Proof.
  apply (proj1 (confirm_action_first_answer_decides
                  [("_auto_confirm"%string, VBool false)] (Some "delete pool"%string)
                  true {| pending := ["maybe"; "YES"; "n"]%string; shown := [] |}
                  (or_intror (ex_intro _ (VBool false) (conj eq_refl eq_refl))))
           ["maybe"%string] "YES"%string ["n"%string]).
  - reflexivity.
  - repeat constructor.
  - reflexivity.
Defined.

Lemma ask_ignores_case prompt lines : forall lines' out,
  map lower lines = map lower lines' ->
  fst (ask prompt lines out) = fst (ask prompt lines' out) /\
  shown (snd (ask prompt lines out)) = shown (snd (ask prompt lines' out)) /\
  map lower (pending (snd (ask prompt lines out)))
    = map lower (pending (snd (ask prompt lines' out))).
Proof.
  induction lines as [|x lines IH]; intros [|x' lines'] out Hmap; try done.
  simpl in Hmap. injection Hmap as Hx Hrest. simpl. rewrite <- Hx.
  destruct (in_strings (lower x) _); [done|]. now apply IH.
Qed.

(** [confirm_action] does not distinguish letter case in what the user
    types: two inputs whose lines agree up to the case of ASCII letters
    give the same decision (or the same error), cause the same prompts
    and leave the same number of lines unread. *)
Theorem confirm_action_ignores_case :
  forall config msg allow_auto c c',
    map lower (pending c) = map lower (pending c') ->
    shown c = shown c' ->
    fst (confirm_action config msg allow_auto c)
      = fst (confirm_action config msg allow_auto c') /\
    shown (snd (confirm_action config msg allow_auto c))
      = shown (snd (confirm_action config msg allow_auto c')) /\
    map lower (pending (snd (confirm_action config msg allow_auto c)))
      = map lower (pending (snd (confirm_action config msg allow_auto c'))).
Proof.
  intros config msg allow c c' Hp Hs.
  destruct (ask_ignores_case (confirm_prompt msg) _ _ (shown c) Hp)
    as (Hfst & Hshown & Hpend).
  rewrite Hs in Hfst, Hshown, Hpend.
  assert (Hint :
    fst (match ask (confirm_prompt msg) (pending c) (shown c') with
         | (Ok user, c0) => (Ok (in_strings user ["y"; "yes"]%string), c0)
         | (Fail e, c0) => (Fail e, c0)
         end) =
    fst (match ask (confirm_prompt msg) (pending c') (shown c') with
         | (Ok user, c0) => (Ok (in_strings user ["y"; "yes"]%string), c0)
         | (Fail e, c0) => (Fail e, c0)
         end) /\
    snd (match ask (confirm_prompt msg) (pending c) (shown c') with
         | (Ok user, c0) => (Ok (in_strings user ["y"; "yes"]%string), c0)
         | (Fail e, c0) => (Fail e, c0)
         end) = snd (ask (confirm_prompt msg) (pending c) (shown c')) /\
    snd (match ask (confirm_prompt msg) (pending c') (shown c') with
         | (Ok user, c0) => (Ok (in_strings user ["y"; "yes"]%string), c0)
         | (Fail e, c0) => (Fail e, c0)
         end) = snd (ask (confirm_prompt msg) (pending c') (shown c'))).
  { destruct (ask (confirm_prompt msg) (pending c) (shown c')) as [[u|e] c0],
             (ask (confirm_prompt msg) (pending c') (shown c')) as [[u'|e'] c0'];
      simpl in *; split_and!; congruence. }
  destruct Hint as (H1 & H2 & H3).
  unfold confirm_action. rewrite Hs.
  destruct allow; [|rewrite H1, H2, H3; by split_and!].
  destruct (dict_get "_auto_confirm" config) as [v|];
    [|simpl; split_and!; congruence].
  destruct (truthy v); [simpl; split_and!; congruence|].
  rewrite H1, H2, H3. by split_and!.
Qed.

Lemma confirm_action_ignores_case_witness :
  fst (confirm_action [] None false {| pending := ["Maybe"; "YES"]; shown := [] |})
  = fst (confirm_action [] None false {| pending := ["maybe"; "yes"]; shown := [] |}).
Proof.
  apply (confirm_action_ignores_case [] None false
           {| pending := ["Maybe"; "YES"]%string; shown := [] |}
           {| pending := ["maybe"; "yes"]%string; shown := [] |});
    reflexivity.
Defined.

(** ** decode_string and encode_string *)

(** [encode_string] gives a [bytes] object and [decode_string] a [str]
    object whenever they return, and applying the same function to the
    result again, with whatever encoding, gives the result back without
    calling the codec. *)
Theorem string_conversions_are_idempotent
    (str_encode : string -> string -> answer (list Byte.byte))
    (bytes_decode : list Byte.byte -> string -> answer string)
    (x y : pystring) (enc : option string) :
  (encode_string str_encode x enc = Ok y ->
     (exists b, y = PyBytes b) /\
     forall str_encode' enc', encode_string str_encode' y enc' = Ok y) /\
  (decode_string bytes_decode x enc = Ok y ->
     (exists s, y = PyStr s) /\
     forall bytes_decode' enc', decode_string bytes_decode' y enc' = Ok y).
Proof.
  split; intros Hx.
  - destruct x as [b|s|ty]; simpl in Hx.
    + injection Hx as <-. split; [by eexists|done].
    + destruct (str_encode s _) as [b|e]; [|done].
      injection Hx as <-. split; [by eexists|done].
    + done.
  - destruct x as [b|s|ty]; simpl in Hx.
    + destruct (bytes_decode b _) as [s|e]; [|done].
      injection Hx as <-. split; [by eexists|done].
    + injection Hx as <-. split; [by eexists|done].
    + done.
Qed.

Lemma string_conversions_are_idempotent_witness :
  encode_string raw_encode (PyStr "abc") None
    = Ok (PyBytes (String.list_byte_of_string "abc")) /\
  (exists b, PyBytes (String.list_byte_of_string "abc") = PyBytes b) /\
  forall str_encode' enc',
    encode_string str_encode' (PyBytes (String.list_byte_of_string "abc")) enc'
    = Ok (PyBytes (String.list_byte_of_string "abc")).
Proof.
  split; [reflexivity|].
  apply (string_conversions_are_idempotent raw_encode raw_decode
           (PyStr "abc") _ None).
  reflexivity.
Defined.

(** Both functions refuse an object that is neither [bytes] nor [str]
    with a [ValueError], whatever the encoding, and these are the only
    errors that do not come from the codec: with a codec that accepts its
    input, [bytes] and [str] objects are always converted. *)
Theorem string_conversions_reject_other_types
    (str_encode : string -> string -> answer (list Byte.byte))
    (bytes_decode : list Byte.byte -> string -> answer string)
    (x : pystring) (enc : option string)
    (Henc : forall s e, exists b, str_encode s e = Ok b)
    (Hdec : forall b e, exists s, bytes_decode b e = Ok s) :
  ((exists ty, x = PyOther ty) <->
     exists msg, encode_string str_encode x enc = Fail (Std (ValueError msg))) /\
  ((exists ty, x = PyOther ty) <->
     exists msg, decode_string bytes_decode x enc = Fail (Std (ValueError msg))) /\
  ((forall ty, x <> PyOther ty) ->
     (exists b, encode_string str_encode x enc = Ok (PyBytes b)) /\
     (exists s, decode_string bytes_decode x enc = Ok (PyStr s))).
Proof.
  split_and!.
  - split.
    + intros [ty ->]. by eexists.
    + intros [msg Hm]. destruct x as [b|s|ty]; simpl in Hm.
      * done.
      * destruct (Henc s (match enc with None => "utf8"%string | Some e => e end))
          as [b Hb].
        rewrite Hb in Hm. done.
      * by eexists.
  - split.
    + intros [ty ->]. by eexists.
    + intros [msg Hm]. destruct x as [b|s|ty]; simpl in Hm.
      * destruct (Hdec b (match enc with None => "utf8"%string | Some e => e end))
          as [s Hs].
        rewrite Hs in Hm. done.
      * done.
      * by eexists.
  - intros Hx. destruct x as [b|s|ty].
    + split; [by eexists|]. simpl.
      destruct (Hdec b (match enc with None => "utf8"%string | Some e => e end))
        as [s Hs].
      rewrite Hs. by eexists.
    + split; [|by eexists]. simpl.
      destruct (Henc s (match enc with None => "utf8"%string | Some e => e end))
        as [b Hb].
      rewrite Hb. by eexists.
    + by destruct (Hx ty).
Qed.

Lemma string_conversions_reject_other_types_witness :
  (exists msg, encode_string raw_encode (PyOther "<class 'int'>") None
               = Fail (Std (ValueError msg))).
Proof.
  apply (string_conversions_reject_other_types raw_encode raw_decode
           (PyOther "<class 'int'>") None).
  - intros s e. by eexists.
  - intros b e. by eexists.
  - by eexists.
Defined.

(** Encoding a [str] object and decoding the result with the same
    [encoding] argument gives the text back, provided the codec itself
    round-trips; this holds also when the argument is omitted on both
    sides, since both functions then use the same default, utf8. *)
Theorem encode_then_decode_round_trip
    (str_encode : string -> string -> answer (list Byte.byte))
    (bytes_decode : list Byte.byte -> string -> answer string)
    (enc : option string) (s : string) (y : pystring)
    (Hcodec : forall e b, str_encode s e = Ok b -> bytes_decode b e = Ok s)
    (Hy : encode_string str_encode (PyStr s) enc = Ok y) :
  decode_string bytes_decode y enc = Ok (PyStr s).
Proof.
  simpl in Hy.
  destruct (str_encode s _) as [b|e] eqn:Hb; [|done].
  injection Hy as <-. simpl.
  by rewrite (Hcodec _ _ Hb).
Qed.

Lemma encode_then_decode_round_trip_witness :
  decode_string raw_decode (PyBytes (String.list_byte_of_string "convoy")) None
  = Ok (PyStr "convoy").
Proof.
  apply (encode_then_decode_round_trip raw_encode raw_decode None "convoy").
  - intros e b [= <-]. reflexivity.
  - reflexivity.
Defined.

(** ** compute_md5_for_file *)




(** With a block size of 0 the first read is empty, so the loop stops at
    once: the function returns the digest of the empty byte string for
    every file that can be opened, whatever it contains. *)
Theorem md5_with_zero_blocksize_hashes_nothing
    (md5 : list Byte.byte -> list Byte.byte) (hex : list Byte.byte -> string)
    (b64encode : list Byte.byte -> list Byte.byte)
    (py2 : bool) (content : list Byte.byte) (fuel : nat)
    (Hfuel : 0 < fuel) :
  compute_md5_for_file md5 hex b64encode py2 (Some content) false 0 fuel
  = Returns (hex (md5 [])) /\
  compute_md5_for_file md5 hex b64encode py2 (Some content) true 0 fuel
  = Returns (String.string_of_list_byte (b64encode (md5 []))).
Proof.
  destruct fuel as [|fuel]; [lia|].
  unfold compute_md5_for_file, base64_encode_string. simpl.
  by destruct py2.
Qed.

Lemma md5_with_zero_blocksize_hashes_nothing_witness :
  compute_md5_for_file (fun b => reverse b) String.string_of_list_byte
    (fun b => b ++ b) false
    (Some (String.list_byte_of_string "abcdefg")) false 0 1
  = Returns ""%string.
Proof.
  apply (md5_with_zero_blocksize_hashes_nothing (fun b => reverse b)
           String.string_of_list_byte (fun b => b ++ b) false
           (String.list_byte_of_string "abcdefg") 1).
  lia.
Defined.

(** ** scantree *)







Lemma scantree_cons path name child rest :
  scantree path (FsDir ((name, child) :: rest)) =
  match
    match child with
    | FsDir _ => scantree (path_join path name) child
    | FsFile => Returns [mkEntry name (path_join path name) false]
    end
  with
  | Returns yielded =>
      match scantree path (FsDir rest) with
      | Returns more => Returns (yielded ++ more)
      | Raises e => Raises e
      | Spins => Spins
      end
  | Raises e => Raises e
  | Spins => Spins
  end.
Proof. reflexivity. Qed.

(** The entries come in the order of the directory listing: what the
    scan of a directory yields is what its first entries give, complete,
    followed by what its later entries give, so the files of a
    subdirectory are never interleaved with those of its siblings. *)
Theorem scantree_keeps_listing_order
    (path : string) (es1 es2 : list (string * fsnode))
    (l1 l2 : list DirEntry)
    (H1 : scantree path (FsDir es1) = Returns l1)
    (H2 : scantree path (FsDir es2) = Returns l2) :
  scantree path (FsDir (es1 ++ es2)) = Returns (l1 ++ l2).
Proof.
  revert l1 H1. induction es1 as [|[name child] rest IH]; intros l1 H1.
  - simpl in H1. injection H1 as <-. exact H2.
  - change (((name, child) :: rest) ++ es2) with ((name, child) :: (rest ++ es2)).
    rewrite scantree_cons in H1 |- *.
    destruct (match child with
              | FsFile => _
              | FsDir _ => scantree (path_join path name) child
              end) as [yielded| |]; [|done|done].
    destruct (scantree path (FsDir rest)) as [more| |]; [|done|done].
    injection H1 as <-.
    rewrite (IH more eq_refl). by rewrite app_assoc.
Qed.

Lemma scantree_keeps_listing_order_witness :
  scantree "/data"
    (FsDir ([("sub", FsDir [("b.txt", FsFile); ("c.txt", FsFile)])]
            ++ [("a.txt", FsFile)]))
  = Returns ([mkEntry "b.txt" "/data/sub/b.txt" false;
              mkEntry "c.txt" "/data/sub/c.txt" false]
             ++ [mkEntry "a.txt" "/data/a.txt" false]).
Proof.
  apply (scantree_keeps_listing_order "/data"
           [("sub", FsDir [("b.txt", FsFile); ("c.txt", FsFile)])]
           [("a.txt", FsFile)]).
  - reflexivity.
  - reflexivity.
Defined.

(** ** wrap_commands_in_shell *)

Lemma count_char_app ch (s t : string) :
  count_char ch (s ++ t) = count_char ch s + count_char ch t.
Proof.
  induction s as [|a s IH]; simpl; [done|]. rewrite IH. lia.
Qed.

Lemma count_char_join ch (sep : string) (l : list string) :
  count_char ch sep = 0 ->
  count_char ch (str_join sep l) = sum_list (count_char ch <$> l).
Proof.
  intros Hsep. induction l as [|x rest IH]; [done|].
  destruct rest as [|y rest].
  - simpl. lia.
  - change (str_join sep (x :: y :: rest))
      with (x ++ sep ++ str_join sep (y :: rest))%string.
    rewrite !count_char_app, Hsep, IH. simpl. lia.
Qed.

(** The commands are put between one pair of single quotes without any
    escaping: the result holds two single quotes more than the commands
    together, so it is a single quoted shell word exactly when no
    command contains a single quote. *)
Theorem wrap_commands_does_not_escape_quotes
    (commands : list string) (wait : bool) :
  count_char single_quote (wrap_commands_in_shell commands wait)
  = 2 + sum_list (count_char single_quote <$> commands).
Proof.
  unfold wrap_commands_in_shell.
  rewrite !count_char_app, count_char_join by reflexivity.
  destruct wait; simpl; lia.
Qed.
